(** * Frache: a Redis-backed cache with tags, compression and warmup tasks

    A shallow embedding of the [Cache] class ([src/cache.ts]) and of the
    helpers it imports ([src/utils.ts], [src/types.ts]), together with the
    properties of the tag invalidation, the core operations and the warmup
    scheduler.

    Conventions of the embedding.
    - A JavaScript string is the list of its UTF-16 code units ([jsstring]);
      [js] turns a literal into one.
    - A JavaScript number is an integer ([Z]); [NaN], the infinities and
      fractions are not values of the model.  A numeric JSON literal with a
      fraction or an exponent is kept as [JNumLit] with its text.
    - An optional field or argument is an [option]; JavaScript truthiness is
      written out at every use ([truthy_str], [truthy_num], ...).
    - [async] methods are functions from the cache to an outcome and the next
      cache; a [throw] (a rejected promise) is the [Throw] outcome, and the
      state reached before the [throw] is kept.
    - The Redis client is a keyspace of strings and hashes with a time to
      live, and it records every command it is sent. *)

From Stdlib Require Import ZArith NArith List String Ascii Bool Lia.
From Stdlib Require Import Sorting.Permutation Sorting.Sorted.
From Stdlib Require Import Init.Decimal DecimalFacts DecimalN.
From stdpp Require Import base option list gmap.
Import ListNotations.

Set Default Proof Using "Type".
Local Open Scope Z_scope.

(** ** JavaScript strings *)

Module JsString.

(** A string is a sequence of UTF-16 code units. *)
Abbreviation jsstring := (list N).

Definition js (s : string) : jsstring :=
  List.map N_of_ascii (list_ascii_of_string s).

(** [parts.join(sep)] *)
Fixpoint join (sep : jsstring) (parts : list jsstring) : jsstring :=
  match parts with
  | [] => []
  | [p] => p
  | p :: ps => p ++ sep ++ join sep ps
  end.

(** [s.startsWith(p)] *)
Fixpoint starts_with (p s : jsstring) : bool :=
  match p, s with
  | [], _ => true
  | _ :: _, [] => false
  | a :: p', b :: s' => (a =? b)%N && starts_with p' s'
  end.

(** [s.includes(p)] for strings: [p] occurs in [s] as a substring. *)
Fixpoint str_includes (p s : jsstring) : bool :=
  starts_with p s ||
  match s with
  | [] => false
  | _ :: s' => str_includes p s'
  end.

(** [s.replace(p, r)] with a string pattern: only the first occurrence of
    [p] is replaced. *)
Fixpoint replace_first (p r s : jsstring) : jsstring :=
  if starts_with p s then r ++ drop (length p) s
  else match s with
       | [] => []
       | c :: s' => c :: replace_first p r s'
       end.

Definition is_high_surrogate (c : N) : bool := (55296 <=? c)%N && (c <=? 56319)%N.
Definition is_low_surrogate (c : N) : bool := (56320 <=? c)%N && (c <=? 57343)%N.

(** [Buffer.byteLength(s, 'utf8')]: a surrogate pair takes four bytes, a
    lone surrogate is written as U+FFFD (three bytes). *)
Fixpoint utf8_byteLength (s : jsstring) : Z :=
  match s with
  | [] => 0
  | c :: s' =>
      if (c <? 128)%N then 1 + utf8_byteLength s'
      else if (c <? 2048)%N then 2 + utf8_byteLength s'
      else if is_high_surrogate c then
        match s' with
        | d :: s'' =>
            if is_low_surrogate d then 4 + utf8_byteLength s''
            else 3 + utf8_byteLength s'
        | [] => 3
        end
      else 3 + utf8_byteLength s'
  end.

End JsString.
Export JsString.

(** ** JavaScript values that JSON can carry *)

#[warnings="-register-all"]
Inductive jsvalue : Type :=
| JNull
| JBool (b : bool)
| JNum (n : Z)
| JNumLit (text : jsstring)
| JStr (s : jsstring)
| JArr (items : list jsvalue)
| JObj (members : list (jsstring * jsvalue)).

(** Truthiness of optional fields. *)
Definition truthy_str (o : option jsstring) : bool :=
  match o with Some (_ :: _) => true | _ => false end.
Definition truthy_num (o : option Z) : bool :=
  match o with Some n => negb (n =? 0) | None => false end.
Definition truthy_bool (o : option bool) : bool :=
  match o with Some b => b | None => false end.

(** [a || b] on an optional string, an optional number, an optional flag. *)
Definition or_str (o : option jsstring) (d : jsstring) : jsstring :=
  match o with Some (c :: s) => c :: s | _ => d end.
Definition or_num (o : option Z) (d : Z) : Z :=
  match o with Some n => if n =? 0 then d else n | None => d end.
Definition or_bool (o : option bool) (d : bool) : bool :=
  match o with Some true => true | _ => d end.

(** ** [JSON.stringify] and [JSON.parse] *)

Module Json.

Local Open Scope N_scope.

(** *** Printing *)

Definition hex_digit (d : N) : N := if d <? 10 then 48 + d else 87 + d.

Definition hex4 (c : N) : jsstring :=
  [hex_digit (c / 4096 mod 16); hex_digit (c / 256 mod 16);
   hex_digit (c / 16 mod 16); hex_digit (c mod 16)].

(** [\uXXXX], in lower case as [JSON.stringify] writes it. *)
Definition unicode_escape (c : N) : jsstring := 92 :: 117 :: hex4 c.

(** One code unit that is not a surrogate, inside a quoted string. *)
Definition quote_unit (c : N) : jsstring :=
  if c =? 8 then js "\b"
  else if c =? 9 then js "\t"
  else if c =? 10 then js "\n"
  else if c =? 12 then js "\f"
  else if c =? 13 then js "\r"
  else if c =? 34 then [92; 34]
  else if c =? 92 then [92; 92]
  else if c <? 32 then unicode_escape c
  else [c].

(** A surrogate pair is written as it is, a lone surrogate is escaped. *)
Fixpoint quote_units (s : jsstring) : jsstring :=
  match s with
  | [] => []
  | c :: s' =>
      if is_high_surrogate c then
        match s' with
        | d :: s'' =>
            if is_low_surrogate d then c :: d :: quote_units s''
            else unicode_escape c ++ quote_units s'
        | [] => unicode_escape c
        end
      else if is_low_surrogate c then unicode_escape c ++ quote_units s'
      else quote_unit c ++ quote_units s'
  end.

Definition quote (s : jsstring) : jsstring := 34 :: quote_units s ++ [34].

Fixpoint uint_units (d : Decimal.uint) : jsstring :=
  match d with
  | Nil => []
  | D0 d => 48 :: uint_units d
  | D1 d => 49 :: uint_units d
  | D2 d => 50 :: uint_units d
  | D3 d => 51 :: uint_units d
  | D4 d => 52 :: uint_units d
  | D5 d => 53 :: uint_units d
  | D6 d => 54 :: uint_units d
  | D7 d => 55 :: uint_units d
  | D8 d => 56 :: uint_units d
  | D9 d => 57 :: uint_units d
  end.

(** [String(n)] for an integer, in plain digits. *)
Definition number_to_string (n : Z) : jsstring :=
  (if (n <? 0)%Z then [45] else []) ++ uint_units (N.to_uint (Z.abs_N n)).

Definition member_text (text : jsvalue -> jsstring) (m : jsstring * jsvalue) : jsstring :=
  quote (fst m) ++ 58 :: text (snd m).

(** [JSON.stringify(v)], without indentation. *)
Fixpoint stringify (v : jsvalue) : jsstring :=
  match v with
  | JNull => js "null"
  | JBool true => js "true"
  | JBool false => js "false"
  | JNum n => number_to_string n
  | JNumLit t => t
  | JStr s => quote s
  | JArr l => 91 :: join [44] (List.map stringify l) ++ [93]
  | JObj ms => 123 :: join [44] (List.map (member_text stringify) ms) ++ [125]
  end.

(** *** Parsing *)

Definition is_ws (c : N) : bool :=
  (c =? 32) || (c =? 9) || (c =? 10) || (c =? 13).

Fixpoint skip_ws (s : jsstring) : jsstring :=
  match s with
  | c :: s' => if is_ws c then skip_ws s' else s
  | [] => []
  end.

Definition is_digit (c : N) : bool := (48 <=? c) && (c <=? 57).

Definition hex_val (c : N) : option N :=
  if is_digit c then Some (c - 48)
  else if (97 <=? c) && (c <=? 102) then Some (c - 87)
  else if (65 <=? c) && (c <=? 70) then Some (c - 55)
  else None.

Definition unescape (e : N) : option N :=
  if e =? 34 then Some 34
  else if e =? 92 then Some 92
  else if e =? 47 then Some 47
  else if e =? 98 then Some 8
  else if e =? 102 then Some 12
  else if e =? 110 then Some 10
  else if e =? 114 then Some 13
  else if e =? 116 then Some 9
  else None.

(** The characters of a string literal after its opening quote: the string
    and what follows the closing quote. *)
Fixpoint parse_string_body (s : jsstring) : option (jsstring * jsstring) :=
  match s with
  | [] => None
  | c :: s' =>
      if c =? 34 then Some ([], s')
      else if c =? 92 then
        match s' with
        | [] => None
        | e :: s'' =>
            if e =? 117 then
              match s'' with
              | h1 :: h2 :: h3 :: h4 :: s3 =>
                  match hex_val h1, hex_val h2, hex_val h3, hex_val h4 with
                  | Some a, Some b, Some x, Some d =>
                      match parse_string_body s3 with
                      | Some (str, r) => Some ((a * 4096 + b * 256 + x * 16 + d) :: str, r)
                      | None => None
                      end
                  | _, _, _, _ => None
                  end
              | _ => None
              end
            else
              match unescape e with
              | Some u =>
                  match parse_string_body s'' with
                  | Some (str, r) => Some (u :: str, r)
                  | None => None
                  end
              | None => None
              end
        end
      else if c <? 32 then None
      else
        match parse_string_body s' with
        | Some (str, r) => Some (c :: str, r)
        | None => None
        end
  end.

Fixpoint take_digits (s : jsstring) : jsstring * jsstring :=
  match s with
  | c :: s' =>
      if is_digit c then let (d, r) := take_digits s' in (c :: d, r)
      else ([], s)
  | [] => ([], [])
  end.

Definition digit_uint (c : N) (d : Decimal.uint) : Decimal.uint :=
  if c =? 48 then D0 d else if c =? 49 then D1 d else if c =? 50 then D2 d
  else if c =? 51 then D3 d else if c =? 52 then D4 d else if c =? 53 then D5 d
  else if c =? 54 then D6 d else if c =? 55 then D7 d else if c =? 56 then D8 d
  else D9 d.

Fixpoint units_uint (s : jsstring) : Decimal.uint :=
  match s with
  | [] => Nil
  | c :: s' => digit_uint c (units_uint s')
  end.

(** The optional fraction of a number: [None] is a syntax error. *)
Definition take_fraction (s : jsstring) : option (bool * jsstring) :=
  match s with
  | c :: s' =>
      if c =? 46 then
        match take_digits s' with
        | ([], _) => None
        | (_, r) => Some (true, r)
        end
      else Some (false, s)
  | [] => Some (false, s)
  end.

(** The optional exponent of a number: [None] is a syntax error. *)
Definition take_exponent (s : jsstring) : option (bool * jsstring) :=
  match s with
  | c :: s' =>
      if (c =? 101) || (c =? 69) then
        let s'' := match s' with
                   | x :: t => if (x =? 43) || (x =? 45) then t else s'
                   | [] => s'
                   end in
        match take_digits s'' with
        | ([], _) => None
        | (_, r) => Some (true, r)
        end
      else Some (false, s)
  | [] => Some (false, s)
  end.

(** A number: an integer literal is a [JNum], a literal with a fraction or
    an exponent is kept as its text. *)
Definition parse_number (s : jsstring) : option (jsvalue * jsstring) :=
  let (neg, s1) := match s with
                   | c :: s' => if c =? 45 then (true, s') else (false, s)
                   | [] => (false, s)
                   end in
  match take_digits s1 with
  | ([], _) => None
  | (d :: ds, s2) =>
      if (d =? 48) && negb (match ds with [] => true | _ => false end) then None
      else
        match take_fraction s2 with
        | None => None
        | Some (has_frac, s3) =>
            match take_exponent s3 with
            | None => None
            | Some (has_exp, s4) =>
                if has_frac || has_exp
                then Some (JNumLit (take (length s - length s4) s), s4)
                else
                  let m := Z.of_N (N.of_uint (units_uint (d :: ds))) in
                  Some (JNum (if neg then - m else m)%Z, s4)
            end
        end
  end.

(** [obj[k] = v] on the list of own properties: a repeated key keeps its
    place and takes the later value. *)
Fixpoint obj_set (k : jsstring) (v : jsvalue) (ms : list (jsstring * jsvalue))
  : list (jsstring * jsvalue) :=
  match ms with
  | [] => [(k, v)]
  | (k', v') :: ms' =>
      if decide (k' = k) then (k', v) :: ms' else (k', v') :: obj_set k v ms'
  end.

Definition obj_of_members (ms : list (jsstring * jsvalue)) : list (jsstring * jsvalue) :=
  fold_left (fun acc m => obj_set (fst m) (snd m) acc) ms [].

Fixpoint parse_value (fuel : nat) (s : jsstring) : option (jsvalue * jsstring) :=
  match fuel with
  | O => None
  | S f =>
      match skip_ws s with
      | [] => None
      | c :: s' =>
          if c =? 123 then
            match skip_ws s' with
            | [] => None
            | x :: r =>
                if x =? 125 then Some (JObj [], r)
                else
                  match parse_members f s' with
                  | Some (ms, r') => Some (JObj (obj_of_members ms), r')
                  | None => None
                  end
            end
          else if c =? 91 then
            match skip_ws s' with
            | [] => None
            | x :: r =>
                if x =? 93 then Some (JArr [], r)
                else
                  match parse_elements f s' with
                  | Some (vs, r') => Some (JArr vs, r')
                  | None => None
                  end
            end
          else if c =? 34 then
            match parse_string_body s' with
            | Some (str, r) => Some (JStr str, r)
            | None => None
            end
          else if (c =? 45) || is_digit c then parse_number (c :: s')
          else if starts_with (js "true") (c :: s') then Some (JBool true, drop 4 (c :: s'))
          else if starts_with (js "false") (c :: s') then Some (JBool false, drop 5 (c :: s'))
          else if starts_with (js "null") (c :: s') then Some (JNull, drop 4 (c :: s'))
          else None
      end
  end
with parse_elements (fuel : nat) (s : jsstring) : option (list jsvalue * jsstring) :=
  match fuel with
  | O => None
  | S f =>
      match parse_value f s with
      | None => None
      | Some (v, r) =>
          match skip_ws r with
          | [] => None
          | c :: r' =>
              if c =? 44 then
                match parse_elements f r' with
                | Some (vs, r'') => Some (v :: vs, r'')
                | None => None
                end
              else if c =? 93 then Some ([v], r')
              else None
          end
      end
  end
with parse_members (fuel : nat) (s : jsstring)
  : option (list (jsstring * jsvalue) * jsstring) :=
  match fuel with
  | O => None
  | S f =>
      match skip_ws s with
      | [] => None
      | q :: s1 =>
          if q =? 34 then
            match parse_string_body s1 with
            | None => None
            | Some (k, s2) =>
                match skip_ws s2 with
                | [] => None
                | colon :: s3 =>
                    if colon =? 58 then
                      match parse_value f s3 with
                      | None => None
                      | Some (v, r) =>
                          match skip_ws r with
                          | [] => None
                          | c :: r' =>
                              if c =? 44 then
                                match parse_members f r' with
                                | Some (ms, r'') => Some ((k, v) :: ms, r'')
                                | None => None
                                end
                              else if c =? 125 then Some ([(k, v)], r')
                              else None
                          end
                      end
                    else None
                end
            end
          else None
      end
  end.

(** The values that [JSON.stringify] writes in full and that compare by
    [=]: no number kept as text, and no key twice in an object. *)
Fixpoint json_value (v : jsvalue) : bool :=
  match v with
  | JNumLit _ => false
  | JArr l => forallb json_value l
  | JObj ms =>
      bool_decide (NoDup (List.map fst ms)) && forallb (fun m => json_value (snd m)) ms
  | _ => true
  end.

(** The calls of the parser that reading a value back takes. *)
Fixpoint weight (v : jsvalue) : nat :=
  match v with
  | JArr l => S (list_sum (List.map (fun x => S (weight x)) l))
  | JObj ms => S (list_sum (List.map (fun m => S (weight (snd m))) ms))
  | _ => 1%nat
  end.

(** [JSON.parse(s)]: [None] stands for the [SyntaxError] it throws.  Every
    call of the parser consumes input or follows one that does, so twice the
    length of the text is fuel enough. *)
Definition JSON_parse (s : jsstring) : option jsvalue :=
  match parse_value (2 * length s + 2) s with
  | Some (v, r) => match skip_ws r with [] => Some v | _ => None end
  | None => None
  end.

End Json.
Export Json.

(** ** Errors and outcomes *)

(** [new Error(message)] *)
Inductive js_error : Type := Error (message : jsstring).

(** What a call produces: a value, or a [throw]. *)
Inductive outcome (A : Type) : Type :=
| Return (a : A)
| Throw (e : js_error).
Arguments Return {A} a.
Arguments Throw {A} e.

(** ** [src/utils.ts] *)

Module Utils.

(** [if (part) parts.push(part)] *)
Definition pushed (part : option jsstring) : list jsstring :=
  match part with
  | Some (c :: s) => [c :: s]
  | _ => []
  end.

Definition generateCacheKey (key : jsstring) (namespace keyPrefix : option jsstring)
  : jsstring :=
  join (js ":") (pushed keyPrefix ++ pushed namespace ++ [key]).

Definition generateScanPattern (pattern : jsstring) (namespace keyPrefix : option jsstring)
  : jsstring :=
  join (js ":") (pushed keyPrefix ++ pushed namespace ++ [pattern]).

(** [serialize]: a string passes unchanged, anything else goes through
    [JSON.stringify], which does not throw on the values of the model. *)
Definition serialize (value : jsvalue) : jsstring :=
  match value with
  | JStr s => s
  | _ => stringify value
  end.

(** [deserialize]: the parsed value, or the string itself when
    [JSON.parse] throws. *)
Definition deserialize (value : jsstring) : jsvalue :=
  match JSON_parse value with
  | Some v => v
  | None => JStr value
  end.

Definition shouldCompress_at (data : jsstring) (threshold : Z) : bool :=
  threshold <? utf8_byteLength data.

(** [shouldCompress(data)] with the default threshold. *)
Definition shouldCompress (data : jsstring) : bool := shouldCompress_at data 1024.

(** [parseTtl] on the declared type of [options.ttl], a number or
    [undefined]: the number itself. *)
Definition parseTtl (ttl : option Z) : option Z := ttl.

Definition is_invalid_char (c : N) : bool :=
  ((c =? 13) || (c =? 10) || (c =? 9) || (c =? 0))%N.

Definition validateKey (key : jsstring) : outcome unit :=
  match key with
  | [] => Throw (Error (js "Cache key must be a non-empty string"))
  | _ :: _ =>
      if (250 <? length key)%nat
      then Throw (Error (js "Cache key is too long (max 250 characters)"))
      else if existsb is_invalid_char key
      then Throw (Error (js "Cache key contains invalid characters"))
      else Return tt
  end.

(** [StrWhiteSpaceChar]: the white space and the line terminators that
    [parseInt] skips in front of a number. *)
Definition is_str_ws (c : N) : bool :=
  ((c =? 9) || (c =? 10) || (c =? 11) || (c =? 12) || (c =? 13) || (c =? 32)
   || (c =? 160) || (c =? 5760) || ((8192 <=? c) && (c <=? 8202))
   || (c =? 8232) || (c =? 8233) || (c =? 8239) || (c =? 8287) || (c =? 12288)
   || (c =? 65279))%N.

Fixpoint trim_start (s : jsstring) : jsstring :=
  match s with
  | c :: s' => if is_str_ws c then trim_start s' else s
  | [] => []
  end.

(** [parseInt(s, 10)]: an optional sign and the digits that follow it, what
    comes after them being ignored; [None] is [NaN]. *)
Definition parseInt (s : jsstring) : option Z :=
  let s := trim_start s in
  let (negative, s) :=
    match s with
    | c :: s' =>
        if (c =? 45)%N then (true, s')
        else if (c =? 43)%N then (false, s')
        else (false, s)
    | [] => (false, s)
    end in
  match take_digits s with
  | ([], _) => None
  | (digits, _) =>
      let n := Z.of_N (N.of_uint (units_uint digits)) in
      Some (if negative then - n else n)
  end.

(** What a caller may pass as a time to live, the declared type apart: a
    value of another type is given by its [typeof]. *)
Inductive ttl_argument : Type :=
| TtlUndefined
| TtlNull
| TtlNumber (n : Z)
| TtlString (s : jsstring)
| TtlOther (type : jsstring).

(** [parseTtl] on any argument. *)
Definition parseTtl_of (ttl : ttl_argument) : outcome (option Z) :=
  match ttl with
  | TtlUndefined | TtlNull => Return None
  | TtlNumber n => Return (Some n)
  | TtlString s =>
      match parseInt s with
      | None => Throw (Error (js "Invalid TTL value: " ++ s))
      | Some parsed => Return (Some parsed)
      end
  | TtlOther type => Throw (Error (js "Invalid TTL type: " ++ type))
  end.

(** What the promise of [retry] settles with: [throw lastError] rejects
    with [undefined] when no attempt has failed. *)
Inductive settlement (A : Type) : Type :=
| Fulfilled (a : A)
| Rejected (e : js_error)
| RejectedUndefined.
Arguments Fulfilled {A} a.
Arguments Rejected {A} e.
Arguments RejectedUndefined {A}.

Definition throw_lastError {A} (lastError : option js_error) : settlement A :=
  match lastError with
  | Some e => Rejected e
  | None => RejectedUndefined
  end.

(** The [for] loop of [retry] from its round [i] on.  [fn] is given by the
    outcome of each of its calls, the first being call 0; [waited] are the
    delays that [delay] has been called with so far.  A round leaves the
    loop or goes to the next one, so [attempts] rounds are fuel enough. *)
Fixpoint retry_from {A} (fn : nat -> outcome A) (attempts baseDelay : Z)
    (fuel i : nat) (lastError : option js_error) (waited : list Z)
  : settlement A * list Z :=
  match fuel with
  | O => (throw_lastError lastError, waited)
  | S fuel' =>
      if Z.of_nat i <? attempts then
        match fn i with
        | Return a => (Fulfilled a, waited)
        | Throw e =>
            if Z.of_nat i =? attempts - 1 then (throw_lastError (Some e), waited)
            else
              let delayMs := baseDelay * 2 ^ Z.of_nat i in
              retry_from fn attempts baseDelay fuel' (S i) (Some e) (waited ++ [delayMs])
        end
      else (throw_lastError lastError, waited)
  end.

(** [retry(fn, attempts, baseDelay)]: what it settles with, and the delays
    it has waited. *)
Definition retry {A} (fn : nat -> outcome A) (attempts baseDelay : Z)
  : settlement A * list Z :=
  retry_from fn attempts baseDelay (Z.to_nat attempts) 0 None [].

End Utils.
Export Utils.

(** ** The platform under the cache

    [zlib], [Buffer] and the way the Redis client turns the arguments of
    [HSET] and the reply of [GET] into strings are not code of this
    repository; the cache is written against this interface. *)

Class Platform : Type := {
  (** The type of [Buffer]. *)
  Buffer : Type;
  (** [gzip(Buffer.from(data, 'utf8'))] *)
  gzip_utf8 : jsstring -> Buffer;
  (** [gunzip(data)] then [toString('utf8')], or the error of [gunzip]. *)
  gunzip_utf8 : Buffer -> outcome jsstring;
  (** [Buffer.from(value, 'binary')] *)
  Buffer_from_binary : jsstring -> Buffer;
  (** The string [GET] replies with for a value that was written as a
      [Buffer]. *)
  reply_of_Buffer : Buffer -> jsstring;
  (** The hash field the client writes for an array of tags. *)
  field_of_tags : list jsstring -> jsstring;
}.

(** [compress] and [decompress] of [src/utils.ts]; [gzip] accepts every
    input, so the [catch] of [compress] is never entered. *)
Definition compress `{Platform} (data : jsstring) : outcome Buffer :=
  Return (gzip_utf8 data).

Definition decompress `{Platform} (data : Buffer) : outcome jsstring :=
  match gunzip_utf8 data with
  | Return s => Return s
  | Throw (Error message) =>
      Throw (Error (js "Failed to decompress data: " ++ message))
  end.

(** ** The Redis client *)

Module Redis.

Inductive rvalue : Type :=
| RString (s : jsstring)
| RHash (fields : list (jsstring * jsstring)).

(** A key holds a value and, when it expires, its time to live in seconds. *)
Record rentry : Type := { r_value : rvalue; r_ttl : option Z }.

Inductive set_condition : Type := Always | NX | XX.

Inductive command : Type :=
| SET (key payload : jsstring) (ex : option Z) (cond : set_condition)
| GET (key : jsstring)
| DEL (keys : list jsstring)
| HSET (key : jsstring) (fields : list (jsstring * jsstring))
| HGETALL (key : jsstring)
| EXPIRE (key : jsstring) (seconds : Z)
| SCAN (cursor : nat) (pattern : jsstring) (count : nat).

(** The keyspace of the server and the commands sent so far, latest last. *)
Record client : Type := { keyspace : gmap jsstring rentry; sent : list command }.

Definition send (c : command) (r : client) : client :=
  {| keyspace := keyspace r; sent := sent r ++ [c] |}.

Definition with_keyspace (k : gmap jsstring rentry) (r : client) : client :=
  {| keyspace := k; sent := sent r |}.

Definition wrongtype : js_error :=
  Error (js "WRONGTYPE Operation against a key holding the wrong kind of value").

(** [SET key payload [EX seconds] [NX|XX]]: ['OK'] is [true], [null] is
    [false]. *)
Definition set (key payload : jsstring) (ex : option Z) (cond : set_condition)
    (r : client) : bool * client :=
  let r := send (SET key payload ex cond) r in
  let present := bool_decide (is_Some (keyspace r !! key)) in
  let allowed := match cond with
                 | Always => true
                 | NX => negb present
                 | XX => present
                 end in
  if allowed
  then (true, with_keyspace
                (<[key := {| r_value := RString payload; r_ttl := ex |}]> (keyspace r)) r)
  else (false, r).

Definition get (key : jsstring) (r : client) : outcome (option jsstring) * client :=
  let r := send (GET key) r in
  match keyspace r !! key with
  | None => (Return None, r)
  | Some {| r_value := RString s |} => (Return (Some s), r)
  | Some {| r_value := RHash _ |} => (Throw wrongtype, r)
  end.

(** [DEL key ...]: the number of keys that were removed. *)
Fixpoint del_keys (keys : list jsstring) (k : gmap jsstring rentry)
  : Z * gmap jsstring rentry :=
  match keys with
  | [] => (0, k)
  | key :: keys' =>
      match k !! key with
      | Some _ => let (n, k') := del_keys keys' (delete key k) in (1 + n, k')
      | None => del_keys keys' k
      end
  end.

Definition del (keys : list jsstring) (r : client) : Z * client :=
  let r := send (DEL keys) r in
  let (n, k) := del_keys keys (keyspace r) in
  (n, with_keyspace k r).

(** [fields[name] = value] *)
Fixpoint field_set (name value : jsstring) (fields : list (jsstring * jsstring))
  : list (jsstring * jsstring) :=
  match fields with
  | [] => [(name, value)]
  | (n, v) :: fields' =>
      if decide (n = name) then (n, value) :: fields'
      else (n, v) :: field_set name value fields'
  end.

Definition fields_set (new old : list (jsstring * jsstring)) : list (jsstring * jsstring) :=
  fold_left (fun acc f => field_set (fst f) (snd f) acc) new old.

(** [HSET key field value ...]: a new hash has no time to live, an old one
    keeps its own. *)
Definition hset (key : jsstring) (fields : list (jsstring * jsstring)) (r : client)
  : outcome unit * client :=
  let r := send (HSET key fields) r in
  match keyspace r !! key with
  | None =>
      (Return tt,
       with_keyspace
         (<[key := {| r_value := RHash (fields_set fields []); r_ttl := None |}]>
            (keyspace r)) r)
  | Some {| r_value := RHash old; r_ttl := ttl |} =>
      (Return tt,
       with_keyspace
         (<[key := {| r_value := RHash (fields_set fields old); r_ttl := ttl |}]>
            (keyspace r)) r)
  | Some {| r_value := RString _ |} => (Throw wrongtype, r)
  end.

(** [HGETALL key]: the empty object for a key that does not exist. *)
Definition hgetall (key : jsstring) (r : client)
  : outcome (list (jsstring * jsstring)) * client :=
  let r := send (HGETALL key) r in
  match keyspace r !! key with
  | None => (Return [], r)
  | Some {| r_value := RHash fields |} => (Return fields, r)
  | Some {| r_value := RString _ |} => (Throw wrongtype, r)
  end.

(** [EXPIRE key seconds]: a time to live that is not positive removes the
    key. *)
Definition expire (key : jsstring) (seconds : Z) (r : client) : bool * client :=
  let r := send (EXPIRE key seconds) r in
  match keyspace r !! key with
  | None => (false, r)
  | Some e =>
      if 0 <? seconds
      then (true, with_keyspace
                    (<[key := {| r_value := r_value e; r_ttl := Some seconds |}]>
                       (keyspace r)) r)
      else (true, with_keyspace (delete key (keyspace r)) r)
  end.

(** The patterns of [MATCH]: [*] and [?], a backslash before a literal
    character; a character class is not interpreted. *)
Fixpoint glob_match (fuel : nat) (p s : jsstring) : bool :=
  match fuel with
  | O => false
  | S f =>
      match p with
      | [] => match s with [] => true | _ => false end
      | c :: p' =>
          if (c =? 42)%N then
            glob_match f p' s ||
            match s with
            | [] => false
            | _ :: s' => glob_match f p s'
            end
          else if (c =? 63)%N then
            match s with
            | [] => false
            | _ :: s' => glob_match f p' s'
            end
          else if (c =? 92)%N then
            match p', s with
            | e :: p'', x :: s' => (e =? x)%N && glob_match f p'' s'
            | _, _ => false
            end
          else
            match s with
            | [] => false
            | x :: s' => (c =? x)%N && glob_match f p' s'
            end
      end
  end.

Definition matches (pattern key : jsstring) : bool :=
  glob_match (S (length pattern + length key)) pattern key.

(** [SCAN cursor MATCH pattern COUNT count]: the keys are visited in a
    fixed order, [count] of them a call, and those that match are
    returned; the cursor after the last page is [0]. *)
Definition scan (cursor : nat) (pattern : jsstring) (count : nat) (r : client)
  : (nat * list jsstring) * client :=
  let r := send (SCAN cursor pattern count) r in
  let keys := (map_to_list (keyspace r)).*1 in
  let page := List.filter (matches pattern) (take count (drop cursor keys)) in
  let next := if (cursor + count <? length keys)%nat then (cursor + count)%nat else O in
  ((next, page), r).

End Redis.

(** ** [src/types.ts] *)

Record SetOptions : Type := {
  so_ttl : option Z;
  so_namespace : option jsstring;
  so_compress : option bool;
  so_serialize : option (jsvalue -> jsstring);
  so_deserialize : option (jsstring -> jsvalue);
  so_tags : option (list jsstring);
  so_nx : option bool;
  so_xx : option bool;
}.

Record GetOptions : Type := {
  go_ttl : option Z;
  go_namespace : option jsstring;
  go_compress : option bool;
  go_serialize : option (jsvalue -> jsstring);
  go_deserialize : option (jsstring -> jsvalue);
  go_tags : option (list jsstring);
  go_defaultValue : option jsvalue;
  go_refreshTtl : option bool;
}.

Record DelOptions : Type := {
  do_ttl : option Z;
  do_namespace : option jsstring;
  do_compress : option bool;
  do_serialize : option (jsvalue -> jsstring);
  do_deserialize : option (jsstring -> jsvalue);
  do_tags : option (list jsstring);
  do_pattern : option jsstring;
}.

Record ClearOptions : Type := {
  co_namespace : option jsstring;
  co_tags : option (list jsstring);
  co_pattern : option jsstring;
}.

(** What the routine of a task does once it is called: it resolves or
    rejects after some milliseconds, or it never settles.  The calls it
    makes to the cache meanwhile are not part of the model. *)
Inductive task_body : Type :=
| Resolves (after : Z)
| Rejects (after : Z) (e : js_error)
| NeverSettles.

Record WarmupTask : Type := {
  task_id : jsstring;
  task_name : jsstring;
  task_description : option jsstring;
  task_execute : task_body;
  task_schedule : option jsstring;
  task_priority : option Z;
  task_timeout : option Z;
  task_retry : option bool;
  task_retryAttempts : option Z;
  task_retryDelay : option Z;
}.

Record QueueWarmupOptions : Type := {
  qo_delay : option Z;
  qo_priority : option Z;
  qo_attempts : option Z;
}.

Record CacheConfig : Type := {
  cfg_redis : option Redis.client;
  cfg_redisOptions : option (list (jsstring * jsvalue));
  cfg_defaultTtl : option Z;
  cfg_defaultNamespace : option jsstring;
  cfg_enableCompression : option bool;
  cfg_maxMemory : option Z;
  cfg_keyPrefix : option jsstring;
  cfg_enableWarmup : option bool;
  cfg_warmupInterval : option Z;
}.

(** [Required<CacheConfig>], the connection apart: it is the [redis] field
    of the cache. *)
Record Config : Type := {
  redisOptions : list (jsstring * jsvalue);
  defaultTtl : Z;
  defaultNamespace : jsstring;
  enableCompression : bool;
  maxMemory : Z;
  keyPrefix : jsstring;
  enableWarmup : bool;
  warmupInterval : Z;
}.

Record CacheStats : Type := {
  hits : Z;
  misses : Z;
  sets : Z;
  deletes : Z;
  errors : Z;
}.

Inductive CacheEventType : Type :=
| hit | miss | set_ | delete_ | clear_ | error_ | warmup.

Inductive warmup_status : Type :=
| registered | unregistered | queued | started | completed | failed.

(** The [data] of an event.  The clock is not modelled: an event has no
    timestamp and a warmup event no duration. *)
Inductive event_data : Type :=
| NoData
| ErrorData (error : js_error)
| SetData (value : jsvalue) (options : SetOptions)
| HitData (value : jsvalue)
| ClearData (deleted : Z) (pattern : jsstring)
| WarmupData (task : option WarmupTask) (status : warmup_status)
    (error : option js_error) (options : option QueueWarmupOptions).

Record CacheEvent : Type := {
  ev_type : CacheEventType;
  ev_key : option jsstring;
  ev_namespace : option jsstring;
  ev_data : event_data;
}.

(** ** The [Cache] class *)

(** The fields of an instance, the events it has emitted (latest last), the
    ids of the tasks whose routine has been called, and what it has written
    with [console.error].  Listeners are not part of the model: an event is
    recorded once for the two [emit]s of [emitEvent], and
    [setupRedisEventHandlers], which only registers listeners on the
    client, changes nothing. *)
Record Cache : Type := {
  redis : Redis.client;
  config : Config;
  stats : CacheStats;
  warmupTasks : gmap jsstring WarmupTask;
  warmupQueue : list WarmupTask;
  warmupTimer : option Z;
  isProcessingWarmup : bool;
  emitted : list CacheEvent;
  executed : list jsstring;
  console_errors : list (jsstring * js_error);
}.

Definition with_redis (r : Redis.client) (c : Cache) : Cache :=
  {| redis := r; config := config c; stats := stats c;
     warmupTasks := warmupTasks c; warmupQueue := warmupQueue c;
     warmupTimer := warmupTimer c; isProcessingWarmup := isProcessingWarmup c;
     emitted := emitted c; executed := executed c;
     console_errors := console_errors c |}.

Definition with_stats (s : CacheStats) (c : Cache) : Cache :=
  {| redis := redis c; config := config c; stats := s;
     warmupTasks := warmupTasks c; warmupQueue := warmupQueue c;
     warmupTimer := warmupTimer c; isProcessingWarmup := isProcessingWarmup c;
     emitted := emitted c; executed := executed c;
     console_errors := console_errors c |}.

Definition with_warmupTasks (t : gmap jsstring WarmupTask) (c : Cache) : Cache :=
  {| redis := redis c; config := config c; stats := stats c;
     warmupTasks := t; warmupQueue := warmupQueue c;
     warmupTimer := warmupTimer c; isProcessingWarmup := isProcessingWarmup c;
     emitted := emitted c; executed := executed c;
     console_errors := console_errors c |}.

Definition with_warmupQueue (q : list WarmupTask) (c : Cache) : Cache :=
  {| redis := redis c; config := config c; stats := stats c;
     warmupTasks := warmupTasks c; warmupQueue := q;
     warmupTimer := warmupTimer c; isProcessingWarmup := isProcessingWarmup c;
     emitted := emitted c; executed := executed c;
     console_errors := console_errors c |}.

Definition with_warmupTimer (t : option Z) (c : Cache) : Cache :=
  {| redis := redis c; config := config c; stats := stats c;
     warmupTasks := warmupTasks c; warmupQueue := warmupQueue c;
     warmupTimer := t; isProcessingWarmup := isProcessingWarmup c;
     emitted := emitted c; executed := executed c;
     console_errors := console_errors c |}.

Definition with_isProcessingWarmup (b : bool) (c : Cache) : Cache :=
  {| redis := redis c; config := config c; stats := stats c;
     warmupTasks := warmupTasks c; warmupQueue := warmupQueue c;
     warmupTimer := warmupTimer c; isProcessingWarmup := b;
     emitted := emitted c; executed := executed c;
     console_errors := console_errors c |}.

Definition with_emitted (e : list CacheEvent) (c : Cache) : Cache :=
  {| redis := redis c; config := config c; stats := stats c;
     warmupTasks := warmupTasks c; warmupQueue := warmupQueue c;
     warmupTimer := warmupTimer c; isProcessingWarmup := isProcessingWarmup c;
     emitted := e; executed := executed c;
     console_errors := console_errors c |}.

Definition with_executed (x : list jsstring) (c : Cache) : Cache :=
  {| redis := redis c; config := config c; stats := stats c;
     warmupTasks := warmupTasks c; warmupQueue := warmupQueue c;
     warmupTimer := warmupTimer c; isProcessingWarmup := isProcessingWarmup c;
     emitted := emitted c; executed := x;
     console_errors := console_errors c |}.

Definition with_console_errors (l : list (jsstring * js_error)) (c : Cache) : Cache :=
  {| redis := redis c; config := config c; stats := stats c;
     warmupTasks := warmupTasks c; warmupQueue := warmupQueue c;
     warmupTimer := warmupTimer c; isProcessingWarmup := isProcessingWarmup c;
     emitted := emitted c; executed := executed c;
     console_errors := l |}.

(** *** Methods as state transformers *)

Definition M (A : Type) : Type := Cache -> outcome A * Cache.

Definition ret {A} (a : A) : M A := fun c => (Return a, c).

Definition throw {A} (e : js_error) : M A := fun c => (Throw e, c).

Definition bind {A B} (k : A -> M B) (m : M A) : M B :=
  fun c =>
    match m c with
    | (Return a, c') => k a c'
    | (Throw e, c') => (Throw e, c')
    end.

#[global] Instance M_ret : MRet M := @ret.
#[global] Instance M_bind : MBind M := @bind.

(** [try { m } catch (error) { handler error }] *)
Definition try_catch {A} (m : M A) (handler : js_error -> M A) : M A :=
  fun c =>
    match m c with
    | (Return a, c') => (Return a, c')
    | (Throw e, c') => handler e c'
    end.

Definition lift {A} (o : outcome A) : M A := fun c => (o, c).

Definition update (f : Cache -> Cache) : M unit := fun c => (Return tt, f c).

(** Reading a field of [this]. *)
Definition this {A} (field : Cache -> A) : M A := fun c => (Return (field c), c).

(** A command whose reply is a value. *)
Definition command {A} (f : Redis.client -> A * Redis.client) : M A :=
  fun c => let (a, r) := f (redis c) in (Return a, with_redis r c).

(** A command that Redis may refuse. *)
Definition command_try {A} (f : Redis.client -> outcome A * Redis.client) : M A :=
  fun c => let (o, r) := f (redis c) in (o, with_redis r c).

(** An [async] call that awaits a routine either settles, with an outcome
    and a state, or stays suspended at the [await] in the state it reached. *)
Inductive async (A : Type) : Type :=
| Settled (o : outcome A) (c : Cache)
| Suspended (c : Cache).
Arguments Settled {A} o c.
Arguments Suspended {A} c.

Section CacheMethods.

Context `{Platform}.

(** The event object of [emitEvent]: a key or a namespace that is falsy is
    left out. *)
Definition event_of (type : CacheEventType) (key namespace : option jsstring)
    (data : event_data) : CacheEvent :=
  {| ev_type := type;
     ev_key := if truthy_str key then key else None;
     ev_namespace := if truthy_str namespace then namespace else None;
     ev_data := data |}.

Definition emitEvent (type : CacheEventType) (key namespace : option jsstring)
    (data : event_data) : M unit :=
  update (fun c => with_emitted (emitted c ++ [event_of type key namespace data]) c).

Definition startWarmupProcessor (c : Cache) : Cache :=
  match warmupTimer c with
  | Some _ => c
  | None => with_warmupTimer (Some (warmupInterval (config c))) c
  end.

Definition stopWarmupProcessor (c : Cache) : Cache :=
  match warmupTimer c with
  | Some _ => with_warmupTimer None c
  | None => c
  end.

(** [new Cache(config)]; [server] is what [new Redis(...)] connects to when
    the configuration brings no client. *)
Definition constructor (cfg : CacheConfig) (server : Redis.client) : Cache :=
  let c :=
    {| redis := match cfg_redis cfg with Some r => r | None => server end;
       config :=
         {| redisOptions := match cfg_redisOptions cfg with Some o => o | None => [] end;
            defaultTtl := or_num (cfg_defaultTtl cfg) 3600;
            defaultNamespace := or_str (cfg_defaultNamespace cfg) (js "cache");
            enableCompression := or_bool (cfg_enableCompression cfg) true;
            maxMemory := or_num (cfg_maxMemory cfg) (100 * 1024 * 1024);
            keyPrefix := or_str (cfg_keyPrefix cfg) (js "frache");
            enableWarmup := or_bool (cfg_enableWarmup cfg) true;
            warmupInterval := or_num (cfg_warmupInterval cfg) 60000 |};
       stats := {| hits := 0; misses := 0; sets := 0; deletes := 0; errors := 0 |};
       warmupTasks := ∅;
       warmupQueue := [];
       warmupTimer := None;
       isProcessingWarmup := false;
       emitted := [];
       executed := [];
       console_errors := [] |} in
  if enableWarmup (config c) then startWarmupProcessor c else c.

Definition getStats (c : Cache) : CacheStats := stats c.

Definition count_set : M unit :=
  update (fun c => with_stats
    {| hits := hits (stats c); misses := misses (stats c); sets := sets (stats c) + 1;
       deletes := deletes (stats c); errors := errors (stats c) |} c).

Definition count_hit : M unit :=
  update (fun c => with_stats
    {| hits := hits (stats c) + 1; misses := misses (stats c); sets := sets (stats c);
       deletes := deletes (stats c); errors := errors (stats c) |} c).

Definition count_miss : M unit :=
  update (fun c => with_stats
    {| hits := hits (stats c); misses := misses (stats c) + 1; sets := sets (stats c);
       deletes := deletes (stats c); errors := errors (stats c) |} c).

Definition count_deletes (n : Z) : M unit :=
  update (fun c => with_stats
    {| hits := hits (stats c); misses := misses (stats c); sets := sets (stats c);
       deletes := deletes (stats c) + n; errors := errors (stats c) |} c).

Definition count_error : M unit :=
  update (fun c => with_stats
    {| hits := hits (stats c); misses := misses (stats c); sets := sets (stats c);
       deletes := deletes (stats c); errors := errors (stats c) + 1 |} c).

(** The [catch] block of [set], [get], [del] and [clear]. *)
Definition report {A} (key namespace : option jsstring) (error : js_error) : M A :=
  count_error;;
  emitEvent error_ key namespace (ErrorData error);;
  throw error.

Definition meta_key (cacheKey : jsstring) : jsstring := cacheKey ++ js ":meta".

Definition bool_field (b : bool) : jsstring := if b then js "true" else js "false".

(** The hash that [hset(key, { compressed, tags })] writes. *)
Definition metadata_fields (compressed : bool) (tags : list jsstring)
  : list (jsstring * jsstring) :=
  [(js "compressed", bool_field compressed); (js "tags", field_of_tags tags)].

Definition set_condition_of (options : SetOptions) : Redis.set_condition :=
  if truthy_bool (so_nx options) then Redis.NX
  else if truthy_bool (so_xx options) then Redis.XX
  else Redis.Always.

Definition set (key : jsstring) (value : jsvalue) (options : SetOptions) : M bool :=
  try_catch
    (lift (validateKey key);;
     cfg ← this config;
     let namespace := or_str (so_namespace options) (defaultNamespace cfg) in
     let cacheKey := generateCacheKey key (Some namespace) (Some (keyPrefix cfg)) in
     let ttl := or_num (parseTtl (so_ttl options)) (defaultTtl cfg) in
     let serializedValue :=
       match so_serialize options with
       | Some f => f value
       | None => serialize value
       end in
     let isCompressed :=
       match so_compress options with
       | Some b => b
       | None => enableCompression cfg
       end && shouldCompress serializedValue in
     finalValue ←
       (if isCompressed
        then b ← lift (compress serializedValue); mret (reply_of_Buffer b)
        else mret serializedValue);
     success ← command
       (Redis.set cacheKey finalValue (if 0 <? ttl then Some ttl else None)
          (set_condition_of options));
     if success : bool then
       count_set;;
       (if isCompressed || bool_decide (is_Some (so_tags options)) then
          command_try
            (Redis.hset (meta_key cacheKey)
               (metadata_fields isCompressed (default [] (so_tags options))));;
          if 0 <? ttl
          then command (Redis.expire (meta_key cacheKey) ttl);; mret tt
          else mret tt
        else mret tt);;
       emitEvent set_ (Some key) (Some namespace) (SetData value options);;
       mret true
     else mret false)
    (report (Some key) (so_namespace options)).

(** [fields[name]] *)
Fixpoint field_get (name : jsstring) (fields : list (jsstring * jsstring))
  : option jsstring :=
  match fields with
  | [] => None
  | (n, v) :: fields' => if decide (n = name) then Some v else field_get name fields'
  end.

(** [Promise.all] of two commands: both are sent, the first rejection is
    the rejection of the whole. *)
Definition all2 {A B} (f : Redis.client -> outcome A * Redis.client)
    (g : Redis.client -> outcome B * Redis.client) : M (A * B) :=
  fun c =>
    let (a, r1) := f (redis c) in
    let (b, r2) := g r1 in
    (match a, b with
     | Return x, Return y => Return (x, y)
     | Throw e, _ => Throw e
     | Return _, Throw e => Throw e
     end, with_redis r2 c).

Definition get (key : jsstring) (options : GetOptions) : M jsvalue :=
  try_catch
    (lift (validateKey key);;
     cfg ← this config;
     let namespace := or_str (go_namespace options) (defaultNamespace cfg) in
     let cacheKey := generateCacheKey key (Some namespace) (Some (keyPrefix cfg)) in
     '(value, metadata) ←
       all2 (Redis.get cacheKey) (Redis.hgetall (meta_key cacheKey));
     match value with
     | None =>
         count_miss;;
         emitEvent miss (Some key) (Some namespace) NoData;;
         mret (default JNull (go_defaultValue options))
     | Some value =>
         count_hit;;
         (if truthy_bool (go_refreshTtl options) && truthy_num (go_ttl options) then
            match parseTtl (go_ttl options) with
            | Some ttl =>
                if negb (ttl =? 0) && (0 <? ttl) then
                  command (Redis.expire cacheKey ttl);;
                  match metadata with
                  | _ :: _ => command (Redis.expire (meta_key cacheKey) ttl);; mret tt
                  | [] => mret tt
                  end
                else mret tt
            | None => mret tt
            end
          else mret tt);;
         finalValue ←
           (if bool_decide (field_get (js "compressed") metadata = Some (js "true"))
            then lift (decompress (Buffer_from_binary value))
            else mret value);
         let deserializedValue :=
           match go_deserialize options with
           | Some f => f finalValue
           | None => deserialize finalValue
           end in
         emitEvent hit (Some key) (Some namespace) (HitData deserializedValue);;
         mret deserializedValue
     end)
    (report (Some key) (go_namespace options)).

(** The [do ... while (cursor !== '0')] loop of [deleteByPattern] and
    [clear].  The cursor advances at every call, so one round more than the
    server has keys is fuel enough. *)
Fixpoint scan_keys (fuel : nat) (pattern : jsstring) (cursor : nat)
    (keys : list jsstring) : M (list jsstring) :=
  match fuel with
  | O => mret keys
  | S f =>
      '(next, page) ← command (Redis.scan cursor pattern 100);
      match next with
      | O => mret (keys ++ page)
      | S _ => scan_keys f pattern next (keys ++ page)
      end
  end.

Definition scan_fuel (c : Cache) : nat := S (size (Redis.keyspace (redis c))).

Definition deleteByPattern (pattern namespace : jsstring) : M Z :=
  cfg ← this config;
  let scanPattern := generateScanPattern pattern (Some namespace) (Some (keyPrefix cfg)) in
  fuel ← this scan_fuel;
  keys ← scan_keys fuel scanPattern 0 [];
  match keys with
  | [] => mret 0
  | _ :: _ =>
      let metaKeys := List.map meta_key keys in
      deleted ← command (Redis.del (keys ++ metaKeys));
      count_deletes deleted;;
      mret deleted
  end.

Definition del (key : jsstring) (options : DelOptions) : M Z :=
  try_catch
    (lift (validateKey key);;
     cfg ← this config;
     let namespace := or_str (do_namespace options) (defaultNamespace cfg) in
     if truthy_str (do_pattern options)
     then deleteByPattern (default [] (do_pattern options)) namespace
     else
        let cacheKey := generateCacheKey key (Some namespace) (Some (keyPrefix cfg)) in
        let metaKey := meta_key cacheKey in
        deleted ← command (Redis.del [cacheKey; metaKey]);
        (if 0 <? deleted
         then count_deletes 1;; emitEvent delete_ (Some key) (Some namespace) NoData
         else mret tt);;
        mret deleted)
    (report (Some key) (do_namespace options)).

(** [metadata['tags'] ? JSON.parse(metadata['tags']) : []] *)
Definition parse_tags (metadata : list (jsstring * jsstring)) : outcome jsvalue :=
  match field_get (js "tags") metadata with
  | Some (c :: text) =>
      match JSON_parse (c :: text) with
      | Some v => Return v
      | None => Throw (Error (js "Unexpected token in JSON"))
      end
  | _ => Return (JArr [])
  end.

(** [keyTags.includes(tag)]: membership in an array, a substring test on a
    string, a [TypeError] on anything else. *)
Definition includes (keyTags : jsvalue) (tag : jsstring) : outcome bool :=
  match keyTags with
  | JArr items =>
      Return (existsb (fun v => match v with
                                | JStr s => bool_decide (s = tag)
                                | _ => false
                                end) items)
  | JStr s => Return (str_includes tag s)
  | _ => Throw (Error (js "keyTags.includes is not a function"))
  end.

(** [tags.some(tag => keyTags.includes(tag))] *)
Fixpoint some_includes (tags : list jsstring) (keyTags : jsvalue) : outcome bool :=
  match tags with
  | [] => Return false
  | tag :: tags' =>
      match includes keyTags tag with
      | Return true => Return true
      | Return false => some_includes tags' keyTags
      | Throw e => Throw e
      end
  end.

(** The [for (const metaKey of result[1])] loop of [clearByTags]. *)
Fixpoint collect_tagged (tags page keys : list jsstring) : M (list jsstring) :=
  match page with
  | [] => mret keys
  | metaKey :: page' =>
      metadata ← command_try (Redis.hgetall metaKey);
      keyTags ← lift (parse_tags metadata);
      found ← lift (some_includes tags keyTags);
      if found : bool then
        let originalKey := replace_first (js ":meta") [] metaKey in
        collect_tagged tags page' (keys ++ [originalKey; metaKey])
      else collect_tagged tags page' keys
  end.

(** The [do ... while (cursor !== '0')] loop of [clearByTags]. *)
Fixpoint scan_tagged (fuel : nat) (tags : list jsstring) (metaPattern : jsstring)
    (cursor : nat) (keys : list jsstring) : M (list jsstring) :=
  match fuel with
  | O => mret keys
  | S f =>
      '(next, page) ← command (Redis.scan cursor metaPattern 100);
      keys' ← collect_tagged tags page keys;
      match next with
      | O => mret keys'
      | S _ => scan_tagged f tags metaPattern next keys'
      end
  end.

Definition clearByTags (tags : list jsstring) : M Z :=
  cfg ← this config;
  let metaPattern :=
    generateScanPattern (js "*:meta") (Some (defaultNamespace cfg)) (Some (keyPrefix cfg)) in
  fuel ← this scan_fuel;
  keys ← scan_tagged fuel tags metaPattern 0 [];
  match keys with
  | [] => mret 0
  | _ :: _ => command (Redis.del keys)
  end.

Definition clear (options : ClearOptions) : M Z :=
  try_catch
    (cfg ← this config;
     let pattern :=
       if truthy_str (co_namespace options)
       then generateScanPattern (js "*") (co_namespace options) (Some (keyPrefix cfg))
       else if truthy_str (co_pattern options)
       then generateScanPattern (default [] (co_pattern options))
              (Some (defaultNamespace cfg)) (Some (keyPrefix cfg))
       else generateScanPattern (js "*") (Some (defaultNamespace cfg))
              (Some (keyPrefix cfg)) in
     match co_tags options with
     | Some (tag :: tags) => clearByTags (tag :: tags)
     | _ =>
         fuel ← this scan_fuel;
         keys ← scan_keys fuel pattern 0 [];
         match keys with
         | [] => mret 0
         | _ :: _ =>
             let metaKeys := List.map meta_key keys in
             deleted ← command (Redis.del (keys ++ metaKeys));
             emitEvent clear_ None (co_namespace options) (ClearData deleted pattern);;
             mret deleted
         end
     end)
    (report None (co_namespace options)).

(** *** Warmup tasks *)

Definition registerWarmupTask (task : WarmupTask) : M unit :=
  update (fun c => with_warmupTasks (<[task_id task := task]> (warmupTasks c)) c);;
  emitEvent warmup (Some (task_id task)) None
    (WarmupData (Some task) registered None None).

Definition unregisterWarmupTask (taskId : jsstring) : M bool :=
  tasks ← this warmupTasks;
  let removed := bool_decide (is_Some (tasks !! taskId)) in
  update (with_warmupTasks (delete taskId tasks));;
  if removed then
    update (fun c =>
      with_warmupQueue
        (List.filter (fun task => negb (bool_decide (task_id task = taskId)))
           (warmupQueue c)) c);;
    emitEvent warmup (Some taskId) None (WarmupData None unregistered None None);;
    mret true
  else mret false.

Definition not_found (taskId : jsstring) : js_error :=
  Error (js "Warmup task with id '" ++ taskId ++ js "' not found").

(** [{ ...task, ...(options.priority !== undefined && { priority }) }] *)
Definition with_priority (priority : option Z) (task : WarmupTask) : WarmupTask :=
  match priority with
  | None => task
  | Some p =>
      {| task_id := task_id task; task_name := task_name task;
         task_description := task_description task;
         task_execute := task_execute task; task_schedule := task_schedule task;
         task_priority := Some p; task_timeout := task_timeout task;
         task_retry := task_retry task; task_retryAttempts := task_retryAttempts task;
         task_retryDelay := task_retryDelay task |}
  end.

Definition queueWarmupTask (taskId : jsstring) (options : QueueWarmupOptions) : M bool :=
  tasks ← this warmupTasks;
  match tasks !! taskId with
  | None => throw (not_found taskId)
  | Some task =>
      queue ← this warmupQueue;
      if existsb (fun t => bool_decide (task_id t = taskId)) queue then mret false
      else
        let queuedTask := with_priority (qo_priority options) task in
        update (fun c => with_warmupQueue (warmupQueue c ++ [queuedTask]) c);;
        emitEvent warmup (Some taskId) None
          (WarmupData (Some task) queued None (Some options));;
        mret true
  end.

Definition timeout_error : js_error := Error (js "Task timeout").

(** How the [await] of [executeWarmupTask] ends: the outcome of the
    routine, or of the race against the timer when [task.timeout] is set
    (a routine that settles no later than the timer wins; [setTimeout]
    waits one millisecond at least). [None]: it never ends. *)
Definition awaited (task : WarmupTask) : option (outcome unit) :=
  if truthy_num (task_timeout task) then
    let limit := Z.max 1 (default 0 (task_timeout task)) in
    match task_execute task with
    | Resolves after =>
        Some (if after <=? limit then Return tt else Throw timeout_error)
    | Rejects after e =>
        Some (if after <=? limit then Throw e else Throw timeout_error)
    | NeverSettles => Some (Throw timeout_error)
    end
  else
    match task_execute task with
    | Resolves _ => Some (Return tt)
    | Rejects _ e => Some (Throw e)
    | NeverSettles => None
    end.

(** [executeWarmupTask] up to its [await]: the [started] event and the call
    of the routine. *)
Definition executeWarmupTask_begin (task : WarmupTask) (c : Cache) : Cache :=
  let c := snd (emitEvent warmup (Some (task_id task)) None
                  (WarmupData (Some task) started None None) c) in
  with_executed (executed c ++ [task_id task]) c.

(** [executeWarmupTask] from its [await] on, [result] being how the await
    ended: the rest of the [try] block and the [catch] block. *)
Definition executeWarmupTask_end (task : WarmupTask) (result : outcome unit) : M unit :=
  try_catch
    (lift result;;
     emitEvent warmup (Some (task_id task)) None
       (WarmupData (Some task) completed None None))
    (fun error =>
       emitEvent warmup (Some (task_id task)) None
         (WarmupData (Some task) failed (Some error) None);;
       if truthy_bool (task_retry task) && truthy_num (task_retryAttempts task)
          && (0 <? default 0 (task_retryAttempts task))
       then update (fun c =>
              with_console_errors (console_errors c ++ [(task_id task, error)]) c)
       else mret tt).

Definition executeWarmupTask (task : WarmupTask) (c : Cache) : async unit :=
  let c := executeWarmupTask_begin task c in
  match awaited task with
  | None => Suspended c
  | Some result =>
      let (o, c') := executeWarmupTask_end task result c in Settled o c'
  end.

Definition runWarmupTask (taskId : jsstring) (c : Cache) : async unit :=
  match warmupTasks c !! taskId with
  | None => Settled (Throw (not_found taskId)) c
  | Some task => executeWarmupTask task c
  end.

Definition priority_of (task : WarmupTask) : Z := or_num (task_priority task) 0.

(** [warmupQueue.sort((a, b) => (b.priority || 0) - (a.priority || 0))]:
    the stable sort, highest priority first. *)
Fixpoint insert_task (task : WarmupTask) (queue : list WarmupTask) : list WarmupTask :=
  match queue with
  | [] => [task]
  | u :: queue' =>
      if priority_of task <? priority_of u
      then u :: insert_task task queue'
      else task :: u :: queue'
  end.

Fixpoint sort_queue (queue : list WarmupTask) : list WarmupTask :=
  match queue with
  | [] => []
  | task :: queue' => insert_task task (sort_queue queue')
  end.

(** [processWarmupQueue] up to the [await] of the task it takes: the guard,
    the flag, the sort and the [shift], then the start of the task.  [None]:
    the call has returned without a task. *)
Definition processWarmupQueue_begin (c : Cache) : Cache * option WarmupTask :=
  if isProcessingWarmup c || (length (warmupQueue c) =? 0)%nat then (c, None)
  else
    let c := with_isProcessingWarmup true c in
    let c := with_warmupQueue (sort_queue (warmupQueue c)) c in
    match warmupQueue c with
    | [] => (with_isProcessingWarmup false c, None)
    | task :: queue' =>
        (executeWarmupTask_begin task (with_warmupQueue queue' c), Some task)
    end.

(** [processWarmupQueue] after the [await]: the end of the task, the
    [catch] and the [finally] blocks. *)
Definition processWarmupQueue_end (task : WarmupTask) (result : outcome unit) : M unit :=
  fun c =>
    let (o, c) :=
      try_catch (executeWarmupTask_end task result)
        (fun error => emitEvent error_ None None (ErrorData error)) c in
    (o, with_isProcessingWarmup false c).

Definition processWarmupQueue (c : Cache) : async unit :=
  match processWarmupQueue_begin c with
  | (c', None) => Settled (Return tt) c'
  | (c', Some task) =>
      match awaited task with
      | None => Suspended c'
      | Some result =>
          let (o, c'') := processWarmupQueue_end task result c' in Settled o c''
      end
  end.

Definition destroy (c : Cache) : Cache := stopWarmupProcessor c.

End CacheMethods.

(** ** Concrete inputs *)

(** A platform to run examples on: a [Buffer] is the binary string of its
    bytes, [gzip] is stood for by a header before the data, and the client
    writes a tag array as its JSON text. *)
Definition reference_platform : Platform := {|
  Buffer := jsstring;
  gzip_utf8 data := js "gzip:" ++ data;
  gunzip_utf8 data :=
    if starts_with (js "gzip:") data then Return (drop 5 data)
    else Throw (Error (js "incorrect header check"));
  Buffer_from_binary value := value;
  reply_of_Buffer b := b;
  field_of_tags tags := stringify (JArr (List.map JStr tags));
|}.

(** The options object [{}] of each kind. *)
Definition no_set_options : SetOptions :=
  {| so_ttl := None; so_namespace := None; so_compress := None; so_serialize := None;
     so_deserialize := None; so_tags := None; so_nx := None; so_xx := None |}.

Definition no_get_options : GetOptions :=
  {| go_ttl := None; go_namespace := None; go_compress := None; go_serialize := None;
     go_deserialize := None; go_tags := None; go_defaultValue := None;
     go_refreshTtl := None |}.

Definition no_del_options : DelOptions :=
  {| do_ttl := None; do_namespace := None; do_compress := None; do_serialize := None;
     do_deserialize := None; do_tags := None; do_pattern := None |}.

Definition no_queue_options : QueueWarmupOptions :=
  {| qo_delay := None; qo_priority := None; qo_attempts := None |}.

(** [{ nx: true }] *)
Definition nx_options : SetOptions :=
  {| so_ttl := None; so_namespace := None; so_compress := None; so_serialize := None;
     so_deserialize := None; so_tags := None; so_nx := Some true; so_xx := None |}.

(** [{ tags }] *)
Definition tags_options (tags : list jsstring) : SetOptions :=
  {| so_ttl := None; so_namespace := None; so_compress := None; so_serialize := None;
     so_deserialize := None; so_tags := Some tags; so_nx := None; so_xx := None |}.

(** [{ refreshTtl: true }] and [{ refreshTtl: true, ttl }] *)
Definition refresh_options (ttl : option Z) : GetOptions :=
  {| go_ttl := ttl; go_namespace := None; go_compress := None; go_serialize := None;
     go_deserialize := None; go_tags := None; go_defaultValue := None;
     go_refreshTtl := Some true |}.

(** The configuration [{}], and one that sets three fields. *)
Definition no_config : CacheConfig :=
  {| cfg_redis := None; cfg_redisOptions := None; cfg_defaultTtl := None;
     cfg_defaultNamespace := None; cfg_enableCompression := None; cfg_maxMemory := None;
     cfg_keyPrefix := None; cfg_enableWarmup := None; cfg_warmupInterval := None |}.

Definition config_of (ttl : option Z) (compression warmup_on : option bool) : CacheConfig :=
  {| cfg_redis := None; cfg_redisOptions := None; cfg_defaultTtl := ttl;
     cfg_defaultNamespace := None; cfg_enableCompression := compression;
     cfg_maxMemory := None; cfg_keyPrefix := None; cfg_enableWarmup := warmup_on;
     cfg_warmupInterval := None |}.

Definition empty_server : Redis.client := {| Redis.keyspace := ∅; Redis.sent := [] |}.

(** A cache with the default configuration on an empty server. *)
Definition fresh_cache : Cache := constructor no_config empty_server.

(** The state after a call, and what the call produced. *)
Definition after {A} (m : M A) (c : Cache) : Cache := snd (m c).
Definition result {A} (m : M A) (c : Cache) : outcome A := fst (m c).

(** A task, given its id, its routine, its priority and its timeout. *)
Definition task_of (id : jsstring) (body : task_body) (priority timeout : option Z)
  : WarmupTask :=
  {| task_id := id; task_name := id; task_description := None; task_execute := body;
     task_schedule := None; task_priority := priority; task_timeout := timeout;
     task_retry := None; task_retryAttempts := None; task_retryDelay := None |}.

(** A task whose routine rejects, and one whose routine never settles and
    that declares a timeout of 50 ms. *)
Definition failing_task : WarmupTask :=
  task_of (js "failing") (Rejects 0 (Error (js "Task failed"))) None None.

Definition hanging_task : WarmupTask :=
  task_of (js "hanging") NeverSettles None (Some 50).

(** A cache with two tasks in its queue: [low], queued first with priority
    1, and [high], with priority 5. *)
Definition low_task : WarmupTask := task_of (js "low") (Resolves 0) (Some 1) None.
Definition high_task : WarmupTask := task_of (js "high") (Resolves 0) (Some 5) None.

Definition queued_cache : Cache :=
  after (queueWarmupTask (js "high") no_queue_options)
    (after (queueWarmupTask (js "low") no_queue_options)
       (after (registerWarmupTask high_task)
          (after (registerWarmupTask low_task) fresh_cache))).

Section ConcreteEntries.

#[local] Existing Instance reference_platform.

(** A cache that holds one entry, [k], written with the tag [t]: its
    primary record and its metadata hash. *)
Definition tagged_cache : Cache :=
  after (set (js "k") (JNum 1) (tags_options [js "t"])) fresh_cache.

(** [{ tags }] for [clear]. *)
Definition clear_tags (tags : list jsstring) : ClearOptions :=
  {| co_namespace := None; co_tags := Some tags; co_pattern := None |}.

(** A cache with one entry under the key [metadata], tagged [t]. *)
Definition metadata_cache : Cache :=
  after (set (js "metadata") (JNum 1) (tags_options [js "t"])) fresh_cache.

(** A cache with the entries [ab], tagged [u], and [a:metab], tagged [t]. *)
Definition two_entries_cache : Cache :=
  after (set (js "a:metab") (JNum 3) (tags_options [js "t"]))
    (after (set (js "ab") (JNum 2) (tags_options [js "u"])) fresh_cache).

End ConcreteEntries.

(** * The vocabulary of the properties *)

(** Every task is registered under its own id, and no id is queued twice. *)
Definition registry_ok (c : Cache) : Prop :=
  forall k task, warmupTasks c !! k = Some task -> task_id task = k.

Definition scheduler_ok (c : Cache) : Prop :=
  registry_ok c /\ NoDup (List.map task_id (warmupQueue c)).

(** The state an [async] call is in when it has settled or is suspended. *)
Definition state_of {A} (a : async A) : Cache :=
  match a with
  | Settled _ c => c
  | Suspended c => c
  end.

(** Highest priority first. *)
Definition descending (queue : list WarmupTask) : Prop :=
  StronglySorted (fun a b => priority_of b <= priority_of a) queue.

(** The key of the primary record of [key] in the default namespace. *)
Definition default_key (c : Cache) (key : jsstring) : jsstring :=
  generateCacheKey key (Some (defaultNamespace (config c))) (Some (keyPrefix (config c))).

(** What [set] writes under the primary key for a value, without a custom
    serializer and without the [compress] option. *)
Definition payload_of `{Platform} (c : Cache) (value : jsvalue) : jsstring :=
  if enableCompression (config c) && shouldCompress (serialize value)
  then reply_of_Buffer (gzip_utf8 (serialize value))
  else serialize value.

(** The key does not hold a plain string. *)
Definition not_a_string (c : Cache) (key : jsstring) : Prop :=
  forall s ttl,
    Redis.keyspace (redis c) !! key <> Some {| Redis.r_value := Redis.RString s; Redis.r_ttl := ttl |}.

(** The commands a call has sent: those of [c'] after those of [c]. *)
Definition issued (c c' : Cache) : list Redis.command :=
  drop (length (Redis.sent (redis c))) (Redis.sent (redis c')).

(** The time to live of a key: [None] when the key does not exist,
    [Some None] when it does not expire. *)
Definition ttl_of (c : Cache) (key : jsstring) : option (option Z) :=
  Redis.r_ttl <$> Redis.keyspace (redis c) !! key.

(** The key of the primary record that [get] reads. *)
Definition get_key (c : Cache) (key : jsstring) (options : GetOptions) : jsstring :=
  generateCacheKey key
    (Some (or_str (go_namespace options) (defaultNamespace (config c))))
    (Some (keyPrefix (config c))).

(** What may follow a value in a JSON text: nothing, a comma, a closing
    bracket or a closing brace. *)
Definition delimited (rest : jsstring) : Prop :=
  match rest with
  | [] => True
  | c :: _ => (c = 44 \/ c = 93 \/ c = 125)%N
  end.

(** A value does not start with a blank, a closing bracket or a closing
    brace. *)
Definition opens_value (c : N) : Prop :=
  (is_ws c = false /\ c <> 93 /\ c <> 125)%N.

(** [v], written and followed by [rest], is read back as [v], [rest]
    being left, with fuel for the calls it takes. *)
Definition reads_back (v : jsvalue) : Prop :=
  json_value v = true ->
  forall fuel rest, (weight v <= fuel)%nat -> delimited rest ->
    parse_value fuel (stringify v ++ rest) = Some (v, rest).

(** Every call of [m] takes the cache to one that [R] relates it to, and
    what it returns satisfies [P]. *)
Definition keeps {A} (R : Cache -> Cache -> Prop) (P : A -> Prop) (m : M A) : Prop :=
  forall c,
    R c (snd (m c)) /\
    match fst (m c) with
    | Return a => P a
    | Throw _ => True
    end.

(** No counter of [s'] is below the one of [s]. *)
Definition stats_le (s s' : CacheStats) : Prop :=
  hits s <= hits s' /\ misses s <= misses s' /\ sets s <= sets s' /\
  deletes s <= deletes s' /\ errors s <= errors s'.

(** [c'] differs from [c] by the store, by commands and events that come
    after those of [c], and by counters that are not lower. *)
Definition grows (c c' : Cache) : Prop :=
  config c' = config c /\
  warmupTasks c' = warmupTasks c /\
  warmupQueue c' = warmupQueue c /\
  warmupTimer c' = warmupTimer c /\
  isProcessingWarmup c' = isProcessingWarmup c /\
  executed c' = executed c /\
  console_errors c' = console_errors c /\
  emitted c `prefix_of` emitted c' /\
  Redis.sent (redis c) `prefix_of` Redis.sent (redis c') /\
  stats_le (stats c) (stats c').

(** The counters [s] with these numbers of hits, misses, sets, deletes and
    errors added. *)
Definition stats_plus (s : CacheStats) (h m st d e : Z) : CacheStats :=
  {| hits := hits s + h; misses := misses s + m; sets := sets s + st;
     deletes := deletes s + d; errors := errors s + e |}.

(** The call [m] throws [e] without a command to the store: one error is
    counted and one [error] event is emitted, with this key and this
    namespace. *)
Definition refused {A} (m : M A) (key namespace : option jsstring) (e : js_error)
    (c : Cache) : Prop :=
  result m c = Throw e /\
  redis (after m c) = redis c /\
  stats (after m c) = stats_plus (stats c) 0 0 0 0 1 /\
  emitted (after m c) = emitted c ++ [event_of error_ key namespace (ErrorData e)].

(** The keys that [SCAN] with [MATCH pattern] finds in the store. *)
Definition matching (pattern : jsstring) (c : Cache) : list jsstring :=
  List.filter (Redis.matches pattern) (map_to_list (Redis.keyspace (redis c))).*1.

(** A command is a [SCAN] with this pattern. *)
Definition is_scan (pattern : jsstring) (command : Redis.command) : Prop :=
  exists cursor count, command = Redis.SCAN cursor pattern count.

(** [c] after these commands were sent, the store being left as it is. *)
Definition sent_more (commands : list Redis.command) (c : Cache) : Cache :=
  with_redis {| Redis.keyspace := Redis.keyspace (redis c);
                Redis.sent := Redis.sent (redis c) ++ commands |} c.

(** [c'] is [c] but for commands that were sent. *)
Definition sends_only (c c' : Cache) : Prop := exists commands, c' = sent_more commands c.

(** Whether the metadata record under [metaKey] carries one of [tags], as
    one round of the loop of [clearByTags] finds it; [None]: the round
    throws. *)
Definition tagged_with (tags : list jsstring) (c : Cache) (metaKey : jsstring)
  : option bool :=
  match fst (Redis.hgetall metaKey (redis c)) with
  | Return metadata =>
      match parse_tags metadata with
      | Return keyTags =>
          match some_includes tags keyTags with
          | Return found => Some found
          | Throw _ => None
          end
      | Throw _ => None
      end
  | Throw _ => None
  end.

(** The keys that the rounds of [clearByTags] on [metaKeys] put in the
    batch. *)
Definition tagged_batch (tags : list jsstring) (c : Cache) (metaKeys : list jsstring)
  : list jsstring :=
  flat_map
    (fun metaKey =>
       match tagged_with tags c metaKey with
       | Some true => [replace_first (js ":meta") [] metaKey; metaKey]
       | _ => []
       end)
    metaKeys.

(** The queue has a task with this id. *)
Definition in_queue (taskId : jsstring) (c : Cache) : Prop :=
  In taskId (List.map task_id (warmupQueue c)).

(** Every task in the queue is registered. *)
Definition queue_registered (c : Cache) : Prop :=
  forall task, In task (warmupQueue c) -> is_Some (warmupTasks c !! task_id task).

(** [n] drains of the queue in a row, each as far as it gets. *)
Fixpoint drains (n : nat) (c : Cache) : Cache :=
  match n with
  | O => c
  | S n' => drains n' (state_of (processWarmupQueue c))
  end.

(** What runs in one go on the event loop: a call of a core operation
    (taken whole: its [await]s are those of the store), a call of the
    scheduler, and the two halves of a run and of a drain, before and after
    the [await] of the routine. *)
Inductive segment : Type :=
| seg_set (key : jsstring) (value : jsvalue) (options : SetOptions)
| seg_get (key : jsstring) (options : GetOptions)
| seg_del (key : jsstring) (options : DelOptions)
| seg_clear (options : ClearOptions)
| seg_register (task : WarmupTask)
| seg_unregister (taskId : jsstring)
| seg_queue (taskId : jsstring) (options : QueueWarmupOptions)
| seg_run_begin (taskId : jsstring)
| seg_run_end (task : WarmupTask) (settled : outcome unit)
| seg_drain_begin
| seg_drain_end (task : WarmupTask) (settled : outcome unit)
| seg_destroy.

Definition step `{Platform} (c : Cache) (s : segment) : Cache :=
  match s with
  | seg_set key value options => after (set key value options) c
  | seg_get key options => after (get key options) c
  | seg_del key options => after (del key options) c
  | seg_clear options => after (clear options) c
  | seg_register task => after (registerWarmupTask task) c
  | seg_unregister taskId => after (unregisterWarmupTask taskId) c
  | seg_queue taskId options => after (queueWarmupTask taskId options) c
  | seg_run_begin taskId =>
      match warmupTasks c !! taskId with
      | Some task => executeWarmupTask_begin task c
      | None => c
      end
  | seg_run_end task settled => after (executeWarmupTask_end task settled) c
  | seg_drain_begin => fst (processWarmupQueue_begin c)
  | seg_drain_end task settled => after (processWarmupQueue_end task settled) c
  | seg_destroy => destroy c
  end.

(** * Properties *)

(** ** The helpers on the inputs of their tests *)

Example generateCacheKey_all_parts :
  generateCacheKey (js "user:123") (Some (js "session")) (Some (js "myapp"))
  = js "myapp:session:user:123".
Proof. reflexivity. Qed.

Example generateCacheKey_without_prefix :
  generateCacheKey (js "user:123") (Some (js "session")) None = js "session:user:123".
Proof. reflexivity. Qed.

Example generateCacheKey_without_namespace :
  generateCacheKey (js "user:123") None (Some (js "myapp")) = js "myapp:user:123".
Proof. reflexivity. Qed.

Example generateCacheKey_simple :
  generateCacheKey (js "user:123") None None = js "user:123".
Proof. reflexivity. Qed.

Example generateScanPattern_all_parts :
  generateScanPattern (js "user:*") (Some (js "session")) (Some (js "myapp"))
  = js "myapp:session:user:*".
Proof. reflexivity. Qed.

Example shouldCompress_small_and_large :
  shouldCompress (js "small") = false /\
  shouldCompress (repeat 120%N 2000) = true /\
  shouldCompress_at (repeat 120%N 500) 1000 = false /\
  shouldCompress_at (repeat 120%N 500) 100 = true.
Proof. repeat split; vm_compute; reflexivity. Qed.

Example validateKey_accepts_and_rejects :
  validateKey (js "valid-key") = Return tt /\
  validateKey (repeat 97%N 250) = Return tt /\
  validateKey [] = Throw (Error (js "Cache key must be a non-empty string")) /\
  validateKey (repeat 97%N 251)
  = Throw (Error (js "Cache key is too long (max 250 characters)")) /\
  validateKey [107; 10; 107]%N
  = Throw (Error (js "Cache key contains invalid characters")).
Proof. repeat split; vm_compute; reflexivity. Qed.

Example serialize_on_tests :
  serialize (JStr (js "test string")) = js "test string" /\
  serialize (JArr [JNum 1; JNum 2; JNum 3]) = js "[1,2,3]" /\
  serialize (JNum 42) = js "42" /\
  serialize JNull = js "null".
Proof. repeat split; vm_compute; reflexivity. Qed.

Example deserialize_on_tests :
  deserialize (serialize (JObj [(js "name", JStr (js "John")); (js "age", JNum 30)]))
  = JObj [(js "name", JStr (js "John")); (js "age", JNum 30)] /\
  deserialize (js "not json") = JStr (js "not json") /\
  deserialize [] = JStr [].
Proof. repeat split; vm_compute; reflexivity. Qed.

(** ** The constructor *)

Lemma or_num_nonzero o d : d <> 0 -> or_num o d <> 0.
Proof.
  intros Hd. destruct o as [n|]; simpl; [|done].
  destruct (Z.eqb_spec n 0); done.
Qed.

(** C10 (as amended): whatever configuration the constructor is given, the
    effective one has compression and warmup enabled, the warmup processor
    is started with the effective interval, and the default time to live is
    3600 when the configuration gives none or gives 0 and is the given
    number otherwise; it is never 0, but a negative number is kept. *)
Theorem C10_effective_config (cfg : CacheConfig) (server : Redis.client) :
  let c := constructor cfg server in
  enableCompression (config c) = true /\
  enableWarmup (config c) = true /\
  warmupTimer c = Some (warmupInterval (config c)) /\
  defaultTtl (config c) =
    match cfg_defaultTtl cfg with
    | None => 3600
    | Some 0 => 3600
    | Some n => n
    end /\
  defaultTtl (config c) <> 0.
Proof.
  assert (Hb : forall o, or_bool o true = true) by (by intros [[]|]).
  unfold constructor; simpl. rewrite !Hb; simpl.
  repeat split; try done.
  - destruct (cfg_defaultTtl cfg) as [[]|]; done.
  - by apply or_num_nonzero.
Qed.

(** C10 (as stated) fails: a negative [defaultTtl] is truthy, so it is kept
    and the effective default is not positive. *)
Lemma C10_negative_ttl_is_kept :
  defaultTtl (config (constructor (config_of (Some (-1)) (Some false) (Some false))
                        empty_server)) = -1 /\
  ~ (forall cfg server, 0 < defaultTtl (config (constructor cfg server))).
Proof.
  split; [reflexivity|].
  intros Hall.
  specialize (Hall (config_of (Some (-1)) (Some false) (Some false)) empty_server).
  vm_compute in Hall. discriminate.
Qed.

(** ** The warmup scheduler *)

(** Unfolds the plumbing of [M]. *)
Ltac run_M :=
  unfold after, result, try_catch, lift, this, update, command, command_try, throw,
    mbind, M_bind, bind, mret, M_ret, ret in *;
  simpl in *.

Section Scheduler.

Lemma insert_task_perm task queue : insert_task task queue ≡ₚ task :: queue.
Proof.
  induction queue as [|u queue IH]; simpl; [done|].
  destruct (priority_of task <? priority_of u); [|done].
  rewrite IH. apply perm_swap.
Qed.

Lemma sort_queue_perm queue : sort_queue queue ≡ₚ queue.
Proof.
  induction queue as [|task queue IH]; simpl; [done|].
  by rewrite insert_task_perm, IH.
Qed.

Lemma insert_task_descending task queue :
  descending queue -> descending (insert_task task queue).
Proof.
  unfold descending. induction 1 as [|u queue Hs IH Hall]; simpl.
  - repeat constructor.
  - destruct (Z.ltb_spec (priority_of task) (priority_of u)).
    + constructor; [done|].
      rewrite insert_task_perm. constructor; [lia|done].
    + constructor; [by constructor|].
      constructor; [lia|].
      eapply Forall_impl; [exact Hall|]. simpl. intros; lia.
Qed.

Lemma sort_queue_descending queue : descending (sort_queue queue).
Proof.
  induction queue; simpl; [constructor|by apply insert_task_descending].
Qed.

Lemma sort_queue_head_max queue task rest :
  sort_queue queue = task :: rest ->
  forall u, In u queue -> priority_of u <= priority_of task.
Proof.
  intros Hsort u Hu.
  pose proof (sort_queue_descending queue) as Hd. rewrite Hsort in Hd.
  apply StronglySorted_inv in Hd as [_ Hall].
  assert (Hin : In u (task :: rest)).
  { rewrite <- Hsort. eapply Permutation_in; [|exact Hu].
    symmetry. apply sort_queue_perm. }
  destruct Hin as [->|Hin]; [lia|].
  rewrite List.Forall_forall in Hall. by apply Hall.
Qed.

Lemma sort_queue_nonempty queue : queue <> [] -> sort_queue queue <> [].
Proof.
  intros Hne Hnil. apply Hne.
  apply Permutation_nil. rewrite <- Hnil. apply sort_queue_perm.
Qed.

Lemma queued_spec taskId queue :
  existsb (fun t => bool_decide (task_id t = taskId)) queue = true <->
  In taskId (List.map task_id queue).
Proof.
  rewrite existsb_exists, in_map_iff. split.
  - intros (t & Hin & Heq). apply bool_decide_eq_true in Heq. eauto.
  - intros (t & Heq & Hin). exists t. split; [done|]. by apply bool_decide_eq_true.
Qed.

Lemma with_priority_id p task : task_id (with_priority p task) = task_id task.
Proof. by destruct p. Qed.

(** The calls of the scheduler keep [scheduler_ok]. *)
Lemma constructor_scheduler_ok cfg server : scheduler_ok (constructor cfg server).
Proof.
  unfold constructor. simpl.
  destruct (or_bool _ _); unfold startWarmupProcessor; simpl;
    (split; [intros k task Hk; simpl in Hk; by apply lookup_empty_Some in Hk
            |constructor]).
Qed.

Lemma registerWarmupTask_scheduler_ok task c :
  scheduler_ok c -> scheduler_ok (after (registerWarmupTask task) c).
Proof.
  intros [Hreg Hq]. unfold registerWarmupTask, emitEvent. run_M. split; [|done].
  intros k t. simpl. rewrite lookup_insert. case_decide; [|apply Hreg].
  intros [= <-]. done.
Qed.

Lemma NoDup_map_filter {A B} (f : A -> B) (P : A -> bool) l :
  NoDup (List.map f l) -> NoDup (List.map f (List.filter P l)).
Proof.
  induction l as [|x l IH]; simpl; [done|].
  rewrite !NoDup_cons. intros [Hx Hl].
  destruct (P x); simpl; [|by apply IH].
  rewrite NoDup_cons. split; [|by apply IH].
  intros Hin. apply Hx.
  apply list_elem_of_In, in_map_iff in Hin as (y & Hy & Hin).
  apply list_elem_of_In, in_map_iff. exists y. split; [done|].
  apply filter_In in Hin. tauto.
Qed.

Lemma unregisterWarmupTask_scheduler_ok taskId c :
  scheduler_ok c -> scheduler_ok (after (unregisterWarmupTask taskId) c).
Proof.
  intros [Hreg Hq]. unfold unregisterWarmupTask, emitEvent. run_M.
  case_bool_decide; simpl.
  - split; [|by apply NoDup_map_filter].
    intros k t. simpl. rewrite lookup_delete. case_decide; [done|apply Hreg].
  - split; [|done].
    intros k t. simpl. rewrite lookup_delete. case_decide; [done|apply Hreg].
Qed.

Lemma queueWarmupTask_unknown taskId options c :
  warmupTasks c !! taskId = None ->
  queueWarmupTask taskId options c = (Throw (not_found taskId), c).
Proof. intros Hk. unfold queueWarmupTask. run_M. by rewrite Hk. Qed.

Lemma queueWarmupTask_queued taskId options c task :
  warmupTasks c !! taskId = Some task ->
  In taskId (List.map task_id (warmupQueue c)) ->
  queueWarmupTask taskId options c = (Return false, c).
Proof.
  intros Hk Hin. unfold queueWarmupTask. run_M. rewrite Hk.
  apply queued_spec in Hin. by rewrite Hin.
Qed.

Lemma queueWarmupTask_fresh taskId options c task :
  warmupTasks c !! taskId = Some task ->
  ~ In taskId (List.map task_id (warmupQueue c)) ->
  queueWarmupTask taskId options c =
    (Return true,
     with_emitted
       (emitted c ++
        [event_of warmup (Some taskId) None
           (WarmupData (Some task) queued None (Some options))])
       (with_warmupQueue (warmupQueue c ++ [with_priority (qo_priority options) task]) c)).
Proof.
  intros Hk Hin. unfold queueWarmupTask, emitEvent. run_M. rewrite Hk.
  destruct (existsb _ _) eqn:Hex; [|done].
  apply queued_spec in Hex. done.
Qed.



Lemma executeWarmupTask_end_returns task outcome c :
  fst (executeWarmupTask_end task outcome c) = Return tt.
Proof.
  unfold executeWarmupTask_end, emitEvent. run_M.
  destruct outcome as [[]|e]; simpl; [done|].
  by destruct (_ && _).
Qed.

Lemma executeWarmupTask_end_scheduler task outcome c :
  let c' := snd (executeWarmupTask_end task outcome c) in
  warmupQueue c' = warmupQueue c /\ warmupTasks c' = warmupTasks c /\
  executed c' = executed c /\ isProcessingWarmup c' = isProcessingWarmup c.
Proof.
  unfold executeWarmupTask_end, emitEvent. run_M.
  destruct outcome as [[]|e]; simpl; [done|].
  by destruct (_ && _).
Qed.

Lemma processWarmupQueue_end_spec task outcome c :
  let c' := snd (processWarmupQueue_end task outcome c) in
  fst (processWarmupQueue_end task outcome c) = Return tt /\
  warmupQueue c' = warmupQueue c /\ warmupTasks c' = warmupTasks c /\
  executed c' = executed c /\ isProcessingWarmup c' = false.
Proof.
  unfold processWarmupQueue_end, try_catch.
  pose proof (executeWarmupTask_end_returns task outcome c) as Hr.
  pose proof (executeWarmupTask_end_scheduler task outcome c) as Hs.
  destruct (executeWarmupTask_end task outcome c) as [o c1]. simpl in *.
  subst o. simpl. tauto.
Qed.



(** The drain of the queue [low; high] takes [high] and leaves [low]. *)
Example processWarmupQueue_takes_high :
  exists c',
    processWarmupQueue_begin queued_cache = (c', Some high_task) /\
    warmupQueue c' = [low_task] /\
    executed c' = [js "high"].
Proof. eexists. split; [vm_compute; reflexivity|]. split; reflexivity. Qed.

(** C3 (as amended): for a registered task whose routine fails, or is
    beaten by its timeout, [runWarmupTask(id)] emits the [started] and the
    [failed] event, the latter with the error, and settles without raising
    it, as the periodic drain does; the only error it raises is the
    not-found error of an id that is not registered. *)
Theorem C3_runWarmupTask_failure (c : Cache) (taskId : jsstring) :
  (forall task e,
     warmupTasks c !! taskId = Some task ->
     awaited task = Some (Throw e) ->
     exists c',
       runWarmupTask taskId c = Settled (Return tt) c' /\
       emitted c' =
         emitted c ++
         [event_of warmup (Some (task_id task)) None
            (WarmupData (Some task) started None None);
          event_of warmup (Some (task_id task)) None
            (WarmupData (Some task) failed (Some e) None)] /\
       forall c0, fst (processWarmupQueue_end task (Throw e) c0) = Return tt) /\
  (forall e c', runWarmupTask taskId c = Settled (Throw e) c' ->
     warmupTasks c !! taskId = None /\ e = not_found taskId /\ c' = c).
Proof.
  split.
  - intros task e Hk Haw. unfold runWarmupTask, executeWarmupTask.
    rewrite Hk, Haw.
    unfold executeWarmupTask_end, executeWarmupTask_begin, emitEvent. run_M.
    destruct (_ && _); simpl.
    + eexists. split; [reflexivity|]. simpl. rewrite <- app_assoc. split; [done|].
      intros c0. apply processWarmupQueue_end_spec.
    + eexists. split; [reflexivity|]. simpl. rewrite <- app_assoc. split; [done|].
      intros c0. apply processWarmupQueue_end_spec.
  - intros e c'. unfold runWarmupTask, executeWarmupTask.
    destruct (warmupTasks c !! taskId) as [task|]; [|by intros [= <- <-]].
    destruct (awaited task) as [outcome|]; [|done].
    pose proof (executeWarmupTask_end_returns task outcome
                  (executeWarmupTask_begin task c)) as Hr.
    destruct (executeWarmupTask_end _ _ _) as [o c1]. simpl in Hr. subst o.
    discriminate.
Qed.

(** The first part of C3 on the task whose routine rejects. *)
Lemma C3_runWarmupTask_failure_witness :
  exists c',
    runWarmupTask (js "failing") (after (registerWarmupTask failing_task) fresh_cache)
    = Settled (Return tt) c'.
Proof.
  destruct (C3_runWarmupTask_failure
              (after (registerWarmupTask failing_task) fresh_cache) (js "failing"))
    as [Hfail _].
  destruct (Hfail failing_task (Error (js "Task failed"))) as (c' & Hrun & _).
  - reflexivity.
  - reflexivity.
  - by exists c'.
Defined.

(** C3 (as stated) fails: a direct run of a task whose routine rejects, and
    of one that exceeds its timeout, settles without an error. *)
Lemma C3_direct_run_does_not_raise :
  awaited failing_task = Some (Throw (Error (js "Task failed"))) /\
  awaited hanging_task = Some (Throw timeout_error) /\
  (exists c',
     runWarmupTask (js "failing") (after (registerWarmupTask failing_task) fresh_cache)
     = Settled (Return tt) c') /\
  (exists c',
     runWarmupTask (js "hanging") (after (registerWarmupTask hanging_task) fresh_cache)
     = Settled (Return tt) c').
Proof.
  split; [reflexivity|]. split; [reflexivity|].
  split; eexists; vm_compute; reflexivity.
Qed.

(** The drain keeps [scheduler_ok]. *)
Lemma processWarmupQueue_begin_scheduler_ok c :
  scheduler_ok c -> scheduler_ok (fst (processWarmupQueue_begin c)).
Proof.
  intros [Hreg Hq]. unfold processWarmupQueue_begin.
  destruct (isProcessingWarmup c || _); [done|]. simpl.
  destruct (sort_queue (warmupQueue c)) as [|task rest] eqn:Hsort;
    [split; [done|constructor]|].
  simpl. split; [done|]. simpl.
  assert (Hnd : NoDup (List.map task_id (task :: rest))).
  { rewrite <- Hsort. by rewrite sort_queue_perm. }
  by apply NoDup_cons in Hnd as [_ Hnd].
Qed.

Lemma processWarmupQueue_end_scheduler_ok task outcome c :
  scheduler_ok c -> scheduler_ok (snd (processWarmupQueue_end task outcome c)).
Proof.
  intros [Hreg Hq].
  destruct (processWarmupQueue_end_spec task outcome c) as (_ & Hq' & Ht' & _).
  split; [unfold registry_ok; by rewrite Ht'|by rewrite Hq'].
Qed.

End Scheduler.


(** ** The core operations *)

(** The keys of an entry. *)

Lemma meta_key_ne cacheKey : meta_key cacheKey <> cacheKey.
Proof.
  unfold meta_key. intros Heq.
  assert (Hl : length (cacheKey ++ js ":meta") = length cacheKey) by by rewrite Heq.
  rewrite length_app in Hl. simpl in Hl. lia.
Qed.

Lemma lookup_meta_insert {V} (cacheKey : jsstring) (e : V) (m : gmap jsstring V) :
  <[cacheKey := e]> m !! meta_key cacheKey = m !! meta_key cacheKey.
Proof. apply lookup_insert_ne. symmetry. apply meta_key_ne. Qed.

Lemma lookup_insert_meta {V} (cacheKey : jsstring) (e : V) (m : gmap jsstring V) :
  <[meta_key cacheKey := e]> m !! cacheKey = m !! cacheKey.
Proof. apply lookup_insert_ne. apply meta_key_ne. Qed.

Lemma lookup_delete_meta {V} (cacheKey : jsstring) (m : gmap jsstring V) :
  delete (meta_key cacheKey) m !! cacheKey = m !! cacheKey.
Proof. apply lookup_delete_ne. apply meta_key_ne. Qed.

Lemma lookup_meta_delete {V} (cacheKey : jsstring) (m : gmap jsstring V) :
  delete cacheKey m !! meta_key cacheKey = m !! meta_key cacheKey.
Proof. apply lookup_delete_ne. symmetry. apply meta_key_ne. Qed.

(** Runs the commands of the client on the keys of one entry. *)
Ltac redis_run :=
  repeat (unfold Redis.set, Redis.get, Redis.hset, Redis.hgetall, Redis.expire, Redis.del;
          simpl;
          rewrite ?lookup_insert_eq, ?lookup_meta_insert, ?lookup_insert_meta,
            ?lookup_delete_eq, ?lookup_delete_meta, ?lookup_meta_delete;
          simpl).

Section CoreOperations.

Context `{Platform}.

Lemma set_nx_fresh c k v :
  validateKey k = Return tt ->
  Redis.keyspace (redis c) !! default_key c k = None ->
  not_a_string c (meta_key (default_key c k)) ->
  exists c1 ttl,
    set k v nx_options c = (Return true, c1) /\
    config c1 = config c /\
    sets (stats c1) = sets (stats c) + 1 /\
    Redis.keyspace (redis c1) !! default_key c k =
      Some {| Redis.r_value := Redis.RString (payload_of c v); Redis.r_ttl := ttl |}.
Proof.
  intros Hvalid Hfresh Hmeta. unfold set, payload_of, default_key in *.
  unfold count_set, emitEvent. run_M. rewrite Hvalid. simpl.
  set (cacheKey := generateCacheKey _ _ _) in *.
  destruct (enableCompression (config c) && shouldCompress (serialize v)) eqn:Hc;
    simpl; redis_run; rewrite Hfresh; simpl; redis_run.
  - destruct (Redis.keyspace (redis c) !! meta_key cacheKey) as [[[s|old] mttl]|] eqn:Hm;
      [by destruct (Hmeta s mttl)| |];
      simpl; destruct (0 <? defaultTtl (config c)) eqn:Httl; redis_run;
      rewrite ?Httl; redis_run;
      (do 2 eexists; split; [reflexivity|]; simpl; redis_run; done).
  - do 2 eexists. split; [reflexivity|]. simpl. redis_run. done.
Qed.

Lemma set_nx_present c k v :
  validateKey k = Return tt ->
  is_Some (Redis.keyspace (redis c) !! default_key c k) ->
  exists command,
    set k v nx_options c = (Return false, with_redis (Redis.send command (redis c)) c).
Proof.
  intros Hvalid [e Hpresent]. unfold set, default_key in *.
  unfold count_set, emitEvent. run_M. rewrite Hvalid. simpl.
  set (cacheKey := generateCacheKey _ _ _) in *.
  destruct (enableCompression (config c) && shouldCompress (serialize v)) eqn:Hc;
    simpl; redis_run; rewrite Hpresent; simpl; eexists; reflexivity.
Qed.


Lemma issued_app c c' l :
  Redis.sent (redis c') = Redis.sent (redis c) ++ l -> issued c c' = l.
Proof. unfold issued. intros ->. by rewrite drop_app_length. Qed.

Lemma report_throws {A} key namespace e c :
  fst (@report A key namespace e c) = Throw e.
Proof. unfold report, count_error, emitEvent. by run_M. Qed.

(** The commands of a successful [set]. *)
Lemma set_issued c key value options c' :
  set key value options c = (Return true, c') ->
  let cfg := config c in
  let cacheKey :=
    generateCacheKey key (Some (or_str (so_namespace options) (defaultNamespace cfg)))
      (Some (keyPrefix cfg)) in
  let ttl := or_num (so_ttl options) (defaultTtl cfg) in
  let serialized :=
    match so_serialize options with Some f => f value | None => serialize value end in
  let isCompressed :=
    match so_compress options with Some b => b | None => enableCompression cfg end
    && shouldCompress serialized in
  exists payload,
    issued c c' =
      Redis.SET cacheKey payload (if 0 <? ttl then Some ttl else None)
        (set_condition_of options)
      :: (if isCompressed || bool_decide (is_Some (so_tags options))
          then Redis.HSET (meta_key cacheKey)
                 (metadata_fields isCompressed (default [] (so_tags options)))
               :: (if 0 <? ttl then [Redis.EXPIRE (meta_key cacheKey) ttl] else [])
          else []) /\
    (isCompressed || bool_decide (is_Some (so_tags options)) = true -> 0 < ttl ->
     ttl_of c' (meta_key cacheKey) = Some (Some ttl) /\
     ttl_of c' cacheKey = Some (Some ttl)) /\
    (isCompressed || bool_decide (is_Some (so_tags options)) = false ->
     Redis.keyspace (redis c') !! meta_key cacheKey =
     Redis.keyspace (redis c) !! meta_key cacheKey).
Proof.
  intros Hset. simpl. unfold set, parseTtl in Hset.
  unfold count_set, emitEvent in Hset. run_M.
  destruct (validateKey key) as [[]|e]; simpl in Hset;
    [|pose proof (report_throws (A:=bool) (Some key) (so_namespace options) e c) as Hr;
      rewrite Hset in Hr; discriminate].
  set (cacheKey := generateCacheKey _ _ _) in *.
  set (ttl := or_num _ _) in *.
  set (serialized := match so_serialize options with Some f => f value | None => _ end) in *.
  set (isCompressed := _ && shouldCompress serialized) in *.
  exists (if isCompressed then reply_of_Buffer (gzip_utf8 serialized) else serialized).
  clearbody cacheKey ttl serialized isCompressed.
  unfold Redis.set, Redis.hset, Redis.expire in Hset. simpl in Hset.
  repeat first
    [ rewrite lookup_insert_eq in Hset
    | rewrite lookup_meta_insert in Hset
    | rewrite lookup_insert_meta in Hset
    | progress simpl in Hset
    | match type of Hset with
      | context [if ?b then _ else _] => destruct b eqn:?
      | context [match ?x !! ?k with _ => _ end] =>
          destruct (x !! k) as [[[?|?] ?]|] eqn:?
      end ];
    try discriminate;
    injection Hset as <-;
    (split; [apply issued_app; simpl; by rewrite <- ?app_assoc|]);
    (split; [intros ? ?; try discriminate; try lia|intros ?; try discriminate]).
  all: unfold ttl_of; simpl; rewrite ?lookup_insert_eq, ?lookup_insert_meta, ?lookup_meta_insert,
         ?lookup_insert_eq; simpl; rewrite ?lookup_insert_eq; try done.
Qed.



(** What [get] does to the client on a hit. *)
Lemma get_hit_redis c key options s ttl0 :
  validateKey key = Return tt ->
  Redis.keyspace (redis c) !! get_key c key options =
    Some {| Redis.r_value := Redis.RString s; Redis.r_ttl := ttl0 |} ->
  not_a_string c (meta_key (get_key c key options)) ->
  let cacheKey := get_key c key options in
  let refreshed :=
    truthy_bool (go_refreshTtl options) &&
    match go_ttl options with Some t => 0 <? t | None => false end in
  let seconds := default 0 (go_ttl options) in
  let has_metadata :=
    match Redis.keyspace (redis c) !! meta_key cacheKey with
    | Some {| Redis.r_value := Redis.RHash (_ :: _) |} => true
    | _ => false
    end in
  let c' := after (get key options) c in
  issued c c' =
    [Redis.GET cacheKey; Redis.HGETALL (meta_key cacheKey)] ++
    (if refreshed
     then Redis.EXPIRE cacheKey seconds ::
          (if has_metadata then [Redis.EXPIRE (meta_key cacheKey) seconds] else [])
     else []) /\
  (if refreshed
   then ttl_of c' cacheKey = Some (Some seconds) /\
        (if has_metadata
         then ttl_of c' (meta_key cacheKey) = Some (Some seconds)
         else Redis.keyspace (redis c') !! meta_key cacheKey =
              Redis.keyspace (redis c) !! meta_key cacheKey)
   else Redis.keyspace (redis c') = Redis.keyspace (redis c)).
Proof.
  intros Hvalid Hk Hmeta. simpl. unfold get, get_key, parseTtl, all2 in *.
  unfold count_hit, count_miss, emitEvent, decompress, report, count_error. run_M.
  rewrite Hvalid. simpl.
  set (cacheKey := generateCacheKey _ _ _) in *. clearbody cacheKey.
  unfold Redis.get, Redis.hgetall, Redis.expire. simpl. rewrite Hk. simpl.
  destruct (Redis.keyspace (redis c) !! meta_key cacheKey) as [[[x|fields] mttl]|] eqn:Hm;
    [by destruct (Hmeta x mttl)| |]; simpl.
  - destruct (go_refreshTtl options) as [[]|], (go_ttl options) as [t|]; simpl;
      try destruct (Z.eqb_spec t 0) as [->|Hne]; simpl;
      try destruct (0 <? t) eqn:Hpos; simpl;
      rewrite ?Hk; simpl;
      destruct fields as [|f fields]; simpl;
      rewrite ?lookup_meta_insert, ?Hm; simpl;
      repeat match goal with
             | |- context [if ?b then _ else _] => destruct b
             | |- context [match gunzip_utf8 ?x with _ => _ end] =>
                 destruct (gunzip_utf8 x) as [?|[?]]
             end; simpl;
      (split; [apply issued_app; simpl; by rewrite <- ?app_assoc|]);
      unfold ttl_of; simpl;
      rewrite ?lookup_insert_eq, ?lookup_insert_meta, ?lookup_meta_insert,
        ?lookup_insert_eq; simpl; rewrite ?Hm; done.
  - destruct (go_refreshTtl options) as [[]|], (go_ttl options) as [t|]; simpl;
      try destruct (Z.eqb_spec t 0) as [->|Hne]; simpl;
      try destruct (0 <? t) eqn:Hpos; simpl;
      rewrite ?Hk; simpl;
      (split; [apply issued_app; simpl; by rewrite <- ?app_assoc|]);
      unfold ttl_of; simpl;
      rewrite ?lookup_insert_eq, ?lookup_insert_meta, ?lookup_meta_insert,
        ?lookup_insert_eq; simpl; rewrite ?Hm; done.
Qed.


(** Without a pattern, and for a valid key, [del] returns what [DEL] of the
    two keys replies, and counts one delete and emits one event when the
    reply is positive, whatever the reply. *)
Lemma del_counts_one c key options :
  validateKey key = Return tt ->
  truthy_str (do_pattern options) = false ->
  let namespace := or_str (do_namespace options) (defaultNamespace (config c)) in
  let cacheKey := generateCacheKey key (Some namespace) (Some (keyPrefix (config c))) in
  let deleted := fst (Redis.del [cacheKey; meta_key cacheKey] (redis c)) in
  let c' := after (del key options) c in
  result (del key options) c = Return deleted /\
  deletes (stats c') = deletes (stats c) + (if 0 <? deleted then 1 else 0) /\
  emitted c' =
    emitted c ++
    (if 0 <? deleted then [event_of delete_ (Some key) (Some namespace) NoData] else []).
Proof.
  intros Hvalid Hpattern. simpl. unfold del. unfold count_deletes, emitEvent. run_M.
  rewrite Hvalid, Hpattern. simpl.
  destruct (Redis.del _ _) as [deleted r]. simpl.
  destruct (0 <? deleted); simpl; rewrite ?Z.add_0_r, ?app_nil_r; done.
Qed.

End CoreOperations.





(** ** The core operations on concrete entries *)

Section CoreExamples.

#[local] Existing Instance reference_platform.

(** The commands that the tests of [set] and [del] expect. *)
Example set_simple_string_commands :
  issued fresh_cache
    (after (set (js "test-key") (JStr (js "test-value")) no_set_options) fresh_cache)
  = [Redis.SET (js "frache:cache:test-key") (js "test-value") (Some 3600) Redis.Always].
Proof. vm_compute. reflexivity. Qed.

Example set_nx_commands :
  issued fresh_cache (after (set (js "key") (JStr (js "value")) nx_options) fresh_cache)
  = [Redis.SET (js "frache:cache:key") (js "value") (Some 3600) Redis.NX].
Proof. vm_compute. reflexivity. Qed.

Example set_tags_commands :
  issued fresh_cache
    (after (set (js "key") (JStr (js "value")) (tags_options [js "tag1"; js "tag2"]))
       fresh_cache)
  = [Redis.SET (js "frache:cache:key") (js "value") (Some 3600) Redis.Always;
     Redis.HSET (js "frache:cache:key:meta")
       (metadata_fields false [js "tag1"; js "tag2"]);
     Redis.EXPIRE (js "frache:cache:key:meta") 3600].
Proof. vm_compute. reflexivity. Qed.

Example del_commands :
  issued fresh_cache (after (del (js "test-key") no_del_options) fresh_cache)
  = [Redis.DEL [js "frache:cache:test-key"; js "frache:cache:test-key:meta"]].
Proof. vm_compute. reflexivity. Qed.





(** C6 at an entry with both records: [del('k')] removes two keys and
    returns 2, and the [deletes] counter goes up by one, not by two. *)
Lemma C6_del_counts_one_for_two_keys :
  let c' := after (del (js "k") no_del_options) tagged_cache in
  result (del (js "k") no_del_options) tagged_cache = Return 2 /\
  Redis.keyspace (redis c') = ∅ /\
  deletes (stats c') = deletes (stats tagged_cache) + 1 /\
  deletes (stats c') <> deletes (stats tagged_cache) + 2.
Proof.
  intros c'; subst c'.
  repeat split; vm_compute; first [reflexivity | discriminate].
Qed.

(** C1 at an entry whose key holds [:meta] before the suffix of its
    metadata key.  For the key [metadata], tagged [t], [clear({tags: ['t']})]
    puts [frache:cachedata:meta] in the batch in place of the primary key:
    one key is removed, the metadata hash, and the primary record stays, so
    that [get] still returns the value.  For the key [a:metab], tagged [t],
    the batch holds the metadata key of the entry [ab], whose only tag is
    [u]: that hash is removed and the primary record of [a:metab] stays. *)
Lemma C1_clearByTags_misses_primary_key :
  (let c' := after (clear (clear_tags [js "t"])) metadata_cache in
   result (clear (clear_tags [js "t"])) metadata_cache = Return 1 /\
   last (issued metadata_cache c') =
     Some (Redis.DEL [js "frache:cachedata:meta"; js "frache:cache:metadata:meta"]) /\
   Redis.keyspace (redis c') !! js "frache:cache:metadata" =
     Some {| Redis.r_value := Redis.RString (js "1"); Redis.r_ttl := Some 3600 |} /\
   Redis.keyspace (redis c') !! js "frache:cache:metadata:meta" = None /\
   result (get (js "metadata") no_get_options) c' = Return (JNum 1)) /\
  (let c' := after (clear (clear_tags [js "t"])) two_entries_cache in
   result (clear (clear_tags [js "t"])) two_entries_cache = Return 2 /\
   last (issued two_entries_cache c') =
     Some (Redis.DEL [js "frache:cache:ab:meta"; js "frache:cache:a:metab:meta"]) /\
   is_Some (Redis.keyspace (redis two_entries_cache) !! js "frache:cache:ab:meta") /\
   Redis.keyspace (redis c') !! js "frache:cache:ab:meta" = None /\
   is_Some (Redis.keyspace (redis c') !! js "frache:cache:a:metab")).
Proof.
  split; intros c'; subst c'.
  - repeat split; vm_compute; reflexivity.
  - repeat split; vm_compute; first [reflexivity | by eexists].
Qed.

End CoreExamples.

(** ** The value codec *)

Section JsonRoundTrip.

Local Open Scope N_scope.

Lemma hex_val_digit d : d < 16 -> hex_val (hex_digit d) = Some d.
Proof.
  intros Hd.
  assert (Hcases : d = 0 \/ d = 1 \/ d = 2 \/ d = 3 \/ d = 4 \/ d = 5 \/ d = 6 \/ d = 7 \/
                   d = 8 \/ d = 9 \/ d = 10 \/ d = 11 \/ d = 12 \/ d = 13 \/ d = 14 \/
                   d = 15) by lia.
  repeat (destruct Hcases as [->|Hcases]; [reflexivity|]). by subst.
Qed.

Lemma hex4_value c :
  c < 65536 ->
  c / 4096 mod 16 * 4096 + c / 256 mod 16 * 256 + c / 16 mod 16 * 16 + c mod 16 = c.
Proof.
  intros Hc.
  pose proof (N.div_mod c 16 ltac:(done)) as H0.
  pose proof (N.div_mod (c / 16) 16 ltac:(done)) as H1.
  pose proof (N.div_mod (c / 256) 16 ltac:(done)) as H2.
  assert (H16 : c / 16 / 16 = c / 256) by (by rewrite N.Div0.div_div).
  assert (H256 : c / 256 / 16 = c / 4096) by (by rewrite N.Div0.div_div).
  rewrite H16 in H1. rewrite H256 in H2.
  assert (Hq : c / 4096 < 16) by (apply N.Div0.div_lt_upper_bound; lia).
  rewrite (N.mod_small (c / 4096) 16 Hq). lia.
Qed.

Lemma parse_string_body_quote r : parse_string_body (34 :: r) = Some ([], r).
Proof. reflexivity. Qed.

Lemma parse_string_body_raw c r :
  c <> 34 -> c <> 92 -> 32 <= c ->
  parse_string_body (c :: r) =
    match parse_string_body r with
    | Some (str, r') => Some (c :: str, r')
    | None => None
    end.
Proof.
  intros H34 H92 H32. cbn [parse_string_body].
  destruct (N.eqb_spec c 34); [done|]. destruct (N.eqb_spec c 92); [done|].
  destruct (N.ltb_spec c 32); [lia|]. done.
Qed.

Lemma parse_string_body_escape e u r :
  e <> 117 -> unescape e = Some u ->
  parse_string_body (92 :: e :: r) =
    match parse_string_body r with
    | Some (str, r') => Some (u :: str, r')
    | None => None
    end.
Proof.
  intros H117 Hu. cbn [parse_string_body].
  change (92 =? 34) with false. change (92 =? 92) with true. cbv iota.
  destruct (N.eqb_spec e 117); [done|]. by rewrite Hu.
Qed.

Lemma parse_string_body_unicode c r :
  c < 65536 ->
  parse_string_body (unicode_escape c ++ r) =
    match parse_string_body r with
    | Some (str, r') => Some (c :: str, r')
    | None => None
    end.
Proof.
  intros Hc. unfold unicode_escape, hex4. cbn [app parse_string_body].
  change (92 =? 34) with false. change (92 =? 92) with true.
  change (117 =? 117) with true. cbv iota.
  rewrite !hex_val_digit by (apply N.mod_lt; done).
  by rewrite hex4_value.
Qed.

Lemma surrogate_bound c : is_high_surrogate c || is_low_surrogate c = true -> c < 65536.
Proof.
  unfold is_high_surrogate, is_low_surrogate.
  rewrite orb_true_iff, !andb_true_iff, !N.leb_le. lia.
Qed.

Lemma not_surrogate_bounds c :
  is_high_surrogate c = false -> is_low_surrogate c = false ->
  c < 55296 \/ 57343 < c.
Proof.
  unfold is_high_surrogate, is_low_surrogate.
  rewrite !andb_false_iff, !N.leb_gt. lia.
Qed.

Lemma quote_unit_parse c r :
  is_high_surrogate c = false -> is_low_surrogate c = false ->
  parse_string_body (quote_unit c ++ r) =
    match parse_string_body r with
    | Some (str, r') => Some (c :: str, r')
    | None => None
    end.
Proof.
  intros Hh Hl. unfold quote_unit.
  repeat match goal with
         | |- context [if ?x =? ?y then _ else _] =>
             destruct (N.eqb_spec x y) as [->|?]; [reflexivity|]
         end.
  destruct (N.ltb_spec c 32).
  - apply parse_string_body_unicode. lia.
  - by apply parse_string_body_raw.
Qed.

(** A quoted string is read back as the string. *)
Lemma quote_units_parse s r :
  parse_string_body (quote_units s ++ 34 :: r) = Some (s, r).
Proof.
  remember (length s) as n eqn:Hn. revert s Hn.
  induction n as [n IH] using lt_wf_ind. intros s Hn.
  destruct s as [|c s]; [reflexivity|]. cbn [quote_units].
  destruct (is_high_surrogate c) eqn:Hh.
  - destruct s as [|d s].
    + rewrite parse_string_body_unicode by (apply surrogate_bound; by rewrite Hh).
      by rewrite parse_string_body_quote.
    + destruct (is_low_surrogate d) eqn:Hl.
      * cbn [app].
        unfold is_high_surrogate in Hh. unfold is_low_surrogate in Hl.
        rewrite andb_true_iff, !N.leb_le in Hh, Hl.
        rewrite parse_string_body_raw by lia.
        rewrite parse_string_body_raw by lia.
        rewrite (IH (length s)); [done|simpl in Hn; lia|done].
      * rewrite <- app_assoc.
        rewrite parse_string_body_unicode by (apply surrogate_bound; by rewrite Hh).
        rewrite (IH (length (d :: s))); [done|simpl in *; lia|done].
  - destruct (is_low_surrogate c) eqn:Hl.
    + rewrite <- app_assoc.
      rewrite parse_string_body_unicode
        by (apply surrogate_bound; by rewrite Hl, orb_true_r).
      rewrite (IH (length s)); [done|simpl in Hn; lia|done].
    + rewrite <- app_assoc, quote_unit_parse by done.
      rewrite (IH (length s)); [done|simpl in Hn; lia|done].
Qed.

Lemma delimited_skip_ws rest : delimited rest -> skip_ws rest = rest.
Proof. destruct rest as [|c rest]; [done|]. by intros [->|[->| ->]]. Qed.

Lemma take_digits_units u rest :
  delimited rest -> take_digits (uint_units u ++ rest) = (uint_units u, rest).
Proof.
  intros Hrest.
  assert (Hstop : take_digits rest = ([], rest)).
  { destruct rest as [|c rest]; [done|]. by destruct Hrest as [->|[->| ->]]. }
  induction u; cbn [uint_units app take_digits]; [done|..];
    match goal with
    | |- context [is_digit ?c] => change (is_digit c) with true
    end; cbv iota; by rewrite IHu.
Qed.

Lemma units_uint_units u : units_uint (uint_units u) = u.
Proof. induction u; cbn [uint_units units_uint]; [done|..]; by rewrite IHu. Qed.

Lemma to_uint_normal n : unorm (N.to_uint n) = N.to_uint n.
Proof. by rewrite <- (DecimalN.Unsigned.to_of (N.to_uint n)), DecimalN.Unsigned.of_to. Qed.

(** The digits of a number: one at least, and no zero in front of another
    digit. *)
Lemma to_uint_digits n :
  exists d ds,
    uint_units (N.to_uint n) = d :: ds /\
    is_digit d = true /\
    ((d =? 48) && negb (match ds with [] => true | _ => false end) = false).
Proof.
  pose proof (to_uint_normal n) as Hnorm. unfold unorm in Hnorm.
  destruct (nzhead (N.to_uint n)) eqn:Hnz; rewrite <- Hnorm;
    try (by eexists _, _);
    by destruct (nzhead_nonzero (N.to_uint n) u).
Qed.

Lemma parse_number_integer n rest :
  delimited rest ->
  parse_number (number_to_string n ++ rest) = Some (JNum n, rest).
Proof.
  intros Hrest. unfold number_to_string.
  destruct (to_uint_digits (Z.abs_N n)) as (d & ds & Hunits & Hd & Hzero).
  assert (Hfrac : take_fraction rest = Some (false, rest)).
  { destruct rest as [|c rest]; [done|]. by destruct Hrest as [->|[->| ->]]. }
  assert (Hexp : take_exponent rest = Some (false, rest)).
  { destruct rest as [|c rest]; [done|]. by destruct Hrest as [->|[->| ->]]. }
  assert (Hvalue : Z.of_N (N.of_uint (units_uint (d :: ds))) = Z.abs n).
  { by rewrite <- Hunits, units_uint_units, DecimalN.Unsigned.of_to, N2Z.inj_abs_N. }
  destruct (Z.ltb_spec n 0) as [Hneg|Hpos].
  - unfold parse_number. cbn [app]. change (45 =? 45) with true. cbv iota.
    rewrite take_digits_units by done. rewrite Hunits, Hzero, Hfrac, Hexp.
    cbn [orb]. rewrite Hvalue. do 3 f_equal. lia.
  - unfold parse_number. rewrite app_nil_l, Hunits. cbn [app].
    assert (Hnot : (d =? 45) = false).
    { unfold is_digit in Hd. rewrite andb_true_iff, !N.leb_le in Hd.
      apply N.eqb_neq. lia. }
    rewrite Hnot.
    change (d :: ds ++ rest) with ((d :: ds) ++ rest). rewrite <- Hunits.
    rewrite take_digits_units by done. rewrite Hunits, Hzero, Hfrac, Hexp.
    cbn [orb]. rewrite Hvalue. do 3 f_equal. lia.
Qed.

(** Induction on a value, with the hypothesis for the items of an array
    and for the members of an object. *)
Lemma jsvalue_nested_ind (P : jsvalue -> Prop) :
  P JNull ->
  (forall b, P (JBool b)) ->
  (forall n, P (JNum n)) ->
  (forall t, P (JNumLit t)) ->
  (forall s, P (JStr s)) ->
  (forall l, Forall P l -> P (JArr l)) ->
  (forall ms, Forall (fun m => P (snd m)) ms -> P (JObj ms)) ->
  forall v, P v.
Proof.
  intros Hnull Hbool Hnum Hlit Hstr Harr Hobj.
  exact (fix IH (v : jsvalue) : P v :=
           match v with
           | JNull => Hnull
           | JBool b => Hbool b
           | JNum n => Hnum n
           | JNumLit t => Hlit t
           | JStr s => Hstr s
           | JArr l =>
               Harr l ((fix items (l : list jsvalue) : Forall P l :=
                          match l with
                          | [] => Stdlib.Lists.List.Forall_nil P
                          | x :: l' =>
                              Stdlib.Lists.List.Forall_cons P x l' (IH x) (items l')
                          end) l)
           | JObj ms =>
               Hobj ms ((fix members (ms : list (jsstring * jsvalue))
                           : Forall (fun m => P (snd m)) ms :=
                           match ms with
                           | [] => Stdlib.Lists.List.Forall_nil _
                           | m :: ms' =>
                               Stdlib.Lists.List.Forall_cons _ m ms' (IH (snd m))
                                 (members ms')
                           end) ms)
           end).
Qed.

Lemma parse_value_number c t f :
  (c =? 45) || is_digit c = true ->
  parse_value (S f) (c :: t) = parse_number (c :: t).
Proof.
  intros Hc. cbn [parse_value skip_ws]. unfold is_ws.
  assert (Hcases : c = 45 \/ (48 <= c /\ c <= 57)).
  { unfold is_digit in Hc.
    rewrite orb_true_iff, andb_true_iff, N.eqb_eq, !N.leb_le in Hc. lia. }
  assert (H32 : (c =? 32) = false) by (apply N.eqb_neq; lia).
  assert (H9 : (c =? 9) = false) by (apply N.eqb_neq; lia).
  assert (H10 : (c =? 10) = false) by (apply N.eqb_neq; lia).
  assert (H13 : (c =? 13) = false) by (apply N.eqb_neq; lia).
  assert (H123 : (c =? 123) = false) by (apply N.eqb_neq; lia).
  assert (H91 : (c =? 91) = false) by (apply N.eqb_neq; lia).
  assert (H34 : (c =? 34) = false) by (apply N.eqb_neq; lia).
  rewrite H32, H9, H10, H13. cbn [orb]. by rewrite H123, H91, H34, Hc.
Qed.

Lemma number_to_string_head n :
  exists c t, number_to_string n = c :: t /\ ((c =? 45) || is_digit c = true).
Proof.
  unfold number_to_string.
  destruct (to_uint_digits (Z.abs_N n)) as (d & ds & -> & Hd & _).
  destruct (n <? 0)%Z; cbn [app].
  - by eexists _, _.
  - eexists _, _. split; [done|]. by rewrite Hd, orb_true_r.
Qed.

Lemma stringify_head v :
  json_value v = true -> exists c t, stringify v = c :: t /\ opens_value c.
Proof.
  destruct v as [|[]|n|?|s|l|ms]; intros Hv; try discriminate;
    try (by eexists _, _).
  destruct (number_to_string_head n) as (c & t & Heq & Hc).
  exists c, t. split; [done|]. unfold opens_value, is_ws, is_digit in *.
  rewrite orb_true_iff, andb_true_iff, N.eqb_eq, !N.leb_le in Hc.
  rewrite !orb_false_iff, !N.eqb_neq. lia.
Qed.

Lemma skip_ws_opens c t : opens_value c -> skip_ws (c :: t) = c :: t.
Proof. intros [Hws _]. cbn [skip_ws]. by rewrite Hws. Qed.

Lemma obj_set_fresh k v ms :
  ~ In k (List.map fst ms) -> obj_set k v ms = ms ++ [(k, v)].
Proof.
  induction ms as [|[k' v'] ms IH]; cbn [obj_set List.map fst In app]; [done|].
  intros Hin. case_decide; [tauto|]. rewrite IH; tauto.
Qed.

Lemma obj_of_members_distinct ms :
  NoDup (List.map fst ms) -> obj_of_members ms = ms.
Proof.
  unfold obj_of_members.
  enough (Hgen : forall acc,
            NoDup (List.map fst (acc ++ ms)) ->
            fold_left (fun acc m => obj_set (fst m) (snd m) acc) ms acc = acc ++ ms)
    by (intros Hnd; by apply (Hgen [])).
  induction ms as [|[k v] ms IH]; intros acc Hnd; cbn [fold_left fst snd].
  - by rewrite app_nil_r.
  - rewrite obj_set_fresh.
    + rewrite IH; rewrite <- app_assoc; done.
    + rewrite List.map_app in Hnd. apply NoDup_app in Hnd as (_ & Hdisj & _).
      intros Hin. apply (Hdisj k); [by apply list_elem_of_In|]. simpl. left.
Qed.

Lemma parse_value_string f t :
  parse_value (S f) (34 :: t) =
    match parse_string_body t with
    | Some (str, r) => Some (JStr str, r)
    | None => None
    end.
Proof. reflexivity. Qed.

Lemma parse_value_array f t :
  parse_value (S f) (91 :: t) =
    match skip_ws t with
    | [] => None
    | x :: r =>
        if x =? 93 then Some (JArr [], r)
        else match parse_elements f t with
             | Some (vs, r') => Some (JArr vs, r')
             | None => None
             end
    end.
Proof. reflexivity. Qed.

Lemma parse_value_object f t :
  parse_value (S f) (123 :: t) =
    match skip_ws t with
    | [] => None
    | x :: r =>
        if x =? 125 then Some (JObj [], r)
        else match parse_members f t with
             | Some (ms, r') => Some (JObj (obj_of_members ms), r')
             | None => None
             end
    end.
Proof. reflexivity. Qed.

Lemma parse_elements_step f s :
  parse_elements (S f) s =
    match parse_value f s with
    | None => None
    | Some (v, r) =>
        match skip_ws r with
        | [] => None
        | c :: r' =>
            if c =? 44 then
              match parse_elements f r' with
              | Some (vs, r'') => Some (v :: vs, r'')
              | None => None
              end
            else if c =? 93 then Some ([v], r')
            else None
        end
    end.
Proof. reflexivity. Qed.

Lemma parse_members_step f k t :
  parse_members (S f) (quote k ++ 58 :: t) =
    match parse_value f t with
    | None => None
    | Some (v, r) =>
        match skip_ws r with
        | [] => None
        | c :: r' =>
            if c =? 44 then
              match parse_members f r' with
              | Some (ms, r'') => Some ((k, v) :: ms, r'')
              | None => None
              end
            else if c =? 125 then Some ([(k, v)], r')
            else None
        end
    end.
Proof.
  unfold quote. cbn [app parse_members skip_ws]. change (is_ws 34) with false.
  cbv iota. change (34 =? 34) with true. cbv iota.
  rewrite <- app_assoc. cbn [app]. rewrite quote_units_parse.
  cbn [skip_ws]. change (is_ws 58) with false. cbv iota.
  change (58 =? 58) with true. cbv iota. reflexivity.
Qed.

Lemma parse_elements_items l :
  l <> [] -> Forall reads_back l -> forallb json_value l = true ->
  forall fuel rest,
    (list_sum (List.map (fun x => S (weight x)) l) <= fuel)%nat ->
    parse_elements fuel (join [44] (List.map stringify l) ++ 93 :: rest) = Some (l, rest).
Proof.
  induction l as [|v l IH]; [done|]. intros _ Hall Hok fuel rest Hfuel.
  apply Forall_cons in Hall as [Hv Hall].
  cbn [forallb] in Hok. apply andb_true_iff in Hok as [Hokv Hok].
  cbn [List.map list_sum] in Hfuel.
  destruct fuel as [|f]; [simpl in Hfuel; lia|].
  rewrite parse_elements_step.
  destruct l as [|v' l].
  - cbn [List.map join].
    rewrite (Hv Hokv f (93 :: rest)) by (simpl in *; (lia || tauto)).
    reflexivity.
  - change (join [44] (List.map stringify (v :: v' :: l)))
      with (stringify v ++ [44] ++ join [44] (List.map stringify (v' :: l))).
    rewrite <- !app_assoc. cbn [app].
    rewrite (Hv Hokv f) by (simpl in *; (lia || tauto)).
    cbn [skip_ws]. change (is_ws 44) with false. cbv iota.
    change (44 =? 44) with true. cbv iota.
    rewrite IH; [done|done|done|done|simpl in *; lia].
Qed.

Lemma parse_members_items ms :
  ms <> [] -> Forall (fun m => reads_back (snd m)) ms ->
  forallb (fun m => json_value (snd m)) ms = true ->
  forall fuel rest,
    (list_sum (List.map (fun m => S (weight (snd m))) ms) <= fuel)%nat ->
    parse_members fuel (join [44] (List.map (member_text stringify) ms) ++ 125 :: rest)
    = Some (ms, rest).
Proof.
  induction ms as [|[k v] ms IH]; [done|]. intros _ Hall Hok fuel rest Hfuel.
  apply Forall_cons in Hall as [Hv Hall]. cbn [snd] in Hv.
  cbn [forallb snd] in Hok. apply andb_true_iff in Hok as [Hokv Hok].
  cbn [List.map list_sum snd] in Hfuel.
  destruct fuel as [|f]; [simpl in Hfuel; lia|].
  destruct ms as [|m ms].
  - cbn [List.map join]. unfold member_text. cbn [fst snd].
    rewrite <- app_assoc. cbn [app]. rewrite parse_members_step.
    rewrite (Hv Hokv f (125 :: rest)) by (simpl in *; (lia || tauto)).
    reflexivity.
  - change (join [44] (List.map (member_text stringify) ((k, v) :: m :: ms)))
      with (member_text stringify (k, v) ++ [44] ++
            join [44] (List.map (member_text stringify) (m :: ms))).
    unfold member_text at 1. cbn [fst snd].
    rewrite <- !app_assoc. cbn [app]. rewrite parse_members_step.
    rewrite (Hv Hokv f) by (simpl in *; (lia || tauto)).
    cbn [skip_ws]. change (is_ws 44) with false. cbv iota.
    change (44 =? 44) with true. cbv iota.
    rewrite IH; [done|done|done|done|simpl in *; lia].
Qed.

Lemma join_head l :
  l <> [] -> forallb json_value l = true ->
  exists c t, join [44] (List.map stringify l) = c :: t /\ opens_value c.
Proof.
  destruct l as [|v l]; [done|]. intros _ Hok.
  cbn [forallb] in Hok. apply andb_true_iff in Hok as [Hokv _].
  destruct (stringify_head v Hokv) as (c & t & Heq & Hc).
  destruct l as [|v' l].
  - exists c, t. by rewrite <- Heq.
  - change (join [44] (List.map stringify (v :: v' :: l)))
      with (stringify v ++ [44] ++ join [44] (List.map stringify (v' :: l))).
    rewrite Heq. by eexists _, _.
Qed.

(** What [JSON.stringify] writes, [JSON.parse] reads back. *)
Lemma stringify_reads_back v : reads_back v.
Proof.
  induction v as [|b|n|t|s|l IH|ms IH] using jsvalue_nested_ind;
    intros Hok fuel rest Hfuel Hrest;
    (destruct fuel as [|f]; [simpl in Hfuel; lia|]).
  - reflexivity.
  - by destruct b.
  - destruct (number_to_string_head n) as (c & t & Heq & Hc).
    cbn [stringify]. rewrite Heq. cbn [app]. rewrite parse_value_number by done.
    change (c :: t ++ rest) with ((c :: t) ++ rest). rewrite <- Heq.
    by apply parse_number_integer.
  - discriminate.
  - cbn [stringify]. unfold quote. cbn [app]. rewrite parse_value_string.
    rewrite <- app_assoc. cbn [app]. by rewrite quote_units_parse.
  - cbn [json_value] in Hok. cbn [weight] in Hfuel.
    cbn [stringify app]. rewrite parse_value_array, <- app_assoc. cbn [app].
    destruct l as [|v l]; [reflexivity|].
    destruct (join_head (v :: l)) as (c & t & Heq & Hc); [done|done|].
    rewrite Heq. cbn [app]. rewrite skip_ws_opens by done.
    destruct Hc as (_ & H93 & _). apply N.eqb_neq in H93. rewrite H93.
    change (c :: t ++ 93 :: rest) with ((c :: t) ++ 93 :: rest). rewrite <- Heq.
    rewrite parse_elements_items; [done|done|done|done|lia].
  - cbn [json_value] in Hok. apply andb_true_iff in Hok as [Hnd Hok].
    apply bool_decide_eq_true in Hnd. cbn [weight] in Hfuel.
    cbn [stringify app]. rewrite parse_value_object, <- app_assoc. cbn [app].
    destruct ms as [|[k v] ms]; [reflexivity|].
    assert (Hhead : exists t,
              join [44] (List.map (member_text stringify) ((k, v) :: ms)) = 34 :: t).
    { destruct ms as [|m ms]; cbn [List.map join]; unfold member_text, quote;
        cbn [fst app]; by eexists. }
    destruct Hhead as (t & Heq). rewrite Heq. cbn [app skip_ws].
    change (is_ws 34) with false. cbv iota. change (34 =? 125) with false. cbv iota.
    change (34 :: t ++ 125 :: rest) with ((34 :: t) ++ 125 :: rest). rewrite <- Heq.
    rewrite parse_members_items; [|done|done|done|lia].
    by rewrite obj_of_members_distinct.
Qed.

Lemma length_join_items (l : list jsvalue) :
  Forall (fun v => json_value v = true -> (weight v <= length (stringify v))%nat) l ->
  forallb json_value l = true ->
  (list_sum (List.map (fun x => S (weight x)) l)
   <= S (length (join [44%N] (List.map stringify l))))%nat.
Proof.
  induction l as [|v l IH]; intros Hall Hok; [simpl; lia|].
  apply Forall_cons in Hall as [Hv Hall].
  cbn [forallb] in Hok. apply andb_true_iff in Hok as [Hokv Hok].
  specialize (IH Hall Hok). specialize (Hv Hokv).
  destruct l as [|v' l].
  - simpl. lia.
  - change (join [44] (List.map stringify (v :: v' :: l)))
      with (stringify v ++ [44] ++ join [44] (List.map stringify (v' :: l))).
    rewrite !length_app.
    change (list_sum (List.map (fun x => S (weight x)) (v :: v' :: l)))
      with (S (weight v) + list_sum (List.map (fun x => S (weight x)) (v' :: l)))%nat.
    cbn [length]. lia.
Qed.

Lemma length_join_members (ms : list (jsstring * jsvalue)) :
  Forall (fun m => json_value (snd m) = true ->
                   (weight (snd m) <= length (stringify (snd m)))%nat) ms ->
  forallb (fun m => json_value (snd m)) ms = true ->
  (list_sum (List.map (fun m => S (weight (snd m))) ms)
   <= S (length (join [44%N] (List.map (member_text stringify) ms))))%nat.
Proof.
  induction ms as [|[k v] ms IH]; intros Hall Hok; [simpl; lia|].
  apply Forall_cons in Hall as [Hv Hall]. cbn [snd] in Hv.
  cbn [forallb snd] in Hok. apply andb_true_iff in Hok as [Hokv Hok].
  specialize (IH Hall Hok). specialize (Hv Hokv).
  destruct ms as [|m ms].
  - cbn [List.map join]. unfold member_text. cbn [fst snd].
    rewrite length_app. simpl. lia.
  - change (join [44] (List.map (member_text stringify) ((k, v) :: m :: ms)))
      with (member_text stringify (k, v) ++ [44] ++
            join [44] (List.map (member_text stringify) (m :: ms))).
    unfold member_text at 1. cbn [fst snd].
    rewrite !length_app.
    change (list_sum (List.map (fun m => S (weight (snd m))) ((k, v) :: m :: ms)))
      with (S (weight v) +
            list_sum (List.map (fun m => S (weight (snd m))) (m :: ms)))%nat.
    cbn [length]. lia.
Qed.

(** The text of a value is long enough to be the fuel of its parse. *)
Lemma weight_le_length v :
  json_value v = true -> (weight v <= length (stringify v))%nat.
Proof.
  induction v as [|b|n|t|s|l IH|ms IH] using jsvalue_nested_ind; intros Hok.
  - simpl. lia.
  - destruct b; simpl; lia.
  - destruct (number_to_string_head n) as (c & t & Heq & _).
    cbn [stringify weight]. rewrite Heq. simpl. lia.
  - discriminate.
  - cbn [stringify weight]. unfold quote. simpl. lia.
  - cbn [json_value] in Hok. cbn [stringify weight length].
    rewrite length_app. cbn [length].
    pose proof (length_join_items l IH Hok). lia.
  - cbn [json_value] in Hok. apply andb_true_iff in Hok as [_ Hok].
    cbn [stringify weight length]. rewrite length_app. cbn [length].
    pose proof (length_join_members ms IH Hok). lia.
Qed.

Lemma JSON_parse_stringify v :
  json_value v = true -> JSON_parse (stringify v) = Some v.
Proof.
  intros Hok. unfold JSON_parse.
  pose proof (weight_le_length v Hok) as Hw.
  pose proof (stringify_reads_back v Hok (2 * length (stringify v) + 2)%nat []) as Hread.
  rewrite app_nil_r in Hread. rewrite Hread; [done|lia|done].
Qed.

(** [deserialize] undoes [serialize] on every value but a string, and on a
    string that is not a JSON text. *)
Lemma deserialize_serialize v :
  json_value v = true ->
  (forall s, v = JStr s -> JSON_parse s = None) ->
  deserialize (serialize v) = v.
Proof.
  intros Hok Hstr. unfold deserialize.
  destruct v as [|b|n|t|s|l|ms];
    try (unfold serialize; by rewrite JSON_parse_stringify).
  cbn [serialize]. by rewrite (Hstr s).
Qed.

Lemma skip_ws_length s : (length (skip_ws s) <= length s)%nat.
Proof.
  induction s as [|c s IH]; cbn [skip_ws length]; [lia|].
  destruct (is_ws c); cbn [length]; lia.
Qed.

(** A string literal is longer than the string it denotes. *)
Lemma parse_string_body_length t str r :
  parse_string_body t = Some (str, r) -> (length str < length t)%nat.
Proof.
  remember (length t) as n eqn:Hn. revert t str r Hn.
  induction n as [n IH] using lt_wf_ind. intros t str r Hn.
  destruct t as [|c t]; [done|]. cbn [parse_string_body].
  destruct (c =? 34); [intros [= <- <-]; simpl in *; lia|].
  destruct (c =? 92).
  - destruct t as [|e t]; [done|].
    destruct (e =? 117).
    + destruct t as [|h1 [|h2 [|h3 [|h4 t]]]]; try done.
      destruct (hex_val h1), (hex_val h2), (hex_val h3), (hex_val h4); try done.
      destruct (parse_string_body t) as [[str' r']|] eqn:Hrec; [|done].
      intros [= <- <-]. apply (IH (length t)) in Hrec; simpl in *; lia.
    + destruct (unescape e); [|done].
      destruct (parse_string_body t) as [[str' r']|] eqn:Hrec; [|done].
      intros [= <- <-]. apply (IH (length t)) in Hrec; simpl in *; lia.
  - destruct (c <? 32); [done|].
    destruct (parse_string_body t) as [[str' r']|] eqn:Hrec; [|done].
    intros [= <- <-]. apply (IH (length t)) in Hrec; simpl in *; lia.
Qed.

Lemma parse_number_not_string s str r : parse_number s <> Some (JStr str, r).
Proof.
  unfold parse_number.
  repeat match goal with
         | |- context [match ?x with _ => _ end] => destruct x
         | |- context [if ?x then _ else _] => destruct x
         | |- context [let (_, _) := ?x in _] => destruct x
         end; discriminate.
Qed.

(** A string is not the JSON text of itself. *)
Lemma JSON_parse_not_itself s : JSON_parse s <> Some (JStr s).
Proof.
  unfold JSON_parse.
  destruct (parse_value _ s) as [[v r]|] eqn:Hparse; [|done].
  destruct (skip_ws r); [|done]. intros [= ->].
  pose proof (skip_ws_length s) as Hws.
  cbn [parse_value Nat.add Nat.mul] in Hparse.
  rewrite Nat.add_comm in Hparse. cbn [parse_value Nat.add] in Hparse.
  destruct (skip_ws s) as [|c s'] eqn:Hs; [done|]. cbn [length] in Hws.
  destruct (c =? 123).
  { destruct (skip_ws s'); [done|]. destruct (_ =? 125); [done|].
    by destruct (parse_members _ _) as [[? ?]|]. }
  destruct (c =? 91).
  { destruct (skip_ws s'); [done|]. destruct (_ =? 93); [done|].
    by destruct (parse_elements _ _) as [[? ?]|]. }
  destruct (c =? 34).
  { destruct (parse_string_body s') as [[str r']|] eqn:Hbody; [|done].
    injection Hparse as -> _. apply parse_string_body_length in Hbody. lia. }
  destruct ((c =? 45) || is_digit c); [by apply parse_number_not_string in Hparse|].
  repeat (destruct (starts_with _ _); [done|]). done.
Qed.

End JsonRoundTrip.


(** ** The page scan *)

Local Opaque Nat.mul.

(** With fuel for its rounds, the loop of [deleteByPattern] and [clear]
    returns the keys so far and then every key from the cursor on that
    matches the pattern, and it leaves the keyspace as it was. *)
Lemma scan_keys_complete fuel pattern cursor keys c :
  let all := (map_to_list (Redis.keyspace (redis c))).*1 in
  (length all < cursor + 100 * fuel)%nat ->
  result (scan_keys fuel pattern cursor keys) c =
    Return (keys ++ List.filter (Redis.matches pattern) (drop cursor all)) /\
  Redis.keyspace (redis (after (scan_keys fuel pattern cursor keys) c)) =
    Redis.keyspace (redis c).
Proof.
  revert cursor keys c. induction fuel as [|f IH]; intros cursor keys c all Hfuel.
  { rewrite Nat.mul_0_r, Nat.add_0_r in Hfuel.
    cbn [scan_keys]. run_M. rewrite drop_ge by lia. by rewrite app_nil_r. }
  cbn [scan_keys]. unfold Redis.scan. run_M. fold all.
  destruct (Nat.ltb_spec (cursor + 100) (length all)) as [Hmore|Hlast].
  - replace (cursor + 100)%nat with (S (cursor + 99)) by lia.
    set (c1 := with_redis _ c).
    destruct (IH (S (cursor + 99)) (keys ++ List.filter (Redis.matches pattern)
                                              (take 100 (drop cursor all))) c1)
      as [Hres Hks]; [subst c1 all; simpl in *; lia|].
    unfold result, after in *. subst c1. simpl in Hres, Hks.
    destruct (scan_keys f pattern _ _ _) as [o c2]. simpl in *. subst o.
    split; [|done]. f_equal. rewrite <- app_assoc. f_equal.
    rewrite <- List.filter_app. f_equal.
    replace (S (cursor + 99)) with (cursor + 100)%nat by lia.
    rewrite <- drop_drop. apply take_drop.
  - simpl. split; [|done]. do 3 f_equal. apply take_ge.
    rewrite length_drop. lia.
Qed.

(** The fuel that [deleteByPattern] and [clear] give the loop is enough. *)
Lemma scan_keys_all pattern c :
  result (scan_keys (scan_fuel c) pattern 0 []) c =
    Return (List.filter (Redis.matches pattern)
              (map_to_list (Redis.keyspace (redis c))).*1).
Proof.
  apply scan_keys_complete. unfold scan_fuel.
  rewrite length_fmap, length_map_to_list. lia.
Qed.

Local Transparent Nat.mul.

(** ** [set] then [get] *)

Section SetThenGet.

Context `{Platform}.

(** The state after [set(k, v)] on a key without a metadata record. *)
Lemma set_plain_state c k v :
  validateKey k = Return tt ->
  Redis.keyspace (redis c) !! meta_key (default_key c k) = None ->
  let compressed := enableCompression (config c) && shouldCompress (serialize v) in
  exists c1 ttl mttl,
    set k v no_set_options c = (Return true, c1) /\
    config c1 = config c /\
    Redis.keyspace (redis c1) !! default_key c k =
      Some {| Redis.r_value := Redis.RString (payload_of c v); Redis.r_ttl := ttl |} /\
    Redis.keyspace (redis c1) !! meta_key (default_key c k) =
      if compressed
      then Some {| Redis.r_value :=
                     Redis.RHash (Redis.fields_set (metadata_fields true []) []);
                   Redis.r_ttl := mttl |}
      else None.
Proof.
  intros Hvalid Hmeta compressed. subst compressed.
  unfold set, payload_of, default_key in *.
  unfold count_set, emitEvent. run_M. rewrite Hvalid. simpl.
  set (cacheKey := generateCacheKey _ _ _) in *. clearbody cacheKey.
  destruct (enableCompression (config c) && shouldCompress (serialize v)) eqn:Hc;
    simpl; redis_run; rewrite ?Hmeta; simpl;
    destruct (0 <? defaultTtl (config c)) eqn:Httl; redis_run; rewrite ?Httl; redis_run.
  all: eexists _, _, _; (split; [reflexivity|]); simpl; redis_run; rewrite ?Hmeta; try done.
  Unshelve. all: exact None.
Qed.

Lemma get_uncompressed c k s ttl :
  validateKey k = Return tt ->
  Redis.keyspace (redis c) !! default_key c k =
    Some {| Redis.r_value := Redis.RString s; Redis.r_ttl := ttl |} ->
  Redis.keyspace (redis c) !! meta_key (default_key c k) = None ->
  result (get k no_get_options) c = Return (deserialize s).
Proof.
  intros Hvalid Hk Hmeta. unfold get, default_key, all2 in *.
  unfold count_hit, emitEvent. run_M. rewrite Hvalid. simpl.
  set (cacheKey := generateCacheKey _ _ _) in *. clearbody cacheKey.
  redis_run. rewrite Hk. redis_run. rewrite Hmeta. reflexivity.
Qed.

Lemma compressed_field b tags :
  field_get (js "compressed") (Redis.fields_set (metadata_fields b tags) []) =
    Some (bool_field b).
Proof. reflexivity. Qed.

Lemma get_compressed c k s ttl mttl fields text :
  validateKey k = Return tt ->
  Redis.keyspace (redis c) !! default_key c k =
    Some {| Redis.r_value := Redis.RString s; Redis.r_ttl := ttl |} ->
  Redis.keyspace (redis c) !! meta_key (default_key c k) =
    Some {| Redis.r_value := Redis.RHash fields; Redis.r_ttl := mttl |} ->
  field_get (js "compressed") fields = Some (js "true") ->
  gunzip_utf8 (Buffer_from_binary s) = Return text ->
  result (get k no_get_options) c = Return (deserialize text).
Proof.
  intros Hvalid Hk Hmeta Hflag Hgunzip. unfold get, default_key, all2 in *.
  unfold count_hit, emitEvent, decompress. run_M. rewrite Hvalid. simpl.
  set (cacheKey := generateCacheKey _ _ _) in *. clearbody cacheKey.
  redis_run. rewrite Hk. redis_run. rewrite Hmeta. simpl. rewrite Hflag. simpl.
  try rewrite bool_decide_eq_true_2 by done. simpl. by rewrite Hgunzip.
Qed.

(** [set(k, v)] then [get(k)]: the value goes through [serialize] and
    [deserialize], and through the compressor when its text is long. *)
Lemma set_then_get c k v :
  validateKey k = Return tt ->
  Redis.keyspace (redis c) !! meta_key (default_key c k) = None ->
  (enableCompression (config c) && shouldCompress (serialize v) = true ->
   gunzip_utf8 (Buffer_from_binary (reply_of_Buffer (gzip_utf8 (serialize v))))
   = Return (serialize v)) ->
  result (set k v no_set_options) c = Return true /\
  result (get k no_get_options) (after (set k v no_set_options) c)
  = Return (deserialize (serialize v)).
Proof.
  intros Hvalid Hmeta Hlossless.
  destruct (set_plain_state c k v Hvalid Hmeta)
    as (c1 & ttl & mttl & Hset & Hcfg & Hk & Hm).
  unfold after, result. rewrite Hset. simpl. split; [done|].
  assert (Hkey : default_key c1 k = default_key c k) by (unfold default_key; by rewrite Hcfg).
  unfold payload_of in Hk.
  destruct (enableCompression (config c) && shouldCompress (serialize v)) eqn:Hc.
  - eapply get_compressed; rewrite ?Hkey; eauto using compressed_field.
  - eapply get_uncompressed; rewrite ?Hkey; eauto.
Qed.


End SetThenGet.


Section RoundTripExamples.

#[local] Existing Instance reference_platform.



End RoundTripExamples.

(** * Further properties

    What the helpers, the core operations and the scheduler do beyond the
    cases above: their edge cases, what they leave alone, and how their
    calls compose. *)

(** ** Cache keys *)

Section Keys.

(** A list that ends with [x] is joined as its other parts, each with the
    separator, and then [x]. *)
Lemma join_last sep parts (x : jsstring) :
  join sep (parts ++ [x]) = List.concat (List.map (fun p => p ++ sep) parts) ++ x.
Proof.
  induction parts as [|p ps IH]; [done|].
  change ((p :: ps) ++ [x]) with (p :: (ps ++ [x])).
  cbn [List.map List.concat]. rewrite <- !app_assoc, <- IH.
  by destruct ps.
Qed.

Lemma generateCacheKey_app key suffix namespace keyPrefix :
  generateCacheKey (key ++ suffix) namespace keyPrefix
  = generateCacheKey key namespace keyPrefix ++ suffix.
Proof.
  unfold generateCacheKey. rewrite !app_assoc, !join_last. by rewrite <- !app_assoc.
Qed.

(** X1: with the same namespace and the same prefix, [generateCacheKey]
    gives two keys the same cache key only when they are the same key: the
    entries of one namespace do not collide. *)
Theorem generateCacheKey_injective key1 key2 namespace keyPrefix :
  generateCacheKey key1 namespace keyPrefix = generateCacheKey key2 namespace keyPrefix
  <-> key1 = key2.
Proof.
  split; [|by intros ->].
  unfold generateCacheKey. rewrite !app_assoc, !join_last. apply app_inv_head.
Qed.

(** X2: the cache key of the key [k:meta] is the key under which [set]
    keeps the metadata of the key [k], in every namespace and with every
    prefix: the primary record of the one entry is the metadata record of
    the other. *)
Theorem key_with_meta_suffix_is_metadata_key key namespace keyPrefix :
  generateCacheKey (key ++ js ":meta") namespace keyPrefix
  = meta_key (generateCacheKey key namespace keyPrefix).
Proof. apply generateCacheKey_app. Qed.

(** X3: the separator is not escaped.  The key [a:b] in a namespace [n]
    and the key [b] in the namespace [n:a] have the same cache key. *)
Theorem namespace_separator_collision a b c namespace keyPrefix :
  generateCacheKey (a ++ js ":" ++ b) (Some (c :: namespace)) keyPrefix
  = generateCacheKey b (Some ((c :: namespace) ++ js ":" ++ a)) keyPrefix.
Proof.
  unfold generateCacheKey. rewrite !app_assoc, !join_last.
  rewrite !List.map_app, !List.concat_app. cbn [pushed app List.map List.concat].
  rewrite !app_nil_r, <- !app_assoc. f_equal.
  change (c :: namespace ++ js ":") with ((c :: namespace) ++ js ":").
  change (c :: namespace ++ js ":" ++ a ++ js ":")
    with ((c :: namespace) ++ js ":" ++ a ++ js ":").
  by rewrite <- !app_assoc.
Qed.

End Keys.

(** ** The size test of the compression *)

Section Compression.

(** A code unit takes one to three bytes (a surrogate pair four for two). *)
Lemma utf8_byteLength_bounds s :
  Z.of_nat (length s) <= utf8_byteLength s <= 3 * Z.of_nat (length s).
Proof.
  remember (length s) as n eqn:Hn. revert s Hn.
  induction n as [n IH] using lt_wf_ind. intros s Hn.
  destruct s as [|c s]; [simpl in *; subst; lia|].
  cbn [utf8_byteLength].
  pose proof (IH (length s) ltac:(simpl in Hn; lia) s eq_refl) as Hs.
  destruct (c <? 128)%N; [simpl in Hn; lia|].
  destruct (c <? 2048)%N; [simpl in Hn; lia|].
  destruct (is_high_surrogate c); [|simpl in Hn; lia].
  destruct s as [|d s']; [simpl in *; lia|]. cbv iota.
  destruct (is_low_surrogate d); [|cbn [length] in *; lia].
  pose proof (IH (length s') ltac:(simpl in Hn; lia) s' eq_refl) as Hs'.
  simpl in Hn. lia.
Qed.

Lemma utf8_byteLength_ascii s :
  Forall (fun c => (c < 128)%N) s -> utf8_byteLength s = Z.of_nat (length s).
Proof.
  induction 1 as [|c s Hc Hs IH]; [done|].
  cbn [utf8_byteLength length]. apply N.ltb_lt in Hc. rewrite Hc. lia.
Qed.

(** X4: [shouldCompress] compares the UTF-8 length of the text with 1024,
    strictly.  A text of at most 341 code units is never compressed, one of
    more than 1024 code units always is, and an ASCII text is compressed
    exactly when it has more than 1024 characters. *)
Theorem shouldCompress_by_length s :
  ((length s <= 341)%nat -> shouldCompress s = false) /\
  ((1024 < length s)%nat -> shouldCompress s = true) /\
  (Forall (fun c => (c < 128)%N) s -> shouldCompress s = (1024 <? length s)%nat).
Proof.
  unfold shouldCompress, shouldCompress_at.
  pose proof (utf8_byteLength_bounds s) as Hb.
  split; [|split].
  - intros Hl. apply Z.ltb_ge. lia.
  - intros Hl. apply Z.ltb_lt. lia.
  - intros Hascii. rewrite utf8_byteLength_ascii by done.
    destruct (Nat.ltb_spec 1024 (length s)); [apply Z.ltb_lt|apply Z.ltb_ge]; lia.
Qed.

(** X4 on 1024 letters, and on 1024 accented letters of two bytes each. *)
Lemma shouldCompress_by_length_witness :
  shouldCompress (repeat 97%N 1024) = false /\
  shouldCompress (repeat 233%N 1024) = true.
Proof.
  split.
  - destruct (shouldCompress_by_length (repeat 97%N 1024)) as (_ & _ & Hascii).
    rewrite Hascii; [reflexivity|]. apply Forall_forall. intros x Hx.
    apply list_elem_of_In, repeat_spec in Hx. by subst.
  - vm_compute. reflexivity.
Defined.

End Compression.

(** ** [retry] *)

Section Retry.

Context {A : Type}.

(** The loop from round [i] on, when call [j] is the first that succeeds. *)
Lemma retry_from_success (fn : nat -> outcome A) attempts baseDelay j a :
  forall d fuel i lastError waited,
    j = (i + d)%nat -> (d < fuel)%nat -> Z.of_nat j < attempts ->
    (forall k, (i <= k < j)%nat -> exists e, fn k = Throw e) ->
    fn j = Return a ->
    retry_from fn attempts baseDelay fuel i lastError waited
    = (Fulfilled a,
       waited ++ List.map (fun k => baseDelay * 2 ^ Z.of_nat k) (seq i d)).
Proof.
  induction d as [|d IH]; intros fuel i lastError waited Hj Hfuel Hlt Hfail Hok.
  - rewrite Nat.add_0_r in Hj. subst j.
    destruct fuel as [|fuel]; [lia|]. cbn [retry_from seq List.map].
    rewrite (proj2 (Z.ltb_lt _ _) Hlt), Hok. by rewrite app_nil_r.
  - destruct fuel as [|fuel]; [lia|]. cbn [retry_from seq List.map].
    rewrite (proj2 (Z.ltb_lt (Z.of_nat i) attempts)) by lia.
    destruct (Hfail i) as [e ->]; [lia|].
    rewrite (proj2 (Z.eqb_neq (Z.of_nat i) (attempts - 1))) by lia.
    rewrite (IH fuel (S i) (Some e) (waited ++ [baseDelay * 2 ^ Z.of_nat i]));
      [by rewrite <- app_assoc|lia|lia|done| |done].
    intros k Hk. apply Hfail. lia.
Qed.

(** The loop from round [i] on, when every call fails. *)
Lemma retry_from_exhausted (fn : nat -> outcome A) attempts baseDelay err :
  forall d fuel i lastError waited,
    Z.of_nat (i + d) = attempts - 1 -> (d < fuel)%nat ->
    (forall k, Z.of_nat k < attempts -> fn k = Throw (err k)) ->
    retry_from fn attempts baseDelay fuel i lastError waited
    = (Rejected (err (i + d)%nat),
       waited ++ List.map (fun k => baseDelay * 2 ^ Z.of_nat k) (seq i d)).
Proof.
  induction d as [|d IH]; intros fuel i lastError waited Hlast Hfuel Hfail.
  - rewrite Nat.add_0_r in *.
    destruct fuel as [|fuel]; [lia|]. cbn [retry_from seq List.map].
    rewrite (proj2 (Z.ltb_lt (Z.of_nat i) attempts)) by lia.
    rewrite Hfail by lia.
    rewrite (proj2 (Z.eqb_eq (Z.of_nat i) (attempts - 1))) by lia.
    by rewrite app_nil_r.
  - destruct fuel as [|fuel]; [lia|]. cbn [retry_from seq List.map].
    rewrite (proj2 (Z.ltb_lt (Z.of_nat i) attempts)) by lia.
    rewrite Hfail by lia.
    rewrite (proj2 (Z.eqb_neq (Z.of_nat i) (attempts - 1))) by lia.
    rewrite (IH fuel (S i) (Some (err i)) (waited ++ [baseDelay * 2 ^ Z.of_nat i]));
      [|lia|lia|done].
    rewrite <- app_assoc. by replace (S i + d)%nat with (i + S d)%nat by lia.
Qed.

Lemma retry_from_undefined (fn : nat -> outcome A) attempts baseDelay :
  forall fuel i lastError waited,
    fst (retry_from fn attempts baseDelay fuel i lastError waited) = RejectedUndefined ->
    lastError = None /\ (fuel = O \/ attempts <= Z.of_nat i).
Proof.
  induction fuel as [|fuel IH]; intros i lastError waited; cbn [retry_from].
  - destruct lastError; [done|]. intros _. split; [done|by left].
  - destruct (Z.ltb_spec (Z.of_nat i) attempts).
    + destruct (fn i) as [a|e]; [done|].
      destruct (Z.of_nat i =? attempts - 1); [done|].
      intros Hu. by apply IH in Hu as [? _].
    + destruct lastError; [done|]. intros _. split; [done|by right].
Qed.

Lemma backoff_total baseDelay n :
  fold_right Z.add 0 (List.map (fun k => baseDelay * 2 ^ Z.of_nat k) (seq 0 n))
  = baseDelay * (2 ^ Z.of_nat n - 1).
Proof.
  induction n as [|n IH]; [simpl; lia|].
  rewrite seq_S, List.map_app, fold_right_app. cbn [List.map fold_right Nat.add].
  assert (Hgen : forall l z, fold_right Z.add z l = fold_right Z.add 0 l + z).
  { induction l as [|x l IHl]; intros z; cbn [fold_right]; [lia|]. rewrite IHl. lia. }
  rewrite Hgen, IH. rewrite Nat2Z.inj_succ, Z.pow_succ_r by lia. lia.
Qed.

(** X5: when the calls of [fn] before call [j] throw, call [j] returns [a]
    and [j] is below [attempts], [retry] resolves with [a] after [j] calls of
    [delay], with [baseDelay], [2 * baseDelay], [4 * baseDelay] and so on:
    [fn] is called [j + 1] times and no more. *)
Theorem retry_first_success (fn : nat -> outcome A) (attempts baseDelay : Z)
    (j : nat) (a : A) :
  Z.of_nat j < attempts ->
  (forall k, (k < j)%nat -> exists e, fn k = Throw e) ->
  fn j = Return a ->
  retry fn attempts baseDelay
  = (Fulfilled a, List.map (fun k => baseDelay * 2 ^ Z.of_nat k) (seq 0 j)).
Proof.
  intros Hlt Hfail Hok. unfold retry.
  rewrite (retry_from_success fn attempts baseDelay j a j); [done|done|lia|done| |done].
  intros k Hk. apply Hfail. lia.
Qed.

(** X6: when [attempts] is positive and each of the first [attempts] calls
    of [fn] throws, [retry] rejects with the error of the last of them; it
    has waited between the calls and not after the last, [attempts - 1]
    delays that add up to [baseDelay * (2 ^ (attempts - 1) - 1)]. *)
Theorem retry_exhausted (fn : nat -> outcome A) (attempts baseDelay : Z)
    (err : nat -> js_error) :
  0 < attempts ->
  (forall k, Z.of_nat k < attempts -> fn k = Throw (err k)) ->
  let last := Z.to_nat (attempts - 1) in
  retry fn attempts baseDelay
  = (Rejected (err last), List.map (fun k => baseDelay * 2 ^ Z.of_nat k) (seq 0 last)) /\
  fold_right Z.add 0 (snd (retry fn attempts baseDelay))
  = baseDelay * (2 ^ (attempts - 1) - 1).
Proof.
  intros Hpos Hfail last.
  assert (Hretry : retry fn attempts baseDelay
    = (Rejected (err last),
       List.map (fun k => baseDelay * 2 ^ Z.of_nat k) (seq 0 last))).
  { unfold retry.
    rewrite (retry_from_exhausted fn attempts baseDelay err last); subst last;
      [done|lia|lia|done]. }
  split; [done|]. rewrite Hretry. cbn [snd]. rewrite backoff_total.
  subst last. by rewrite Z2Nat.id by lia.
Qed.

(** X7: [retry] rejects with [undefined], and not with an error, exactly
    when [attempts] is not positive: the loop does not run, [fn] is not
    called, and [lastError] was never assigned. *)
Theorem retry_rejects_undefined_iff (fn : nat -> outcome A) (attempts baseDelay : Z) :
  fst (retry fn attempts baseDelay) = RejectedUndefined <-> attempts <= 0.
Proof.
  unfold retry. split.
  - intros Hu. apply retry_from_undefined in Hu as [_ [Hfuel|Hle]]; lia.
  - intros Hle. by rewrite Z2Nat.nonpos.
Qed.

End Retry.

Section RetryExamples.

(** X5 on a routine that fails twice, with three attempts and a base delay
    of 10 ms. *)
Lemma retry_first_success_witness :
  retry (fun k => if (k <? 2)%nat then Throw (Error (js "fail")) else Return 7) 3 10
  = (Fulfilled 7, [10; 20]).
Proof.
  apply (retry_first_success
           (fun k => if (k <? 2)%nat then Throw (Error (js "fail")) else Return 7)
           3 10 2 7).
  - lia.
  - intros k Hk. exists (Error (js "fail")).
    destruct k as [|[|k]]; [reflexivity|reflexivity|lia].
  - reflexivity.
Defined.

(** X6 on a routine that always fails, with two attempts. *)
Lemma retry_exhausted_witness :
  retry (A := Z) (fun k => Throw (Error (js "persistent failure"))) 2 10
  = (Rejected (Error (js "persistent failure")), [10]).
Proof.
  destruct (retry_exhausted (A := Z) (fun k => Throw (Error (js "persistent failure")))
              2 10 (fun _ => Error (js "persistent failure"))) as [Hretry _].
  - lia.
  - reflexivity.
  - exact Hretry.
Defined.

End RetryExamples.

(** ** [parseTtl] on a string *)

Section ParseTtl.

Lemma is_str_ws_digit d : is_digit d = true -> is_str_ws d = false.
Proof.
  unfold is_digit, is_str_ws. rewrite andb_true_iff, !N.leb_le. intros [Hlo Hhi].
  repeat match goal with
         | |- context [(d =? ?k)%N] => destruct (N.eqb_spec d k); [lia|]
         end.
  destruct (N.leb_spec 8192 d); [lia|]. done.
Qed.

Lemma take_digits_stop u rest :
  match rest with c :: _ => is_digit c = false | [] => True end ->
  take_digits (uint_units u ++ rest) = (uint_units u, rest).
Proof.
  intros Hrest.
  assert (Hstop : take_digits rest = ([], rest)).
  { destruct rest as [|c rest]; [done|]. cbn [take_digits]. by rewrite Hrest. }
  induction u; cbn [uint_units app take_digits]; [done|..];
    match goal with
    | |- context [is_digit ?c] => change (is_digit c) with true
    end; cbv iota; by rewrite IHu.
Qed.

(** [parseInt] reads a number back from its decimal text, whatever follows
    the digits. *)
Lemma parseInt_number n rest :
  match rest with c :: _ => is_digit c = false | [] => True end ->
  parseInt (number_to_string n ++ rest) = Some n.
Proof.
  intros Hrest. unfold number_to_string.
  destruct (to_uint_digits (Z.abs_N n)) as (d & ds & Hunits & Hd & _).
  assert (Hvalue : Z.of_N (N.of_uint (units_uint (d :: ds))) = Z.abs n).
  { by rewrite <- Hunits, units_uint_units, DecimalN.Unsigned.of_to, N2Z.inj_abs_N. }
  unfold parseInt.
  destruct (Z.ltb_spec n 0) as [Hneg|Hpos].
  - cbn [app trim_start]. change (is_str_ws 45) with false. cbv iota.
    change (45 =? 45)%N with true. cbv iota.
    rewrite take_digits_stop by done. rewrite Hunits, Hvalue. f_equal. lia.
  - rewrite app_nil_l, Hunits. cbn [app trim_start].
    rewrite (is_str_ws_digit d Hd).
    assert (Hsign : (d =? 45)%N = false /\ (d =? 43)%N = false).
    { unfold is_digit in Hd. rewrite andb_true_iff, !N.leb_le in Hd.
      split; apply N.eqb_neq; lia. }
    destruct Hsign as [-> ->].
    change (d :: ds ++ rest) with ((d :: ds) ++ rest). rewrite <- Hunits.
    rewrite take_digits_stop by done. rewrite Hunits, Hvalue. f_equal. lia.
Qed.



End ParseTtl.

(** ** Keys that are refused *)

(** Closes a goal on the counters after the definitions were run. *)
Ltac stats_eq :=
  unfold stats_plus; simpl;
  repeat match goal with |- context [stats ?c] => destruct (stats c) end;
  simpl; f_equal; lia.

Section Validation.

Context `{Platform}.

Lemma validateKey_invalid key :
  (key = [] \/ (250 < length key)%nat \/
   Exists (fun ch => ch = 13 \/ ch = 10 \/ ch = 9 \/ ch = 0)%N key)
  <-> exists e, validateKey key = Throw e.
Proof.
  unfold validateKey. destruct key as [|ch key]; [split; [by eexists|by left]|].
  destruct (Nat.ltb_spec 250 (length (ch :: key))) as [Hlong|Hshort].
  { split; [by eexists|]. intros _. right. by left. }
  destruct (existsb is_invalid_char (ch :: key)) eqn:Hchars.
  - split; [by eexists|]. intros _. right. right.
    apply existsb_exists in Hchars as (x & Hin & Hx).
    apply List.Exists_exists. exists x. split; [done|].
    unfold is_invalid_char in Hx. rewrite !orb_true_iff, !N.eqb_eq in Hx. tauto.
  - split; [|by intros [e ?]].
    intros [?|[?|Hex]]; [done|lia|].
    apply List.Exists_exists in Hex as (x & Hin & Hx).
    assert (Hnone : existsb is_invalid_char (ch :: key) = true); [|congruence].
    apply existsb_exists. exists x. split; [done|].
    unfold is_invalid_char. rewrite !orb_true_iff, !N.eqb_eq. tauto.
Qed.

Lemma set_invalid key value options e c :
  validateKey key = Throw e ->
  refused (set key value options) (Some key) (so_namespace options) e c.
Proof.
  intros Hkey. unfold refused, set, report, count_error, emitEvent. run_M.
  rewrite Hkey. simpl. repeat split; try done. stats_eq.
Qed.

Lemma get_invalid key options e c :
  validateKey key = Throw e ->
  refused (get key options) (Some key) (go_namespace options) e c.
Proof.
  intros Hkey. unfold refused, get, report, count_error, emitEvent. run_M.
  rewrite Hkey. simpl. repeat split; try done. stats_eq.
Qed.

Lemma del_invalid key options e c :
  validateKey key = Throw e ->
  refused (del key options) (Some key) (do_namespace options) e c.
Proof.
  intros Hkey. unfold refused, del, report, count_error, emitEvent. run_M.
  rewrite Hkey. simpl. repeat split; try done. stats_eq.
Qed.


End Validation.

(** ** The outcomes of [get] *)

Section GetOutcomes.

Context `{Platform}.

#[local] Arguments js : simpl never.

(** [get] on a key whose primary record is absent. *)
Lemma get_absent c key options :
  validateKey key = Return tt ->
  Redis.keyspace (redis c) !! get_key c key options = None ->
  not_a_string c (meta_key (get_key c key options)) ->
  let namespace := or_str (go_namespace options) (defaultNamespace (config c)) in
  let cacheKey := get_key c key options in
  let c' := after (get key options) c in
  result (get key options) c = Return (default JNull (go_defaultValue options)) /\
  Redis.keyspace (redis c') = Redis.keyspace (redis c) /\
  issued c c' = [Redis.GET cacheKey; Redis.HGETALL (meta_key cacheKey)] /\
  stats c' = stats_plus (stats c) 0 1 0 0 0 /\
  emitted c' = emitted c ++ [event_of miss (Some key) (Some namespace) NoData].
Proof.
  intros Hvalid Hk Hmeta. simpl. unfold get, get_key, all2 in *.
  unfold count_miss, emitEvent. run_M. rewrite Hvalid. simpl.
  set (cacheKey := generateCacheKey _ _ _) in *. clearbody cacheKey.
  unfold Redis.get, Redis.hgetall. simpl. rewrite Hk. simpl.
  destruct (Redis.keyspace (redis c) !! meta_key cacheKey) as [[[x|fields] mttl]|] eqn:Hm;
    [by destruct (Hmeta x mttl)| |]; simpl;
    (repeat split;
     first [done | apply issued_app; simpl; by rewrite <- ?app_assoc | stats_eq]).
Qed.

(** X10: for a valid key whose primary record is absent (its metadata key
    holding no plain string), [get] returns [options.defaultValue], or
    [null] without one; it sends [GET] and [HGETALL] and nothing else, even
    with [refreshTtl]; it leaves the store as it was, counts one miss and
    emits one [miss] event with the key and the effective namespace. *)
Theorem get_miss (c : Cache) (key : jsstring) (options : GetOptions) :
  validateKey key = Return tt ->
  Redis.keyspace (redis c) !! get_key c key options = None ->
  not_a_string c (meta_key (get_key c key options)) ->
  let namespace := or_str (go_namespace options) (defaultNamespace (config c)) in
  let cacheKey := get_key c key options in
  let c' := after (get key options) c in
  result (get key options) c = Return (default JNull (go_defaultValue options)) /\
  Redis.keyspace (redis c') = Redis.keyspace (redis c) /\
  issued c c' = [Redis.GET cacheKey; Redis.HGETALL (meta_key cacheKey)] /\
  stats c' = stats_plus (stats c) 0 1 0 0 0 /\
  emitted c' = emitted c ++ [event_of miss (Some key) (Some namespace) NoData].
Proof. apply get_absent. Qed.

(** X11: whatever the key, the options and the store, one call of [get]
    leaves [sets] and [deletes] alone.  When it returns it has counted
    either one hit or one miss, and no error; when it throws it has counted
    one error and no miss, and possibly the hit that came before the
    failure (a value that cannot be decompressed is a hit and an error). *)
Theorem get_counts_once (c : Cache) (key : jsstring) (options : GetOptions) :
  let s := stats c in
  let s' := stats (after (get key options) c) in
  sets s' = sets s /\ deletes s' = deletes s /\
  match result (get key options) c with
  | Return _ =>
      errors s' = errors s /\
      (hits s' = hits s + 1 /\ misses s' = misses s \/
       hits s' = hits s /\ misses s' = misses s + 1)
  | Throw _ =>
      errors s' = errors s + 1 /\ misses s' = misses s /\
      (hits s' = hits s \/ hits s' = hits s + 1)
  end.
Proof.
  simpl. unfold after, result.
  destruct (get key options c) as [o c'] eqn:Hget. simpl.
  unfold get, all2, report, count_error, count_hit, count_miss, emitEvent,
    decompress, parseTtl in Hget.
  run_M.
  destruct (validateKey key) as [[]|e]; simpl in Hget;
    [|injection Hget as <- <-; simpl; intuition lia].
  set (cacheKey := generateCacheKey _ _ _) in Hget. clearbody cacheKey.
  destruct (Redis.get cacheKey (redis c)) as [value r1].
  destruct (Redis.hgetall (meta_key cacheKey) r1) as [metadata r2].
  destruct value as [[value|]|e], metadata as [metadata|e']; simpl in Hget;
    try (injection Hget as <- <-; simpl; intuition lia).
  destruct (go_refreshTtl options) as [[]|], (go_ttl options) as [t|]; simpl in Hget.
  all: repeat first
    [ progress simpl in Hget
    | match type of Hget with
      | context [Redis.expire ?k ?t ?r] => destruct (Redis.expire k t r)
      | context [if ?b then _ else _] => destruct b
      | context [match gunzip_utf8 ?x with _ => _ end] =>
          destruct (gunzip_utf8 x) as [?|[?]]
      | context [match ?x with _ => _ end] => is_var x; destruct x
      end ];
    injection Hget as <- <-; simpl; intuition lia.
Qed.

(** X12: unless the options ask for a refresh with a [ttl] that is not 0,
    [get] only reads: the store is afterwards as it was, whether the call
    returns or throws, and for a valid key the commands sent are the [GET]
    of the primary key and the [HGETALL] of the metadata key. *)
Theorem get_is_read_only (c : Cache) (key : jsstring) (options : GetOptions) :
  truthy_bool (go_refreshTtl options) && truthy_num (go_ttl options) = false ->
  let c' := after (get key options) c in
  Redis.keyspace (redis c') = Redis.keyspace (redis c) /\
  (validateKey key = Return tt ->
   issued c c' = [Redis.GET (get_key c key options);
                  Redis.HGETALL (meta_key (get_key c key options))]).
Proof.
  intros Hrefresh. cbv zeta. unfold after, get_key.
  destruct (get key options c) as [o c'] eqn:Hget. cbn [snd].
  unfold get, all2, report, count_error, count_hit, count_miss, emitEvent,
    decompress, parseTtl in Hget.
  run_M. rewrite Hrefresh in Hget.
  destruct (validateKey key) as [[]|e]; simpl in Hget;
    [|injection Hget as <- <-; by split].
  set (cacheKey := generateCacheKey _ _ _) in *. clearbody cacheKey.
  unfold Redis.get, Redis.hgetall in Hget. simpl in Hget.
  repeat first
    [ progress simpl in Hget
    | match type of Hget with
      | context [match ?x !! ?k with _ => _ end] =>
          destruct (x !! k) as [[[?|?] ?]|]
      | context [if ?b then _ else _] => destruct b
      | context [match gunzip_utf8 ?x with _ => _ end] =>
          destruct (gunzip_utf8 x) as [?|[?]]
      end ];
    injection Hget as <- <-; (split; [done|]); intros _; apply issued_app; simpl;
    by rewrite <- ?app_assoc.
Qed.

End GetOutcomes.

(** ** The outcomes of [set] *)

Section SetOutcomes.

Context `{Platform}.

#[local] Arguments js : simpl never.

Lemma field_get_set name value fields :
  field_get name (Redis.field_set name value fields) = Some value.
Proof.
  induction fields as [|[n v] fields IH]; simpl; [by rewrite decide_True|].
  destruct (decide (n = name)) as [->|Hne]; simpl; [by rewrite decide_True|].
  by rewrite decide_False.
Qed.

Lemma field_get_set_ne name name' value fields :
  name <> name' ->
  field_get name' (Redis.field_set name value fields) = field_get name' fields.
Proof.
  intros Hne. induction fields as [|[n v] fields IH]; simpl; [by rewrite decide_False|].
  destruct (decide (n = name)) as [->|Hn]; simpl.
  - by rewrite !decide_False.
  - destruct (decide (n = name')); [done|apply IH].
Qed.

(** X13: for a valid key, [set] with [nx] on a key that is present, and
    [set] with [xx] (and no [nx]) on a key that is absent, returns [false]
    without throwing.  It has sent the one [SET], with the payload, the
    [EX] and the condition, and nothing else has changed: no record, no
    counter, no event. *)
Theorem set_refused_by_condition (c : Cache) (key : jsstring) (value : jsvalue)
    (options : SetOptions) :
  validateKey key = Return tt ->
  let cfg := config c in
  let cacheKey :=
    generateCacheKey key (Some (or_str (so_namespace options) (defaultNamespace cfg)))
      (Some (keyPrefix cfg)) in
  let ttl := or_num (so_ttl options) (defaultTtl cfg) in
  let serialized :=
    match so_serialize options with Some f => f value | None => serialize value end in
  let isCompressed :=
    match so_compress options with Some b => b | None => enableCompression cfg end
    && shouldCompress serialized in
  let payload :=
    if isCompressed then reply_of_Buffer (gzip_utf8 serialized) else serialized in
  let present := bool_decide (is_Some (Redis.keyspace (redis c) !! cacheKey)) in
  match set_condition_of options with
  | Redis.Always => False
  | Redis.NX => present = true
  | Redis.XX => present = false
  end ->
  set key value options c
  = (Return false,
     with_redis
       (Redis.send
          (Redis.SET cacheKey payload (if 0 <? ttl then Some ttl else None)
             (set_condition_of options))
          (redis c)) c).
Proof.
  intros Hvalid. simpl. intros Hcond. unfold set, parseTtl.
  unfold count_set, emitEvent. run_M. rewrite Hvalid. simpl.
  set (cacheKey := generateCacheKey _ _ _) in *. clearbody cacheKey.
  set (ttl := or_num _ _) in *. clearbody ttl.
  set (serialized := match so_serialize options with Some f => _ | None => _ end) in *.
  clearbody serialized.
  set (isCompressed := _ && shouldCompress serialized) in *. clearbody isCompressed.
  unfold Redis.set. simpl.
  destruct isCompressed, (set_condition_of options); simpl; try done;
    rewrite Hcond; done.
Qed.

(** X14: for a valid key, when the condition of the options allows the
    write ([nx] on an absent key, [xx] on a present one, or neither) and
    the metadata key holds no plain string, [set] returns [true].  The
    primary record then holds the payload (the serialized value, or its
    compressed form when compression applies), expiring after the effective
    time to live when that is positive and never otherwise; when the value
    was compressed or the options carry tags, the metadata record is a hash
    whose [compressed] and [tags] fields are those of this write; no other
    key of the store has changed; one set is counted and one [set] event is
    emitted. *)
Theorem set_stores_the_payload (c : Cache) (key : jsstring) (value : jsvalue)
    (options : SetOptions) :
  validateKey key = Return tt ->
  let cfg := config c in
  let namespace := or_str (so_namespace options) (defaultNamespace cfg) in
  let cacheKey := generateCacheKey key (Some namespace) (Some (keyPrefix cfg)) in
  let ttl := or_num (so_ttl options) (defaultTtl cfg) in
  let serialized :=
    match so_serialize options with Some f => f value | None => serialize value end in
  let isCompressed :=
    match so_compress options with Some b => b | None => enableCompression cfg end
    && shouldCompress serialized in
  let payload :=
    if isCompressed then reply_of_Buffer (gzip_utf8 serialized) else serialized in
  let present := bool_decide (is_Some (Redis.keyspace (redis c) !! cacheKey)) in
  match set_condition_of options with
  | Redis.Always => True
  | Redis.NX => present = false
  | Redis.XX => present = true
  end ->
  not_a_string c (meta_key cacheKey) ->
  let c' := after (set key value options) c in
  result (set key value options) c = Return true /\
  Redis.keyspace (redis c') !! cacheKey =
    Some {| Redis.r_value := Redis.RString payload;
            Redis.r_ttl := if 0 <? ttl then Some ttl else None |} /\
  (isCompressed = true \/ is_Some (so_tags options) ->
   exists fields mttl,
     Redis.keyspace (redis c') !! meta_key cacheKey =
       Some {| Redis.r_value := Redis.RHash fields; Redis.r_ttl := mttl |} /\
     field_get (js "compressed") fields = Some (bool_field isCompressed) /\
     field_get (js "tags") fields = Some (field_of_tags (default [] (so_tags options)))) /\
  (forall k, k <> cacheKey -> k <> meta_key cacheKey ->
     Redis.keyspace (redis c') !! k = Redis.keyspace (redis c) !! k) /\
  stats c' = stats_plus (stats c) 0 0 1 0 0 /\
  emitted c' =
    emitted c ++ [event_of set_ (Some key) (Some namespace) (SetData value options)].
Proof.
  intros Hvalid. simpl. intros Hcond Hmeta. unfold set, parseTtl.
  unfold count_set, emitEvent. run_M. rewrite Hvalid. simpl.
  set (cacheKey := generateCacheKey _ _ _) in *. clearbody cacheKey.
  set (ttl := or_num _ _) in *. clearbody ttl.
  set (serialized := match so_serialize options with Some f => _ | None => _ end) in *.
  clearbody serialized.
  set (isCompressed := _ && shouldCompress serialized) in *. clearbody isCompressed.
  assert (Hallowed :
    match set_condition_of options with
    | Redis.Always => true
    | Redis.NX => negb (bool_decide (is_Some (Redis.keyspace (redis c) !! cacheKey)))
    | Redis.XX => bool_decide (is_Some (Redis.keyspace (redis c) !! cacheKey))
    end = true).
  { destruct (set_condition_of options); [done|by rewrite Hcond|done]. }
  clear Hcond.
  assert (Hor : forall b, b || bool_decide (is_Some (so_tags options)) = false ->
                  b = true \/ is_Some (so_tags options) -> False).
  { intros b Hb [->|Htags]; [done|].
    apply orb_false_iff in Hb as [_ Hb]. by apply bool_decide_eq_false in Hb. }
  destruct (Redis.keyspace (redis c) !! meta_key cacheKey) as [[[x|old] mttl]|] eqn:Hm;
    [by destruct (Hmeta x mttl)| |].
  all: destruct isCompressed; simpl;
    unfold Redis.set; simpl; rewrite Hallowed; simpl;
    destruct (bool_decide (is_Some (so_tags options))) eqn:Htags; simpl;
    unfold Redis.hset, Redis.expire; simpl;
    rewrite ?lookup_meta_insert, ?Hm; simpl;
    destruct (0 <? ttl) eqn:Httl; simpl;
    rewrite ?lookup_insert_eq, ?lookup_meta_insert, ?lookup_insert_meta, ?Hm; simpl.
  all: repeat split;
    first
      [ done
      | stats_eq
      | by rewrite ?lookup_insert_meta, ?lookup_insert_eq
      | intros k Hk Hk'; by rewrite ?lookup_insert_ne by done
      | intros Hw; exfalso; by apply (Hor false)
      | intros _; eexists _, _;
        (split; [by rewrite ?lookup_insert_eq|]);
        split;
        first [ reflexivity
              | apply field_get_set
              | rewrite field_get_set_ne by (by vm_compute); apply field_get_set ] ].
Qed.

(** [set] with [JSON.stringify] as the serializer and without compression. *)
Lemma set_stringified c k v :
  validateKey k = Return tt ->
  let options :=
    {| so_ttl := None; so_namespace := None; so_compress := Some false;
       so_serialize := Some stringify; so_deserialize := None; so_tags := None;
       so_nx := None; so_xx := None |} in
  exists c1 ttl,
    set k v options c = (Return true, c1) /\
    config c1 = config c /\
    Redis.keyspace (redis c1) !! default_key c k =
      Some {| Redis.r_value := Redis.RString (stringify v); Redis.r_ttl := ttl |} /\
    Redis.keyspace (redis c1) !! meta_key (default_key c k) =
      Redis.keyspace (redis c) !! meta_key (default_key c k).
Proof.
  intros Hvalid options. unfold set, default_key, options.
  unfold count_set, emitEvent. run_M. rewrite Hvalid. simpl.
  set (cacheKey := generateCacheKey _ _ _). clearbody cacheKey.
  unfold Redis.set. simpl.
  eexists _, _. split; [reflexivity|]. simpl.
  by rewrite lookup_insert_eq, lookup_meta_insert.
Qed.


End SetOutcomes.

(** ** Deleting one entry *)

Section Deletion.

Context `{Platform}.

#[local] Arguments js : simpl never.

(** [DEL] removes the keys it is given, and no other. *)
Lemma del_keys_lookup (keys : list jsstring) (m : gmap jsstring Redis.rentry) k :
  snd (Redis.del_keys keys m) !! k = if decide (k ∈ keys) then None else m !! k.
Proof.
  revert m. induction keys as [|key keys IH]; intros m; cbn [Redis.del_keys].
  { by rewrite decide_False by apply not_elem_of_nil. }
  destruct (m !! key) as [e|] eqn:Hkey.
  - specialize (IH (delete key m)).
    destruct (Redis.del_keys keys (delete key m)) as [n m']. cbn [snd] in *.
    rewrite IH. destruct (decide (k = key)) as [->|Hne];
      rewrite ?lookup_delete_eq, ?lookup_delete_ne by done;
      destruct (decide (_ ∈ keys)), (decide (_ ∈ key :: keys));
      try done; exfalso;
      first [ by (match goal with Hn : ¬ _ |- _ => apply Hn; first [by left|by right] end)
            | by (match goal with
                  | Hin : _ ∈ _ :: _ |- _ => apply elem_of_cons in Hin as [?|?]
                  end) ].
  - rewrite IH. destruct (decide (k = key)) as [->|Hne];
      destruct (decide (_ ∈ keys)), (decide (_ ∈ key :: keys));
      try done; exfalso;
      first [ by (match goal with Hn : ¬ _ |- _ => apply Hn; first [by left|by right] end)
            | by (match goal with
                  | Hin : _ ∈ _ :: _ |- _ => apply elem_of_cons in Hin as [?|?]
                  end) ].
Qed.

(** [DEL] replies with the number of keys that the store has lost. *)
Lemma del_keys_count (keys : list jsstring) (m : gmap jsstring Redis.rentry) :
  fst (Redis.del_keys keys m)
  = Z.of_nat (size m) - Z.of_nat (size (snd (Redis.del_keys keys m))) /\
  (size (snd (Redis.del_keys keys m)) <= size m)%nat.
Proof.
  revert m. induction keys as [|key keys IH]; intros m; cbn [Redis.del_keys].
  { simpl. lia. }
  destruct (m !! key) as [e|] eqn:Hkey; [|apply IH].
  specialize (IH (delete key m)).
  destruct (Redis.del_keys keys (delete key m)) as [n m']. cbn [fst snd] in *.
  rewrite map_size_delete_Some in IH by by eexists.
  assert (size m <> 0)%nat.
  { intros Hz. apply map_size_empty_inv in Hz. subst. by rewrite lookup_empty in Hkey. }
  lia.
Qed.

Lemma elem_of_matching pattern c k :
  k ∈ matching pattern c <->
  is_Some (Redis.keyspace (redis c) !! k) /\ Redis.matches pattern k = true.
Proof.
  unfold matching. rewrite list_elem_of_In, filter_In, <- list_elem_of_In.
  rewrite list_elem_of_fmap. split.
  - intros [([k' e] & -> & Hin) Hm]. apply elem_of_map_to_list in Hin.
    split; [by eexists|done].
  - intros [[e He] Hm]. split; [|done]. exists (k, e). split; [done|].
    by apply elem_of_map_to_list.
Qed.

(** [del] of one entry. *)
Lemma del_spec c key options :
  validateKey key = Return tt ->
  truthy_str (do_pattern options) = false ->
  let namespace := or_str (do_namespace options) (defaultNamespace (config c)) in
  let cacheKey := generateCacheKey key (Some namespace) (Some (keyPrefix (config c))) in
  let store := Redis.keyspace (redis c) in
  let removed :=
    match store !! cacheKey with Some _ => 1 | None => 0 end +
    match store !! meta_key cacheKey with Some _ => 1 | None => 0 end in
  let c' := after (del key options) c in
  result (del key options) c = Return removed /\
  Redis.keyspace (redis c') = delete (meta_key cacheKey) (delete cacheKey store) /\
  issued c c' = [Redis.DEL [cacheKey; meta_key cacheKey]] /\
  stats c' = stats_plus (stats c) 0 0 0 (if 0 <? removed then 1 else 0) 0 /\
  emitted c' =
    emitted c ++
    (if 0 <? removed then [event_of delete_ (Some key) (Some namespace) NoData] else []) /\
  config c' = config c.
Proof.
  intros Hvalid Hpattern. simpl. unfold del. unfold count_deletes, emitEvent. run_M.
  rewrite Hvalid, Hpattern. simpl.
  set (cacheKey := generateCacheKey _ _ _) in *. clearbody cacheKey.
  unfold Redis.del. simpl.
  destruct (Redis.keyspace (redis c) !! cacheKey) as [e|] eqn:Hk; simpl;
    rewrite ?lookup_meta_delete;
    destruct (Redis.keyspace (redis c) !! meta_key cacheKey) as [e'|] eqn:Hm; simpl;
    repeat split;
    first [ done
          | apply issued_app; simpl; by rewrite <- ?app_assoc
          | stats_eq
          | by rewrite app_nil_r
          | by rewrite ?(delete_id _ (meta_key cacheKey)), ?(delete_id _ cacheKey)
              by by rewrite ?lookup_meta_delete ].
Qed.

(** X16: for a valid key and without a pattern, [del] sends one [DEL] for
    the primary key and the metadata key of the entry.  Afterwards neither
    is in the store and every other key is as it was; the call returns how
    many of the two were there (0, 1 or 2); and when that is not 0 it counts
    one delete and emits one [delete] event, and otherwise neither. *)
Theorem del_removes_both_records (c : Cache) (key : jsstring) (options : DelOptions) :
  validateKey key = Return tt ->
  truthy_str (do_pattern options) = false ->
  let namespace := or_str (do_namespace options) (defaultNamespace (config c)) in
  let cacheKey := generateCacheKey key (Some namespace) (Some (keyPrefix (config c))) in
  let store := Redis.keyspace (redis c) in
  let removed :=
    match store !! cacheKey with Some _ => 1 | None => 0 end +
    match store !! meta_key cacheKey with Some _ => 1 | None => 0 end in
  let c' := after (del key options) c in
  result (del key options) c = Return removed /\
  Redis.keyspace (redis c') = delete (meta_key cacheKey) (delete cacheKey store) /\
  issued c c' = [Redis.DEL [cacheKey; meta_key cacheKey]] /\
  stats c' = stats_plus (stats c) 0 0 0 (if 0 <? removed then 1 else 0) 0 /\
  emitted c' =
    emitted c ++
    (if 0 <? removed then [event_of delete_ (Some key) (Some namespace) NoData] else []).
Proof.
  intros Hvalid Hpattern.
  destruct (del_spec c key options Hvalid Hpattern) as (? & ? & ? & ? & ? & _).
  simpl. done.
Qed.

(** X17: after [del] of a valid key without a pattern, [get] of the same
    key in the same namespace is a miss: it returns the default value, or
    [null], counts one miss, and leaves the store as [del] left it. *)
Theorem del_then_get_misses (c : Cache) (key : jsstring) (doptions : DelOptions)
    (goptions : GetOptions) :
  validateKey key = Return tt ->
  truthy_str (do_pattern doptions) = false ->
  go_namespace goptions = do_namespace doptions ->
  let c1 := after (del key doptions) c in
  let c2 := after (get key goptions) c1 in
  result (get key goptions) c1 = Return (default JNull (go_defaultValue goptions)) /\
  stats c2 = stats_plus (stats c1) 0 1 0 0 0 /\
  Redis.keyspace (redis c2) = Redis.keyspace (redis c1).
Proof.
  intros Hvalid Hpattern Hns c1 c2.
  destruct (del_spec c key doptions Hvalid Hpattern) as (_ & Hstore & _ & _ & _ & Hcfg).
  fold c1 in Hstore, Hcfg.
  assert (Hkey : get_key c1 key goptions
                 = generateCacheKey key
                     (Some (or_str (do_namespace doptions) (defaultNamespace (config c))))
                     (Some (keyPrefix (config c)))).
  { unfold get_key. by rewrite Hcfg, Hns. }
  destruct (get_absent c1 key goptions Hvalid) as (Hr & Hs & _ & Hstats & _).
  - by rewrite Hkey, Hstore, lookup_delete_meta, lookup_delete_eq.
  - intros s ttl. by rewrite Hkey, Hstore, lookup_delete_eq.
  - done.
Qed.

End Deletion.

(** ** Deleting by pattern *)

Section PatternDeletion.

Context `{Platform}.

#[local] Arguments js : simpl never.
#[local] Arguments generateScanPattern : simpl never.
#[local] Arguments scan_fuel : simpl never.

(** The scan loop sends [SCAN]s and changes nothing else. *)
Lemma scan_keys_state fuel pattern cursor keys c :
  exists scans,
    Forall (is_scan pattern) scans /\
    after (scan_keys fuel pattern cursor keys) c
    = with_redis {| Redis.keyspace := Redis.keyspace (redis c);
                    Redis.sent := Redis.sent (redis c) ++ scans |} c.
Proof.
  revert cursor keys c. induction fuel as [|fuel IH]; intros cursor keys c.
  { exists []. split; [constructor|]. cbn [scan_keys]. run_M.
    rewrite app_nil_r. destruct c as [[] ?]; done. }
  cbn [scan_keys]. unfold Redis.scan. run_M.
  set (all := (map_to_list (Redis.keyspace (redis c))).*1).
  destruct (Nat.ltb_spec (cursor + 100) (length all)) as [Hmore|Hlast].
  - replace (cursor + 100)%nat with (S (cursor + 99)) by lia.
    set (c1 := with_redis _ c).
    destruct (IH (S (cursor + 99))
                (keys ++ List.filter (Redis.matches pattern) (take 100 (drop cursor all)))
                c1)
      as (scans & Hscans & Hstate).
    exists (Redis.SCAN cursor pattern 100 :: scans). split.
    { constructor; [by eexists _, _|done]. }
    unfold after in Hstate. rewrite Hstate. subst c1. simpl.
    by rewrite <- app_assoc.
  - exists [Redis.SCAN cursor pattern 100]. split; [|done].
    constructor; [by eexists _, _|constructor].
Qed.

Lemma scan_keys_run pattern c :
  exists scans,
    Forall (is_scan pattern) scans /\
    scan_keys (scan_fuel c) pattern 0 [] c
    = (Return (matching pattern c),
       with_redis {| Redis.keyspace := Redis.keyspace (redis c);
                     Redis.sent := Redis.sent (redis c) ++ scans |} c).
Proof.
  destruct (scan_keys_state (scan_fuel c) pattern 0 [] c) as (scans & Hscans & Hstate).
  exists scans. split; [done|].
  pose proof (scan_keys_all pattern c) as Hres. unfold result, after in *.
  destruct (scan_keys _ _ _ _ _) as [o c1]. simpl in *. by subst.
Qed.

Lemma delete_batch_spec (keys : list jsstring) (store : gmap jsstring Redis.rentry) :
  let batch := keys ++ List.map meta_key keys in
  let store' := snd (Redis.del_keys batch store) in
  fst (Redis.del_keys batch store) = Z.of_nat (size store) - Z.of_nat (size store') /\
  forall k, store' !! k = if decide (k ∈ batch) then None else store !! k.
Proof.
  simpl. split; [apply del_keys_count|]. intros k. apply del_keys_lookup.
Qed.

Lemma deleteByPattern_spec pattern namespace c :
  let scanPattern :=
    generateScanPattern pattern (Some namespace) (Some (keyPrefix (config c))) in
  let keys := matching scanPattern c in
  let batch := keys ++ List.map meta_key keys in
  exists scans,
    Forall (is_scan scanPattern) scans /\
    deleteByPattern pattern namespace c =
      let c1 := with_redis {| Redis.keyspace := Redis.keyspace (redis c);
                              Redis.sent := Redis.sent (redis c) ++ scans |} c in
      match keys with
      | [] => (Return 0, c1)
      | _ :: _ =>
          let (deleted, r) := Redis.del batch (redis c1) in
          (Return deleted,
           with_stats (stats_plus (stats c) 0 0 0 deleted 0) (with_redis r c1))
      end.
Proof.
  intros scanPattern keys batch.
  destruct (scan_keys_run scanPattern c) as (scans & Hscans & Hrun).
  exists scans. split; [done|].
  cbv [deleteByPattern mbind M_bind bind this mret M_ret ret command count_deletes update].
  fold scanPattern. rewrite Hrun. fold keys. subst batch.
  destruct keys as [|k0 keys']; [done|].
  destruct (Redis.del _ _) as [deleted r]. f_equal. f_equal. stats_eq.
Qed.

(** X18: [del] with a pattern (and a valid key, which is otherwise not
    used) scans for the keys of the store that match
    [prefix:namespace:pattern] and removes them and the keys that are their
    names followed by [:meta], in one [DEL]; no other key changes.  It
    returns the number of keys the store has lost and adds that number to
    [deletes] (0 when nothing matches, and then no [DEL] is sent); it emits
    no event. *)
Theorem del_by_pattern (c : Cache) (key : jsstring) (options : DelOptions)
    (p : N) (pattern : jsstring) :
  validateKey key = Return tt ->
  do_pattern options = Some (p :: pattern) ->
  let namespace := or_str (do_namespace options) (defaultNamespace (config c)) in
  let scanPattern :=
    generateScanPattern (p :: pattern) (Some namespace) (Some (keyPrefix (config c))) in
  let keys := matching scanPattern c in
  let batch := keys ++ List.map meta_key keys in
  let store := Redis.keyspace (redis c) in
  let c' := after (del key options) c in
  let store' := Redis.keyspace (redis c') in
  let deleted := Z.of_nat (size store) - Z.of_nat (size store') in
  result (del key options) c = Return deleted /\
  (forall k, store' !! k = if decide (k ∈ batch) then None else store !! k) /\
  (forall k, k ∈ keys <-> is_Some (store !! k) /\ Redis.matches scanPattern k = true) /\
  stats c' = stats_plus (stats c) 0 0 0 deleted 0 /\
  emitted c' = emitted c /\
  exists scans,
    Forall (is_scan scanPattern) scans /\
    issued c c' = scans ++ match keys with [] => [] | _ => [Redis.DEL batch] end.
Proof.
  intros Hvalid Hpattern namespace scanPattern keys batch store c' store' deleted.
  destruct (deleteByPattern_spec (p :: pattern) namespace c) as (scans & Hscans & Hrun).
  fold scanPattern keys batch in Hrun.
  assert (Hdel : del key options c = deleteByPattern (p :: pattern) namespace c).
  { unfold del, try_catch. cbv [mbind M_bind bind this lift].
    rewrite Hvalid, Hpattern. cbn [truthy_str default id]. fold namespace.
    rewrite Hrun. cbv zeta. destruct keys; [done|]. by destruct (Redis.del _ _). }
  pose proof (delete_batch_spec keys store) as [Hcount Hlookup].
  cbv zeta in Hcount, Hlookup. fold batch in Hcount, Hlookup.
  subst deleted store' c'. unfold after, result. rewrite Hdel, Hrun. clear Hdel Hrun.
  split; [|split; [|split; [apply elem_of_matching|]]].
  - destruct keys as [|k0 keys']; cbn [fst snd with_redis redis Redis.keyspace].
    { fold store. f_equal. lia. }
    unfold Redis.del. cbn [Redis.send Redis.keyspace Redis.with_keyspace redis with_redis].
    fold store. destruct (Redis.del_keys batch store) as [n store1].
    cbn [fst snd] in *. by rewrite Hcount.
  - intros k. destruct keys as [|k0 keys']; cbn [fst snd with_redis redis Redis.keyspace].
    { fold store. subst batch. cbn [List.map app].
      by rewrite decide_False by apply not_elem_of_nil. }
    unfold Redis.del. cbn [Redis.send Redis.keyspace Redis.with_keyspace redis with_redis].
    fold store. destruct (Redis.del_keys batch store) as [n store1].
    cbn [fst snd] in *. apply Hlookup.
  - destruct keys as [|k0 keys']; cbn [fst snd with_redis redis stats emitted Redis.keyspace].
    { split; [fold store; stats_eq|]. split; [done|]. exists scans. split; [done|].
      apply issued_app. cbn. by rewrite app_nil_r. }
    unfold Redis.del. cbn [Redis.send Redis.keyspace Redis.with_keyspace redis with_redis].
    fold store. destruct (Redis.del_keys batch store) as [n store1].
    cbn [fst snd] in *. subst n.
    split; [done|]. split; [done|]. exists scans. split; [done|].
    apply issued_app. cbn. by rewrite <- app_assoc.
Qed.

(** X19: [clear] without tags (or with an empty list of tags) scans for
    [prefix:namespace:*] when the options give a namespace, whatever
    pattern they give, and otherwise for [prefix:defaultNamespace:pattern],
    the pattern being [*] when none is given.  It removes the keys that
    match and the keys that are their names followed by [:meta], and no
    other; it returns the number of keys the store has lost and, when some
    key matched, emits one [clear] event with that number and the scan
    pattern.  It changes no counter, [deletes] included. *)
Theorem clear_by_pattern (c : Cache) (options : ClearOptions) :
  match co_tags options with Some (_ :: _) => False | _ => True end ->
  let cfg := config c in
  let pattern :=
    if truthy_str (co_namespace options)
    then generateScanPattern (js "*") (co_namespace options) (Some (keyPrefix cfg))
    else generateScanPattern (or_str (co_pattern options) (js "*"))
           (Some (defaultNamespace cfg)) (Some (keyPrefix cfg)) in
  let keys := matching pattern c in
  let batch := keys ++ List.map meta_key keys in
  let store := Redis.keyspace (redis c) in
  let c' := after (clear options) c in
  let store' := Redis.keyspace (redis c') in
  let deleted := Z.of_nat (size store) - Z.of_nat (size store') in
  result (clear options) c = Return deleted /\
  (forall k, store' !! k = if decide (k ∈ batch) then None else store !! k) /\
  (forall k, k ∈ keys <-> is_Some (store !! k) /\ Redis.matches pattern k = true) /\
  stats c' = stats c /\
  emitted c' =
    emitted c ++
    match keys with
    | [] => []
    | _ => [event_of clear_ None (co_namespace options) (ClearData deleted pattern)]
    end /\
  exists scans,
    Forall (is_scan pattern) scans /\
    issued c c' = scans ++ match keys with [] => [] | _ => [Redis.DEL batch] end.
Proof.
  intros Htags cfg pattern keys batch store c' store' deleted.
  destruct (scan_keys_run pattern c) as (scans & Hscans & Hrun). fold keys in Hrun.
  pose proof (delete_batch_spec keys store) as [Hcount Hlookup].
  cbv zeta in Hcount, Hlookup. fold batch in Hcount, Hlookup.
  assert (Hclear : clear options c =
    let c1 := with_redis {| Redis.keyspace := store;
                            Redis.sent := Redis.sent (redis c) ++ scans |} c in
    match keys with
    | [] => (Return 0, c1)
    | _ :: _ =>
        let (n, r) := Redis.del batch (redis c1) in
        (Return n,
         with_emitted
           (emitted c ++ [event_of clear_ None (co_namespace options) (ClearData n pattern)])
           (with_redis r c1))
    end).
  { unfold clear, try_catch.
    cbv [mbind M_bind bind this mret M_ret ret command emitEvent update].
    assert (Hpat :
      (if truthy_str (co_namespace options)
       then generateScanPattern (js "*") (co_namespace options) (Some (keyPrefix (config c)))
       else if truthy_str (co_pattern options)
       then generateScanPattern (default [] (co_pattern options))
              (Some (defaultNamespace (config c))) (Some (keyPrefix (config c)))
       else generateScanPattern (js "*") (Some (defaultNamespace (config c)))
              (Some (keyPrefix (config c)))) = pattern).
    { subst pattern cfg. destruct (truthy_str (co_namespace options)); [done|].
      by destruct (co_pattern options) as [[|]|]. }
    rewrite Hpat.
    destruct (co_tags options) as [[|tag tags]|]; [|done|];
      rewrite Hrun; subst batch; (destruct keys as [|k0 keys']; [done|]);
      by destruct (Redis.del _ _). }
  subst deleted store' c'. unfold after, result. rewrite Hclear. clear Hclear Hrun.
  cbv zeta.
  split; [|split; [|split; [apply elem_of_matching|]]].
  - destruct keys as [|k0 keys']; cbn [fst snd with_redis redis Redis.keyspace].
    { f_equal. lia. }
    unfold Redis.del. cbn [Redis.send Redis.keyspace Redis.with_keyspace redis with_redis].
    destruct (Redis.del_keys batch store) as [n store1].
    cbn [fst snd] in *. by rewrite Hcount.
  - intros k. destruct keys as [|k0 keys']; cbn [fst snd with_redis redis Redis.keyspace].
    { subst batch. cbn [List.map app].
      by rewrite decide_False by apply not_elem_of_nil. }
    unfold Redis.del. cbn [Redis.send Redis.keyspace Redis.with_keyspace redis with_redis].
    destruct (Redis.del_keys batch store) as [n store1].
    cbn [fst snd] in *. apply Hlookup.
  - destruct keys as [|k0 keys']; cbn [fst snd with_redis redis stats emitted Redis.keyspace].
    { split; [done|]. split; [by rewrite app_nil_r|]. exists scans. split; [done|].
      apply issued_app. cbn. by rewrite app_nil_r. }
    unfold Redis.del. cbn [Redis.send Redis.keyspace Redis.with_keyspace redis with_redis].
    destruct (Redis.del_keys batch store) as [n store1].
    cbn [fst snd] in *. subst n.
    split; [done|]. split; [done|]. exists scans. split; [done|].
    apply issued_app. cbn. by rewrite <- app_assoc.
Qed.

End PatternDeletion.

(** ** What the core operations leave alone *)

(** The rules for [keeps], for a relation that is reflexive and
    transitive. *)

Section Keeps.

Context (R : Cache -> Cache -> Prop) `{!PreOrder R}.

Lemma keeps_ret {A} (P : A -> Prop) a : P a -> keeps R P (mret a).
Proof using Type*. intros Ha c. by split. Qed.

Lemma keeps_throw {A} (P : A -> Prop) e : keeps R P (throw e).
Proof using Type*. intros c. by split. Qed.

Lemma keeps_lift {A} (P : A -> Prop) (o : outcome A) :
  (forall a, o = Return a -> P a) -> keeps R P (lift o).
Proof using Type*. intros Ho c. split; [done|]. unfold lift. simpl. destruct o; auto. Qed.

Lemma keeps_this {A} (P : A -> Prop) (field : Cache -> A) :
  (forall c, P (field c)) -> keeps R P (this field).
Proof using Type*. intros Hf c. split; [reflexivity|apply Hf]. Qed.

Lemma keeps_update (P : unit -> Prop) f :
  (forall c, R c (f c)) -> P tt -> keeps R P (update f).
Proof using Type*. intros Hf Hp c. split; [apply Hf|exact Hp]. Qed.

Lemma keeps_bind {A B} (P : A -> Prop) (Q : B -> Prop) (m : M A) (k : A -> M B) :
  keeps R P m -> (forall a, P a -> keeps R Q (k a)) -> keeps R Q (m ≫= k).
Proof using Type*.
  intros Hm Hk c. specialize (Hm c).
  unfold mbind, M_bind, bind. destruct (m c) as [[a|e] c1]; simpl in *.
  - destruct Hm as [Hr Ha]. specialize (Hk a Ha c1).
    destruct (k a c1) as [o c2]; simpl in *. destruct Hk as [Hr2 Ho].
    split; [by transitivity c1|done].
  - tauto.
Qed.

Lemma keeps_try_catch {A} (P : A -> Prop) (m : M A) handler :
  keeps R P m -> (forall e, keeps R P (handler e)) -> keeps R P (try_catch m handler).
Proof using Type*.
  intros Hm Hh c. specialize (Hm c).
  unfold try_catch. destruct (m c) as [[a|e] c1]; simpl in *; [done|].
  destruct Hm as [Hr _]. specialize (Hh e c1).
  destruct (handler e c1) as [o c2]; simpl in *. destruct Hh as [Hr2 Ho].
  split; [by transitivity c1|done].
Qed.

Lemma keeps_weaken {A} (P Q : A -> Prop) (m : M A) :
  (forall a, P a -> Q a) -> keeps R P m -> keeps R Q m.
Proof using Type*.
  intros Hpq Hm c. specialize (Hm c). destruct (m c) as [[a|e] c1]; simpl in *;
    [split; [tauto|apply Hpq; tauto]|done].
Qed.

Lemma keeps_command {A} (P : A -> Prop) (f : Redis.client -> A * Redis.client) :
  (forall c, R c (with_redis (snd (f (redis c))) c) /\ P (fst (f (redis c)))) ->
  keeps R P (command f).
Proof using Type*. intros Hf c. specialize (Hf c). unfold command. by destruct (f (redis c)). Qed.

Lemma keeps_command_try {A} (P : A -> Prop)
    (f : Redis.client -> outcome A * Redis.client) :
  (forall c, R c (with_redis (snd (f (redis c))) c)) ->
  (forall r a, fst (f r) = Return a -> P a) ->
  keeps R P (command_try f).
Proof using Type*.
  intros Hf Hp c. specialize (Hf c). specialize (Hp (redis c)). unfold command_try.
  destruct (f (redis c)) as [[a|e] r]; simpl in *; [split; [done|by apply Hp]|done].
Qed.

End Keeps.

Section Growth.

Context `{Platform}.

#[local] Arguments js : simpl never.

Lemma stats_le_refl s : stats_le s s.
Proof. unfold stats_le. lia. Qed.

Lemma grows_preorder : PreOrder grows.
Proof.
  split.
  - intros c. unfold grows, stats_le. repeat split; try done; lia.
  - intros c1 c2 c3 (?&?&?&?&?&?&?&?&?&?) (?&?&?&?&?&?&?&?&?&?).
    unfold grows, stats_le in *. repeat split; try congruence; try (by etransitivity); lia.
Qed.

#[local] Existing Instance grows_preorder.

Lemma grows_with_redis r c :
  Redis.sent (redis c) `prefix_of` Redis.sent r -> grows c (with_redis r c).
Proof. intros Hr. unfold grows, stats_le. simpl. repeat split; try done; lia. Qed.

Lemma emitEvent_grows type key namespace data :
  keeps grows (fun _ => True) (emitEvent type key namespace data).
Proof.
  apply (keeps_update grows); [|done]. intros c. unfold grows, stats_le. simpl.
  repeat split; try done; try lia. by apply prefix_app_r.
Qed.

Lemma count_grows (m : M unit) :
  m = count_set \/ m = count_hit \/ m = count_miss \/ m = count_error \/
  (exists n, 0 <= n /\ m = count_deletes n) ->
  keeps grows (fun _ => True) m.
Proof.
  intros Hm. destruct Hm as [->|[->|[->|[->|(n & Hn & ->)]]]];
    (apply (keeps_update grows); [|done]); intros c; unfold grows, stats_le; simpl;
    repeat split; try done; lia.
Qed.

Lemma report_grows {A} (P : A -> Prop) key namespace e :
  keeps grows P (report key namespace e).
Proof.
  unfold report.
  eapply (keeps_bind grows); [apply count_grows; tauto|]. intros _ _.
  eapply (keeps_bind grows); [apply emitEvent_grows|]. intros _ _.
  apply (keeps_throw grows).
Qed.

Lemma del_keys_nonneg (keys : list jsstring) (m : gmap jsstring Redis.rentry) :
  0 <= fst (Redis.del_keys keys m).
Proof.
  revert m. induction keys as [|key keys IH]; intros m; cbn [Redis.del_keys]; [done|].
  destruct (m !! key); [|apply IH].
  specialize (IH (delete key m)). destruct (Redis.del_keys keys (delete key m)).
  simpl in *. lia.
Qed.

(** Every command of the client adds itself to what was sent, and [DEL]
    replies with a number that is not negative. *)
Lemma redis_grows c :
  (forall key payload ex cond,
     grows c (with_redis (snd (Redis.set key payload ex cond (redis c))) c)) /\
  (forall key, grows c (with_redis (snd (Redis.get key (redis c))) c)) /\
  (forall keys : list jsstring,
     grows c (with_redis (snd (Redis.del keys (redis c))) c) /\
                0 <= fst (Redis.del keys (redis c))) /\
  (forall key fields, grows c (with_redis (snd (Redis.hset key fields (redis c))) c)) /\
  (forall key, grows c (with_redis (snd (Redis.hgetall key (redis c))) c)) /\
  (forall key seconds, grows c (with_redis (snd (Redis.expire key seconds (redis c))) c)) /\
  (forall cursor pattern count,
     grows c (with_redis (snd (Redis.scan cursor pattern count (redis c))) c)).
Proof.
  repeat apply conj; intros;
    first [apply grows_with_redis | split; [apply grows_with_redis|]].
  - unfold Redis.set. simpl.
    match goal with |- context [if ?b then _ else _] => destruct b end; simpl;
      by apply prefix_app_r.
  - unfold Redis.get. simpl. destruct (_ !! _) as [[[] ?]|]; simpl; by apply prefix_app_r.
  - unfold Redis.del. simpl. destruct (Redis.del_keys _ _). simpl. by apply prefix_app_r.
  - unfold Redis.del. simpl. pose proof (del_keys_nonneg keys (Redis.keyspace (redis c))).
    by destruct (Redis.del_keys _ _).
  - unfold Redis.hset. simpl. destruct (_ !! _) as [[[] ?]|]; simpl; by apply prefix_app_r.
  - unfold Redis.hgetall. simpl. destruct (_ !! _) as [[[] ?]|]; simpl;
      by apply prefix_app_r.
  - unfold Redis.expire. simpl. destruct (_ !! _); [destruct (0 <? seconds)|]; simpl;
      by apply prefix_app_r.
  - unfold Redis.scan. simpl. by apply prefix_app_r.
Qed.

Lemma command_grows {A} (f : Redis.client -> A * Redis.client) :
  (forall c, grows c (with_redis (snd (f (redis c))) c)) ->
  keeps grows (fun _ => True) (command f).
Proof. intros Hf. apply (keeps_command grows). intros c. by split. Qed.

Lemma command_try_grows {A} (f : Redis.client -> outcome A * Redis.client) :
  (forall c, grows c (with_redis (snd (f (redis c))) c)) ->
  keeps grows (fun _ => True) (command_try f).
Proof. intros Hf. by apply (keeps_command_try grows). Qed.

Lemma del_command_grows (keys : list jsstring) :
  keeps grows (fun n => 0 <= n) (command (Redis.del keys)).
Proof. apply (keeps_command grows). intros c. apply redis_grows. Qed.

Lemma all2_grows {A B} (f : Redis.client -> outcome A * Redis.client)
    (g : Redis.client -> outcome B * Redis.client) :
  (forall c, grows c (with_redis (snd (f (redis c))) c)) ->
  (forall c, grows c (with_redis (snd (g (redis c))) c)) ->
  keeps grows (fun _ => True) (all2 f g).
Proof.
  intros Hf Hg c. unfold all2. specialize (Hf c).
  specialize (Hg (with_redis (snd (f (redis c))) c)).
  destruct (f (redis c)) as [a r1]. simpl in *.
  destruct (g r1) as [b r2]. simpl in *.
  split; [by transitivity (with_redis r1 c)|by destruct a, b].
Qed.

Lemma ret_grows {A} (a : A) : keeps grows (fun _ => True) (mret a).
Proof. by apply (keeps_ret grows). Qed.

Lemma lift_grows {A} (o : outcome A) : keeps grows (fun _ => True) (lift o).
Proof. by apply (keeps_lift grows). Qed.

Lemma this_grows {A} (field : Cache -> A) : keeps grows (fun _ => True) (this field).
Proof. by apply (keeps_this grows). Qed.

(** One rule, chosen by the shape of the call. *)
Ltac grows_step :=
  match goal with
  | |- keeps _ _ (try_catch _ _) => apply (keeps_try_catch grows)
  | |- keeps _ _ (_ ≫= _) => eapply (keeps_bind grows)
  | |- keeps _ _ (report _ _ _) => apply report_grows
  | |- keeps _ _ (emitEvent _ _ _ _) => apply emitEvent_grows
  | |- keeps _ _ (count_deletes _) =>
      apply count_grows; do 4 right; refine (ex_intro _ _ (conj _ eq_refl));
      first [eassumption|lia]
  | |- keeps _ _ count_set => apply count_grows; tauto
  | |- keeps _ _ count_hit => apply count_grows; tauto
  | |- keeps _ _ count_miss => apply count_grows; tauto
  | |- keeps _ _ (mret _) => apply ret_grows
  | |- keeps _ _ (throw _) => apply (keeps_throw grows)
  | |- keeps _ _ (lift _) => apply lift_grows
  | |- keeps _ _ (this _) => apply this_grows
  | |- keeps _ _ (command (Redis.del _)) =>
      first [ apply del_command_grows
            | eapply (keeps_weaken grows); [|apply del_command_grows]; done ]
  | |- keeps _ _ (command _) => apply command_grows; intros; apply redis_grows
  | |- keeps _ _ (command_try _) => apply command_try_grows; intros; apply redis_grows
  | |- keeps _ _ (all2 _ _) => apply all2_grows; intros; apply redis_grows
  | |- keeps _ _ (if ?b then _ else _) => destruct b
  | |- keeps _ _ (match ?x with _ => _ end) => destruct x
  | |- keeps _ _ (let _ := _ in _) => cbv zeta
  | |- forall _, _ => intros
  end.

Lemma set_grows key value options : keeps grows (fun _ => True) (set key value options).
Proof. unfold set, compress. repeat grows_step. Qed.

Lemma get_grows key options : keeps grows (fun _ => True) (get key options).
Proof. unfold get, decompress. repeat grows_step. Qed.

Lemma scan_keys_grows fuel pattern cursor keys :
  keeps grows (fun _ => True) (scan_keys fuel pattern cursor keys).
Proof.
  revert cursor keys. induction fuel as [|fuel IH]; intros cursor keys;
    cbn [scan_keys]; repeat first [apply IH | grows_step].
Qed.

Lemma deleteByPattern_grows pattern namespace :
  keeps grows (fun _ => True) (deleteByPattern pattern namespace).
Proof. unfold deleteByPattern. repeat first [apply scan_keys_grows | grows_step]. Qed.

Lemma del_grows key options : keeps grows (fun _ => True) (del key options).
Proof.
  unfold del.
  repeat match goal with
         | |- keeps _ _ (deleteByPattern _ _) => apply deleteByPattern_grows
         | _ => grows_step
         end.
Qed.

Lemma collect_tagged_grows tags page keys :
  keeps grows (fun _ => True) (collect_tagged tags page keys).
Proof.
  revert keys. induction page as [|metaKey page IH]; intros keys;
    cbn [collect_tagged]; repeat first [apply IH | grows_step].
Qed.

Lemma scan_tagged_grows fuel tags metaPattern cursor keys :
  keeps grows (fun _ => True) (scan_tagged fuel tags metaPattern cursor keys).
Proof.
  revert cursor keys. induction fuel as [|fuel IH]; intros cursor keys;
    cbn [scan_tagged]; repeat first [apply collect_tagged_grows | apply IH | grows_step].
Qed.

Lemma clearByTags_grows tags : keeps grows (fun _ => True) (clearByTags tags).
Proof.
  unfold clearByTags. repeat first [apply scan_tagged_grows | grows_step].
Qed.

Lemma clear_grows options : keeps grows (fun _ => True) (clear options).
Proof.
  unfold clear.
  repeat match goal with
         | |- keeps _ _ (clearByTags _) => apply clearByTags_grows
         | |- keeps _ _ (scan_keys _ _ _ _) => apply scan_keys_grows
         | _ => grows_step
         end.
Qed.

(** X20: whatever their arguments and whether they return or throw, [set],
    [get], [del] and [clear] leave the configuration, the registry and the
    queue of the warmup tasks, the timer and the drain flag as they were;
    they only add events after those already emitted and commands after
    those already sent, and no counter of the statistics goes down. *)
Theorem core_operations_only_grow (c : Cache) :
  (forall key value options, grows c (after (set key value options) c)) /\
  (forall key options, grows c (after (get key options) c)) /\
  (forall key options, grows c (after (del key options) c)) /\
  (forall options, grows c (after (clear options) c)).
Proof.
  repeat apply conj; intros.
  - apply set_grows.
  - apply get_grows.
  - apply del_grows.
  - apply clear_grows.
Qed.

End Growth.

(** ** Clearing by tags *)

Section TagClearing.

#[local] Arguments js : simpl never.

Lemma sent_more_nil c : sent_more [] c = c.
Proof. unfold sent_more. rewrite app_nil_r. by destruct c as [[] ?]. Qed.

Lemma sent_more_more a b c : sent_more b (sent_more a c) = sent_more (a ++ b) c.
Proof. unfold sent_more. simpl. by rewrite app_assoc. Qed.

Lemma tagged_with_sent tags commands c metaKey :
  tagged_with tags (sent_more commands c) metaKey = tagged_with tags c metaKey.
Proof.
  unfold tagged_with, Redis.hgetall, sent_more. simpl.
  by destruct (_ !! _) as [[[] ?]|].
Qed.

Lemma tagged_batch_sent tags commands c metaKeys :
  tagged_batch tags (sent_more commands c) metaKeys = tagged_batch tags c metaKeys.
Proof.
  unfold tagged_batch. apply flat_map_ext. intros metaKey.
  by rewrite tagged_with_sent.
Qed.

Lemma well_formed_sent tags commands c metaKeys :
  Forall (fun metaKey => tagged_with tags c metaKey <> None) metaKeys ->
  Forall (fun metaKey => tagged_with tags (sent_more commands c) metaKey <> None) metaKeys.
Proof.
  intros Hok. eapply Forall_impl; [exact Hok|]. intros k Hk. by rewrite tagged_with_sent.
Qed.

Lemma hgetall_sends key r :
  snd (Redis.hgetall key r) = Redis.send (Redis.HGETALL key) r.
Proof. unfold Redis.hgetall. simpl. by destruct (_ !! _) as [[[] ?]|]. Qed.

(** The rounds on one page, when none of them throws. *)
Lemma collect_tagged_ok tags page : forall keys c,
  Forall (fun metaKey => tagged_with tags c metaKey <> None) page ->
  exists commands,
    collect_tagged tags page keys c
    = (Return (keys ++ tagged_batch tags c page), sent_more commands c).
Proof.
  induction page as [|metaKey page IH]; intros keys c Hok.
  { exists []. cbn. by rewrite app_nil_r, sent_more_nil. }
  apply Forall_cons_1 in Hok as [Hkey Hpage].
  cbn [collect_tagged tagged_batch flat_map]. fold (tagged_batch tags c page).
  cbv [mbind M_bind bind command_try lift].
  unfold tagged_with in Hkey |- * at 1.
  pose proof (hgetall_sends metaKey (redis c)) as Hsent.
  destruct (Redis.hgetall metaKey (redis c)) as [[metadata|e] r]; cbn [fst snd] in *;
    [|done].
  subst r.
  destruct (parse_tags metadata) as [keyTags|e]; [|done].
  destruct (some_includes tags keyTags) as [found|e]; [|done].
  change (with_redis (Redis.send (Redis.HGETALL metaKey) (redis c)) c)
    with (sent_more [Redis.HGETALL metaKey] c).
  pose proof (well_formed_sent tags [Redis.HGETALL metaKey] c page Hpage) as Hpage1.
  destruct found.
  - destruct (IH (keys ++ [replace_first (js ":meta") [] metaKey; metaKey])
                (sent_more [Redis.HGETALL metaKey] c)) as [commands ->]; [done|].
    eexists. rewrite sent_more_more, tagged_batch_sent, <- app_assoc. done.
  - destruct (IH keys (sent_more [Redis.HGETALL metaKey] c)) as [commands ->]; [done|].
    eexists. rewrite sent_more_more, tagged_batch_sent. done.
Qed.

Lemma tagged_batch_app tags c l1 l2 :
  tagged_batch tags c (l1 ++ l2) = tagged_batch tags c l1 ++ tagged_batch tags c l2.
Proof. apply flat_map_app. Qed.

Local Opaque Nat.mul.

(** The scan loop of [clearByTags] with fuel for its rounds, when no round
    throws: it has gone through every key that matches the pattern. *)
Lemma scan_tagged_ok tags pattern fuel : forall cursor keys c,
  let all := (map_to_list (Redis.keyspace (redis c))).*1 in
  (length all < cursor + 100 * fuel)%nat ->
  Forall (fun metaKey => tagged_with tags c metaKey <> None)
    (List.filter (Redis.matches pattern) (drop cursor all)) ->
  exists commands,
    scan_tagged fuel tags pattern cursor keys c
    = (Return (keys ++ tagged_batch tags c
                         (List.filter (Redis.matches pattern) (drop cursor all))),
       sent_more commands c).
Proof.
  induction fuel as [|fuel IH]; intros cursor keys c all Hfuel Hok.
  { rewrite Nat.mul_0_r, Nat.add_0_r in Hfuel. exists [].
    cbn [scan_tagged]. rewrite drop_ge by lia. cbn.
    by rewrite app_nil_r, sent_more_nil. }
  cbn [scan_tagged]. cbv [mbind M_bind bind command]. unfold Redis.scan.
  cbn [Redis.send Redis.keyspace fst snd]. fold all.
  change (with_redis _ c) with (sent_more [Redis.SCAN cursor pattern 100] c).
  set (c1 := sent_more [Redis.SCAN cursor pattern 100] c).
  set (page := List.filter (Redis.matches pattern) (take 100 (drop cursor all))).
  assert (Hsplit : List.filter (Redis.matches pattern) (drop cursor all)
                   = page ++ List.filter (Redis.matches pattern) (drop (cursor + 100) all)).
  { subst page. rewrite <- List.filter_app. f_equal.
    rewrite <- drop_drop. symmetry. apply take_drop. }
  rewrite Hsplit in Hok |- *. apply Forall_app in Hok as [Hpage Hrest].
  destruct (collect_tagged_ok tags page keys c1) as [commands1 Hcollect];
    [by apply well_formed_sent|].
  rewrite Hcollect. subst c1. rewrite sent_more_more, tagged_batch_sent.
  destruct (Nat.ltb_spec (cursor + 100) (length all)) as [Hmore|Hlast].
  - replace (cursor + 100)%nat with (S (cursor + 99)) in * by lia.
    destruct (IH (S (cursor + 99)) (keys ++ tagged_batch tags c page)
                (sent_more ([Redis.SCAN cursor pattern 100] ++ commands1) c))
      as [commands2 Hscan]; [cbn; fold all; lia|by apply well_formed_sent|].
    cbn in Hscan. fold all in Hscan. cbn [app]. rewrite Hscan.
    eexists. by rewrite sent_more_more, tagged_batch_sent, tagged_batch_app, <- app_assoc.
  - eexists. rewrite tagged_batch_app, (drop_ge all) by lia. cbn.
    by rewrite app_nil_r.
Qed.

Local Transparent Nat.mul.

Lemma clearByTags_ok tags c :
  let metaPattern :=
    generateScanPattern (js "*:meta") (Some (defaultNamespace (config c)))
      (Some (keyPrefix (config c))) in
  let batch := tagged_batch tags c (matching metaPattern c) in
  Forall (fun metaKey => tagged_with tags c metaKey <> None) (matching metaPattern c) ->
  exists commands,
    clearByTags tags c =
      match batch with
      | [] => (Return 0, sent_more commands c)
      | _ :: _ =>
          let (deleted, r) := Redis.del batch (redis (sent_more commands c)) in
          (Return deleted, with_redis r c)
      end.
Proof.
  intros metaPattern batch Hok.
  destruct (scan_tagged_ok tags metaPattern (scan_fuel c) 0 [] c) as [commands Hscan].
  { unfold scan_fuel. rewrite length_fmap, length_map_to_list. lia. }
  { done. }
  exists commands. unfold clearByTags.
  cbv [mbind M_bind bind this mret M_ret ret command]. fold metaPattern.
  rewrite Hscan. rewrite drop_0. cbn [app]. fold (matching metaPattern c). fold batch.
  destruct batch; [done|]. by destruct (Redis.del _ _).
Qed.

Lemma sends_only_preorder : PreOrder sends_only.
Proof.
  split.
  - intros c. exists []. by rewrite sent_more_nil.
  - intros c1 c2 c3 [a ->] [b ->]. exists (a ++ b). apply sent_more_more.
Qed.

#[local] Existing Instance sends_only_preorder.

Lemma collect_tagged_sends_only tags page keys :
  keeps sends_only (fun _ => True) (collect_tagged tags page keys).
Proof.
  revert keys. induction page as [|metaKey page IH]; intros keys; cbn [collect_tagged].
  { by apply (keeps_ret sends_only). }
  eapply (keeps_bind sends_only).
  { apply (keeps_command_try sends_only (fun _ => True) (Redis.hgetall metaKey));
      [|done].
    intros c. exists [Redis.HGETALL metaKey]. by rewrite hgetall_sends. }
  intros metadata _. eapply (keeps_bind sends_only).
  { by apply (keeps_lift sends_only (fun _ => True)). }
  intros keyTags _. eapply (keeps_bind sends_only).
  { by apply (keeps_lift sends_only (fun _ => True)). }
  intros [] _; apply IH.
Qed.

Lemma scan_tagged_sends_only fuel tags metaPattern cursor keys :
  keeps sends_only (fun _ => True) (scan_tagged fuel tags metaPattern cursor keys).
Proof.
  revert cursor keys. induction fuel as [|fuel IH]; intros cursor keys; cbn [scan_tagged].
  { by apply (keeps_ret sends_only). }
  eapply (keeps_bind sends_only).
  { apply (keeps_command sends_only (fun _ => True)). intros c. split; [|done].
    by exists [Redis.SCAN cursor metaPattern 100]. }
  intros [next page] _. eapply (keeps_bind sends_only).
  { apply collect_tagged_sends_only. }
  intros keys' _. destruct next; [by apply (keeps_ret sends_only)|apply IH].
Qed.

Lemma clearByTags_throws tags c e c1 :
  clearByTags tags c = (Throw e, c1) -> sends_only c c1.
Proof.
  unfold clearByTags. cbv [mbind M_bind bind this mret M_ret ret command].
  set (metaPattern := generateScanPattern _ _ _).
  destruct (scan_tagged_sends_only (scan_fuel c) tags metaPattern 0 [] c) as [Hsent _].
  destruct (scan_tagged _ _ _ _ _ _) as [[keys|e'] c2]; cbn [snd] in Hsent.
  - destruct keys; [done|]. by destruct (Redis.del _ _).
  - by intros [= <- <-].
Qed.

Lemma clear_with_tags options tag tags c :
  co_tags options = Some (tag :: tags) ->
  clear options c =
    match clearByTags (tag :: tags) c with
    | (Return n, c1) => (Return n, c1)
    | (Throw e, c1) => report None (co_namespace options) e c1
    end.
Proof.
  intros Htags. unfold clear, try_catch. cbv [mbind M_bind bind this]. rewrite Htags.
  by destruct (clearByTags _ _) as [[n|e] c1].
Qed.

Lemma clear_by_tags_ok c options tag tags :
  co_tags options = Some (tag :: tags) ->
  let metaPattern :=
    generateScanPattern (js "*:meta") (Some (defaultNamespace (config c)))
      (Some (keyPrefix (config c))) in
  let metaKeys := matching metaPattern c in
  let batch := tagged_batch (tag :: tags) c metaKeys in
  let store := Redis.keyspace (redis c) in
  let c' := after (clear options) c in
  let store' := Redis.keyspace (redis c') in
  Forall (fun metaKey => tagged_with (tag :: tags) c metaKey <> None) metaKeys ->
  result (clear options) c = Return (Z.of_nat (size store) - Z.of_nat (size store')) /\
  (forall k, store' !! k = if decide (k ∈ batch) then None else store !! k) /\
  stats c' = stats c /\
  emitted c' = emitted c.
Proof.
  intros Htags metaPattern metaKeys batch store c' store' Hok.
  subst c' store'. unfold after, result. rewrite (clear_with_tags _ _ _ _ Htags).
  destruct (clearByTags_ok (tag :: tags) c Hok) as [commands ->].
  fold metaPattern metaKeys batch.
  pose proof (del_keys_count batch store) as [Hcount _].
  pose proof (del_keys_lookup batch store) as Hlookup.
  destruct batch as [|k0 batch'] eqn:Hbatch.
  { cbn. fold store. split; [f_equal; lia|]. split; [|done].
    intros k. by rewrite decide_False by apply not_elem_of_nil. }
  unfold Redis.del. cbn [Redis.send Redis.keyspace redis sent_more with_redis].
  fold store. destruct (Redis.del_keys (k0 :: batch') store) as [n store1].
  cbn [fst snd] in *. subst n. done.
Qed.


Lemma starts_with_meta_app k :
  k <> [] -> starts_with (js ":meta") (k ++ js ":meta") = starts_with (js ":meta") k.
Proof.
  intros Hk. destruct k as [|a [|b [|x [|d [|e k]]]]]; [done|..]; cbn;
    repeat match goal with
           | |- context [(?m =? ?n)%N] => is_var n; destruct (N.eqb_spec m n); subst
           end; try done.
Qed.

(** Removing the first [:meta] of a metadata key gives the primary key
    back when the primary key has no [:meta] inside. *)
Lemma replace_first_meta k :
  str_includes (js ":meta") k = false ->
  replace_first (js ":meta") [] (meta_key k) = k.
Proof.
  unfold meta_key. induction k as [|x k IH]; intros Hfree; [done|].
  cbn [str_includes] in Hfree. apply orb_false_iff in Hfree as [Hstart Hrest].
  change ((x :: k) ++ js ":meta") with (x :: (k ++ js ":meta")).
  cbn [replace_first].
  change (x :: (k ++ js ":meta")) with ((x :: k) ++ js ":meta").
  rewrite starts_with_meta_app, Hstart by done.
  change ((x :: k) ++ js ":meta") with (x :: (k ++ js ":meta")). cbv iota.
  by rewrite IH.
Qed.


End TagClearing.

(** ** The order of the drains *)

Section Ordering.

Lemma sort_queue_bound queue p :
  Forall (fun u => priority_of u <= p) queue ->
  Forall (fun u => priority_of u <= p) (sort_queue queue).
Proof.
  intros Hall. apply List.Forall_forall. intros u Hu.
  rewrite List.Forall_forall in Hall. apply Hall.
  eapply Permutation_in; [apply sort_queue_perm|exact Hu].
Qed.

Lemma insert_task_first task queue :
  Forall (fun u => priority_of u <= priority_of task) queue ->
  insert_task task queue = task :: queue.
Proof.
  intros Hall. destruct queue as [|u queue]; [done|]. cbn [insert_task].
  apply Forall_cons_1 in Hall as [Hu _].
  by rewrite (proj2 (Z.ltb_ge _ _) Hu).
Qed.

(** Sorting leaves a sorted queue as it is. *)
Lemma sort_queue_sorted queue : descending queue -> sort_queue queue = queue.
Proof.
  unfold descending. induction 1 as [|task queue Hs IH Hall]; [done|].
  cbn [sort_queue]. rewrite IH. by apply insert_task_first.
Qed.

(** The sorted queue starts with the first of the tasks of the highest
    priority. *)
Lemma sort_queue_first before task after :
  Forall (fun u => priority_of u < priority_of task) before ->
  Forall (fun u => priority_of u <= priority_of task) after ->
  sort_queue (before ++ task :: after) = task :: sort_queue (before ++ after).
Proof.
  intros Hbefore Hafter. induction Hbefore as [|b before Hb Hbefore IH].
  - cbn [app sort_queue]. apply insert_task_first. by apply sort_queue_bound.
  - cbn [app sort_queue]. rewrite IH. cbn [insert_task].
    by rewrite (proj2 (Z.ltb_lt _ _) Hb).
Qed.

Lemma first_highest_split queue :
  queue <> [] ->
  exists before task after,
    queue = before ++ task :: after /\
    Forall (fun u => priority_of u < priority_of task) before /\
    Forall (fun u => priority_of u <= priority_of task) after.
Proof.
  induction queue as [|x queue IH]; [done|]. intros _.
  destruct queue as [|y queue].
  { exists [], x, []. by repeat split. }
  destruct IH as (before & task & after & Hq & Hbefore & Hafter); [done|].
  destruct (Z.ltb_spec (priority_of x) (priority_of task)) as [Hlt|Hge].
  - exists (x :: before), task, after. rewrite Hq. repeat split; [|done].
    by constructor.
  - exists [], x, (y :: queue). repeat split; [constructor|].
    rewrite Hq. apply Forall_app. split.
    + eapply Forall_impl; [exact Hbefore|]. simpl. intros; lia.
    + constructor; [lia|]. eapply Forall_impl; [exact Hafter|]. simpl. intros; lia.
Qed.

(** The sort is stable: tasks of one priority keep their order. *)
Lemma sort_queue_stable queue p :
  List.filter (fun u => priority_of u =? p) (sort_queue queue)
  = List.filter (fun u => priority_of u =? p) queue.
Proof.
  assert (Hinsert : forall task l,
    List.filter (fun u => priority_of u =? p) (insert_task task l)
    = List.filter (fun u => priority_of u =? p) (task :: l)).
  { intros task l. induction l as [|u l IH]; [done|]. cbn [insert_task].
    destruct (Z.ltb_spec (priority_of task) (priority_of u)) as [Hlt|Hge]; [|done].
    cbn [List.filter] in *. rewrite IH.
    destruct (Z.eqb_spec (priority_of u) p), (Z.eqb_spec (priority_of task) p);
      try done; lia. }
  induction queue as [|task queue IH]; [done|].
  cbn [sort_queue]. rewrite Hinsert. cbn [List.filter]. by rewrite IH.
Qed.



End Ordering.

Section Drains.

Lemma processWarmupQueue_begin_takes c task rest :
  isProcessingWarmup c = false ->
  sort_queue (warmupQueue c) = task :: rest ->
  processWarmupQueue_begin c =
    (executeWarmupTask_begin task
       (with_warmupQueue rest
          (with_warmupQueue (sort_queue (warmupQueue c))
             (with_isProcessingWarmup true c))), Some task).
Proof.
  intros Hflag Hsort. unfold processWarmupQueue_begin. rewrite Hflag. simpl.
  destruct (warmupQueue c) as [|x q] eqn:Hqueue; [done|]. simpl.
  change (insert_task x (sort_queue q)) with (sort_queue (x :: q)).
  by rewrite Hsort.
Qed.

(** A drain of a queue that is not empty, with the flag down, whose task
    settles. *)
Lemma drain_settles c task rest result :
  isProcessingWarmup c = false ->
  sort_queue (warmupQueue c) = task :: rest ->
  awaited task = Some result ->
  exists c',
    processWarmupQueue c = Settled (Return tt) c' /\
    isProcessingWarmup c' = false /\
    warmupQueue c' = rest /\
    warmupTasks c' = warmupTasks c /\
    executed c' = executed c ++ [task_id task].
Proof.
  intros Hflag Hsort Hawait.
  unfold processWarmupQueue.
  rewrite (processWarmupQueue_begin_takes c task rest Hflag Hsort), Hawait.
  match goal with |- context [processWarmupQueue_end task result ?c1] =>
    destruct (processWarmupQueue_end_spec task result c1) as (Hr & Hq & Ht & Hx & Hf);
    destruct (processWarmupQueue_end task result c1) as [o c2]
  end.
  simpl in *. subst o. by exists c2.
Qed.

(** Drains do nothing while the flag is up or the queue is empty. *)
Lemma drains_idle n c :
  isProcessingWarmup c = true \/ warmupQueue c = [] -> drains n c = c.
Proof.
  intros Hidle. induction n as [|n IH]; [done|]. cbn [drains].
  assert (Hb : processWarmupQueue_begin c = (c, None)).
  { unfold processWarmupQueue_begin.
    destruct Hidle as [-> | ->]; [done|]. simpl. by rewrite orb_true_r. }
  unfold processWarmupQueue. by rewrite Hb.
Qed.

Lemma drains_run n : forall c,
  isProcessingWarmup c = false ->
  (n <= length (warmupQueue c))%nat ->
  Forall (fun task => awaited task <> None) (warmupQueue c) ->
  let order := sort_queue (warmupQueue c) in
  let c' := drains n c in
  executed c' = executed c ++ List.map task_id (take n order) /\
  sort_queue (warmupQueue c') = drop n order /\
  isProcessingWarmup c' = false /\
  warmupTasks c' = warmupTasks c.
Proof.
  induction n as [|n IH]; intros c Hflag Hlen Hsettle; cbn [drains].
  { cbn [take drop List.map]. by rewrite app_nil_r. }
  cbv zeta.
  destruct (sort_queue (warmupQueue c)) as [|task rest] eqn:Hsort.
  { apply (f_equal (@length _)) in Hsort.
    rewrite (Permutation_length (sort_queue_perm _)) in Hsort. simpl in Hsort. lia. }
  assert (Hin : forall u, In u (task :: rest) -> In u (warmupQueue c)).
  { intros u Hu. rewrite <- Hsort in Hu.
    eapply Permutation_in; [apply sort_queue_perm|exact Hu]. }
  destruct (awaited task) as [result|] eqn:Hawait.
  2:{ rewrite List.Forall_forall in Hsettle. destruct (Hsettle task); [|done].
      apply Hin. by left. }
  destruct (drain_settles c task rest result Hflag Hsort Hawait)
    as (c1 & -> & Hflag1 & Hq1 & Ht1 & Hx1).
  cbn [state_of].
  assert (Hrest : sort_queue rest = rest).
  { apply sort_queue_sorted.
    pose proof (sort_queue_descending (warmupQueue c)) as Hd. rewrite Hsort in Hd.
    by apply StronglySorted_inv in Hd as [Hd _]. }
  destruct (IH c1) as (Hx & Hq & Hf & Ht).
  - done.
  - rewrite Hq1.
    assert (length (task :: rest) = length (warmupQueue c)).
    { rewrite <- Hsort. apply Permutation_length, sort_queue_perm. }
    simpl in *. lia.
  - rewrite Hq1. apply List.Forall_forall. intros u Hu.
    rewrite List.Forall_forall in Hsettle. apply Hsettle, Hin. by right.
  - rewrite Hq1, Hrest in Hx, Hq.
    rewrite Hx, Hx1, Hq, Hf, Ht, Ht1. cbn [take drop List.map].
    by rewrite <- app_assoc.
Qed.

(** X24: with the drain flag down and a queue whose routines all settle
    (or are cut by their timeout), successive drains call the routines in
    the order of the sorted queue, highest priority first and first queued
    first among equals, one task a drain: after [n] drains the routines of
    the first [n] tasks have been called, each once.  After as many drains
    as the queue had tasks, and after any number more, every routine has
    been called once, the queue is empty, the flag is down and the
    registry is as it was. *)
Theorem drains_run_the_queue_in_priority_order (c : Cache) :
  isProcessingWarmup c = false ->
  Forall (fun task => awaited task <> None) (warmupQueue c) ->
  let order := sort_queue (warmupQueue c) in
  descending order /\
  order ≡ₚ warmupQueue c /\
  (forall n, (n <= length (warmupQueue c))%nat ->
     executed (drains n c) = executed c ++ List.map task_id (take n order)) /\
  (forall n, (length (warmupQueue c) <= n)%nat ->
     let c' := drains n c in
     executed c' = executed c ++ List.map task_id order /\
     warmupQueue c' = [] /\
     isProcessingWarmup c' = false /\
     warmupTasks c' = warmupTasks c).
Proof.
  intros Hflag Hsettle order.
  split; [apply sort_queue_descending|]. split; [apply sort_queue_perm|].
  assert (Hlen : length order = length (warmupQueue c)).
  { apply Permutation_length, sort_queue_perm. }
  split.
  - intros n Hn. by destruct (drains_run n c Hflag Hn Hsettle) as (Hx & _).
  - intros n Hn.
    destruct (drains_run (length (warmupQueue c)) c Hflag (le_n _) Hsettle)
      as (Hx & Hq & Hf & Ht).
    fold order in Hx, Hq. rewrite <- Hlen, take_ge, drop_ge in * by lia.
    assert (Hempty : warmupQueue (drains (length order) c) = []).
    { apply Permutation_nil. rewrite <- Hq. apply sort_queue_perm. }
    assert (Hsplit : forall a b c0, drains (a + b) c0 = drains b (drains a c0)).
    { induction a as [|a IHa]; intros b c0; [done|]. cbn [Nat.add drains]. apply IHa. }
    replace n with (length order + (n - length order))%nat by lia.
    cbv zeta. rewrite Hsplit, drains_idle by by right. done.
Qed.

(** X25: when the task that a drain takes has a routine that never
    settles and no timeout (or a timeout of 0), the drain never ends: the
    flag stays up, and every later drain returns at once without a change,
    so that the tasks left in the queue are never run. *)
Theorem hanging_task_blocks_the_queue (c : Cache) (task : WarmupTask)
    (rest : list WarmupTask) :
  isProcessingWarmup c = false ->
  sort_queue (warmupQueue c) = task :: rest ->
  awaited task = None ->
  exists c',
    processWarmupQueue c = Suspended c' /\
    isProcessingWarmup c' = true /\
    warmupQueue c' = rest /\
    executed c' = executed c ++ [task_id task] /\
    forall n, drains n c' = c'.
Proof.
  intros Hflag Hsort Hawait. unfold processWarmupQueue.
  rewrite (processWarmupQueue_begin_takes c task rest Hflag Hsort), Hawait.
  eexists. split; [done|]. split; [done|]. split; [done|]. split; [done|].
  intros n. apply drains_idle. by left.
Qed.

(** X24 on the queue [low; high]: two drains call [high], then [low]. *)
Lemma drains_run_the_queue_in_priority_order_witness :
  executed (drains 2 queued_cache) = [js "high"; js "low"] /\
  warmupQueue (drains 2 queued_cache) = [].
Proof.
  destruct (drains_run_the_queue_in_priority_order queued_cache)
    as (_ & _ & _ & Hall).
  - reflexivity.
  - repeat constructor; discriminate.
  - destruct (Hall 2%nat) as (Hx & Hq & _); [exact (le_n 2)|].
    split; [exact Hx|exact Hq].
Defined.

(** X25 on a task whose routine never settles and that declares no
    timeout. *)
Lemma hanging_task_blocks_the_queue_witness :
  let stuck := task_of (js "stuck") NeverSettles None None in
  let c := after (queueWarmupTask (js "stuck") no_queue_options)
             (after (registerWarmupTask stuck) fresh_cache) in
  exists c', processWarmupQueue c = Suspended c' /\ drains 3 c' = c'.
Proof.
  intros stuck c.
  destruct (hanging_task_blocks_the_queue c stuck [])
    as (c' & Hrun & _ & _ & _ & Hidle); [reflexivity|reflexivity|reflexivity|].
  exists c'. split; [exact Hrun|apply Hidle].
Defined.

End Drains.

(** ** The registry *)

Section Registry.

Lemma with_warmupTasks_same c : with_warmupTasks (warmupTasks c) c = c.
Proof. by destruct c. Qed.

Lemma unregisterWarmupTask_unknown taskId c :
  warmupTasks c !! taskId = None ->
  unregisterWarmupTask taskId c = (Return false, c).
Proof.
  intros Hk. unfold unregisterWarmupTask. run_M. rewrite Hk.
  rewrite bool_decide_eq_false_2 by (by intros [? ?]). simpl.
  by rewrite delete_id, with_warmupTasks_same.
Qed.

Lemma unregisterWarmupTask_known taskId c task :
  warmupTasks c !! taskId = Some task ->
  unregisterWarmupTask taskId c =
    (Return true,
     with_emitted
       (emitted c ++
        [event_of warmup (Some taskId) None (WarmupData None unregistered None None)])
       (with_warmupQueue
          (List.filter (fun u => negb (bool_decide (task_id u = taskId))) (warmupQueue c))
          (with_warmupTasks (delete taskId (warmupTasks c)) c))).
Proof.
  intros Hk. unfold unregisterWarmupTask, emitEvent. run_M. rewrite Hk.
  by rewrite bool_decide_eq_true_2 by by eexists.
Qed.

(** X26: [unregisterWarmupTask] returns [false] and changes nothing for an
    id that is not registered.  For a registered id it returns [true],
    removes the registration and every task with this id from the queue,
    leaving the other tasks of the queue in their order, and emits the
    [unregistered] event; afterwards [queueWarmupTask] and [runWarmupTask]
    with this id fail with the not-found error and change nothing. *)
Theorem unregisterWarmupTask_removes_the_task (c : Cache) (taskId : jsstring) :
  (warmupTasks c !! taskId = None ->
   unregisterWarmupTask taskId c = (Return false, c)) /\
  (forall task,
     warmupTasks c !! taskId = Some task ->
     let c' := after (unregisterWarmupTask taskId) c in
     result (unregisterWarmupTask taskId) c = Return true /\
     warmupTasks c' = delete taskId (warmupTasks c) /\
     ~ in_queue taskId c' /\
     warmupQueue c' =
       List.filter (fun u => negb (bool_decide (task_id u = taskId))) (warmupQueue c) /\
     emitted c' =
       emitted c ++
       [event_of warmup (Some taskId) None (WarmupData None unregistered None None)] /\
     (forall options,
        queueWarmupTask taskId options c' = (Throw (not_found taskId), c')) /\
     runWarmupTask taskId c' = Settled (Throw (not_found taskId)) c').
Proof.
  split; [apply unregisterWarmupTask_unknown|].
  intros task Hk c'. subst c'. unfold after, result.
  rewrite (unregisterWarmupTask_known taskId c task Hk). cbn [fst snd].
  assert (Hfilter : forall u,
    In u (List.filter (fun u => negb (bool_decide (task_id u = taskId))) (warmupQueue c))
    <-> In u (warmupQueue c) /\ task_id u <> taskId).
  { intros u. rewrite filter_In, negb_true_iff, bool_decide_eq_false. done. }
  split; [done|]. split; [done|]. split; [|split; [done|split; [done|split]]].
  - unfold in_queue. simpl. rewrite in_map_iff. intros (u & Hid & Hin).
    apply Hfilter in Hin as [_ Hne]. done.
  - intros options. apply queueWarmupTask_unknown. simpl. apply lookup_delete_eq.
  - unfold runWarmupTask. simpl. by rewrite lookup_delete_eq.
Qed.

(** X26 on a task that is registered and queued. *)
Lemma unregisterWarmupTask_removes_the_task_witness :
  result (unregisterWarmupTask (js "low")) queued_cache = Return true /\
  warmupQueue (after (unregisterWarmupTask (js "low")) queued_cache) = [high_task].
Proof.
  destruct (unregisterWarmupTask_removes_the_task queued_cache (js "low")) as [_ Hknown].
  destruct (Hknown low_task) as (Hr & _); [reflexivity|].
  split; [exact Hr|reflexivity].
Defined.


End Registry.

(** ** One run of a task *)

Section Runs.



End Runs.

(** ** An invariant of the scheduler *)

Section Invariant.

Context `{Platform}.

Lemma grows_scheduler c c' :
  grows c c' -> warmupTasks c' = warmupTasks c /\ warmupQueue c' = warmupQueue c.
Proof. intros (_ & Ht & Hq & _). done. Qed.

Lemma scheduler_frame c c' :
  warmupTasks c' = warmupTasks c -> warmupQueue c' = warmupQueue c ->
  scheduler_ok c /\ queue_registered c -> scheduler_ok c' /\ queue_registered c'.
Proof.
  intros Ht Hq [[Hreg Hnd] Hqr].
  unfold scheduler_ok, registry_ok, queue_registered. rewrite Ht, Hq. done.
Qed.

(** Every segment keeps the invariant. *)
Lemma step_keeps_scheduler c s :
  scheduler_ok c /\ queue_registered c ->
  scheduler_ok (step c s) /\ queue_registered (step c s).
Proof.
  intros Hinv. destruct s; cbn [step].
  - destruct (grows_scheduler c _ (proj1 (set_grows key value options c))).
    by apply (scheduler_frame c).
  - destruct (grows_scheduler c _ (proj1 (get_grows key options c))).
    by apply (scheduler_frame c).
  - destruct (grows_scheduler c _ (proj1 (del_grows key options c))).
    by apply (scheduler_frame c).
  - destruct (grows_scheduler c _ (proj1 (clear_grows options c))).
    by apply (scheduler_frame c).
  - destruct Hinv as [Hok Hqr]. split; [by apply registerWarmupTask_scheduler_ok|].
    unfold registerWarmupTask, emitEvent. run_M. intros u Hu. simpl.
    destruct (decide (task_id u = task_id task)) as [->|Hne];
      [by rewrite lookup_insert_eq|rewrite lookup_insert_ne by done; by apply Hqr].
  - destruct Hinv as [Hok Hqr]. split; [by apply unregisterWarmupTask_scheduler_ok|].
    destruct (warmupTasks c !! taskId) as [task|] eqn:Hk.
    + unfold after. rewrite (unregisterWarmupTask_known taskId c task Hk).
      intros u Hu. simpl in *. apply filter_In in Hu as [Hu Hne].
      apply negb_true_iff, bool_decide_eq_false in Hne.
      rewrite lookup_delete_ne by done. by apply Hqr.
    + unfold after. by rewrite (unregisterWarmupTask_unknown taskId c Hk).
  - destruct Hinv as [[Hreg Hnd] Hqr].
    destruct (warmupTasks c !! taskId) as [task|] eqn:Hk.
    2:{ unfold after. by rewrite (queueWarmupTask_unknown taskId options c Hk). }
    destruct (existsb (fun t => bool_decide (task_id t = taskId)) (warmupQueue c))
      eqn:Hex.
    { apply queued_spec in Hex. unfold after.
      by rewrite (queueWarmupTask_queued taskId options c task Hk Hex). }
    assert (Hin : ~ In taskId (List.map task_id (warmupQueue c))).
    { rewrite <- queued_spec. congruence. }
    unfold after. rewrite (queueWarmupTask_fresh taskId options c task Hk Hin).
    assert (Hid : task_id task = taskId) by by apply Hreg.
    split; [split; [done|]|].
    + simpl. rewrite List.map_app. simpl. rewrite with_priority_id, Hid.
      apply NoDup_app. split; [done|]. split; [|apply NoDup_singleton].
      intros x Hx Hx'. apply list_elem_of_singleton in Hx' as ->.
      by apply list_elem_of_In in Hx.
    + intros u Hu. simpl in *. apply in_app_or in Hu as [Hu|[<-|[]]]; [by apply Hqr|].
      rewrite with_priority_id, Hid, Hk. by eexists.
  - destruct (warmupTasks c !! taskId) as [task|]; [|done].
    by apply (scheduler_frame c).
  - destruct (executeWarmupTask_end_scheduler task settled c) as (Hq & Ht & _).
    by apply (scheduler_frame c).
  - destruct Hinv as [Hok Hqr]. split; [by apply processWarmupQueue_begin_scheduler_ok|].
    unfold processWarmupQueue_begin.
    destruct (isProcessingWarmup c || _); [done|]. simpl.
    destruct (sort_queue (warmupQueue c)) as [|task rest] eqn:Hsort; [by intros u []|].
    intros u Hu. simpl in *. apply Hqr.
    eapply Permutation_in; [apply sort_queue_perm|]. rewrite Hsort. by right.
  - destruct (processWarmupQueue_end_spec task settled c) as (_ & Hq & Ht & _).
    by apply (scheduler_frame c).
  - apply (scheduler_frame c); [..|done]; unfold destroy, stopWarmupProcessor;
      by destruct (warmupTimer c).
Qed.

(** X29: in every state that a cache reaches from its constructor by calls
    of the core operations and of the scheduler, runs and drains, these
    last two in any interleaving of their halves, every task is registered
    under its own id, no id is in the queue twice, and every task in the
    queue has its id registered. *)
Theorem scheduler_invariant (cfg : CacheConfig) (server : Redis.client)
    (segments : list segment) :
  let c := fold_left step segments (constructor cfg server) in
  registry_ok c /\
  NoDup (List.map task_id (warmupQueue c)) /\
  queue_registered c.
Proof.
  cbv zeta.
  assert (Hinv : forall c,
            scheduler_ok c /\ queue_registered c ->
            scheduler_ok (fold_left step segments c) /\
            queue_registered (fold_left step segments c)).
  { induction segments as [|s segments IH]; intros c Hc; [done|].
    cbn [fold_left]. by apply IH, step_keeps_scheduler. }
  destruct (Hinv (constructor cfg server)) as [[Hreg Hnd] Hqr]; [|done].
  split; [apply constructor_scheduler_ok|].
  unfold constructor. simpl. destruct (or_bool _ _); by intros u [].
Qed.

End Invariant.

(** ** The further properties on concrete entries *)

Section FurtherExamples.

#[local] Existing Instance reference_platform.


(** X10 on a cache that is new. *)
Lemma get_miss_witness :
  result (get (js "absent") no_get_options) fresh_cache = Return JNull /\
  misses (stats (after (get (js "absent") no_get_options) fresh_cache)) = 1.
Proof.
  destruct (get_miss fresh_cache (js "absent") no_get_options) as (Hr & _ & _ & Hs & _).
  - reflexivity.
  - reflexivity.
  - intros s ttl. vm_compute. discriminate.
  - split; [exact Hr|]. rewrite Hs. reflexivity.
Defined.

(** X12 on a hit. *)
Lemma get_is_read_only_witness :
  Redis.keyspace (redis (after (get (js "k") no_get_options) tagged_cache))
  = Redis.keyspace (redis tagged_cache).
Proof.
  destruct (get_is_read_only tagged_cache (js "k") no_get_options) as [Hstore _];
    [reflexivity|exact Hstore].
Defined.

(** X13 on [{ xx: true }] and a key that is absent. *)
Lemma set_refused_by_condition_witness :
  result (set (js "k") (JNum 1)
            {| so_ttl := None; so_namespace := None; so_compress := None;
               so_serialize := None; so_deserialize := None; so_tags := None;
               so_nx := None; so_xx := Some true |}) fresh_cache
  = Return false.
Proof.
  unfold result.
  rewrite (set_refused_by_condition fresh_cache (js "k") (JNum 1)); [reflexivity| |];
    reflexivity.
Defined.

(** X14 on a write with a tag. *)
Lemma set_stores_the_payload_witness :
  Redis.keyspace
    (redis (after (set (js "k") (JNum 1) (tags_options [js "t"])) fresh_cache))
    !! js "frache:cache:k"
  = Some {| Redis.r_value := Redis.RString (js "1"); Redis.r_ttl := Some 3600 |}.
Proof.
  destruct (set_stores_the_payload fresh_cache (js "k") (JNum 1) (tags_options [js "t"]))
    as (_ & Hk & _).
  - reflexivity.
  - exact I.
  - intros s ttl. vm_compute. discriminate.
  - exact Hk.
Defined.


(** X16 on an entry with both records. *)
Lemma del_removes_both_records_witness :
  result (del (js "k") no_del_options) tagged_cache = Return 2 /\
  Redis.keyspace (redis (after (del (js "k") no_del_options) tagged_cache)) = ∅.
Proof.
  destruct (del_removes_both_records tagged_cache (js "k") no_del_options)
    as (Hr & Hs & _); [reflexivity|reflexivity|].
  split; [exact Hr|]. rewrite Hs. vm_compute. reflexivity.
Defined.

(** X17 on an entry with both records. *)
Lemma del_then_get_misses_witness :
  result (get (js "k") no_get_options)
    (after (del (js "k") no_del_options) tagged_cache) = Return JNull.
Proof.
  destruct (del_then_get_misses tagged_cache (js "k") no_del_options no_get_options)
    as (Hr & _); [reflexivity|reflexivity|reflexivity|exact Hr].
Defined.

(** X18 on [{ pattern: '*' }] and an entry with both records. *)
Lemma del_by_pattern_witness :
  result (del (js "any")
            {| do_ttl := None; do_namespace := None; do_compress := None;
               do_serialize := None; do_deserialize := None; do_tags := None;
               do_pattern := Some (js "*") |}) tagged_cache
  = Return 2.
Proof.
  destruct (del_by_pattern tagged_cache (js "any")
              {| do_ttl := None; do_namespace := None; do_compress := None;
                 do_serialize := None; do_deserialize := None; do_tags := None;
                 do_pattern := Some (js "*") |} 42%N [])
    as (Hr & _); [reflexivity|reflexivity|].
  rewrite Hr. vm_compute. reflexivity.
Defined.

(** X19 on [clear()] and an entry with both records. *)
Lemma clear_by_pattern_witness :
  result (clear {| co_namespace := None; co_tags := None; co_pattern := None |})
    tagged_cache
  = Return 2.
Proof.
  destruct (clear_by_pattern tagged_cache
              {| co_namespace := None; co_tags := None; co_pattern := None |})
    as (Hr & _); [exact I|].
  rewrite Hr. vm_compute. reflexivity.
Defined.



End FurtherExamples.
